(** * SqlQuery-Agent: the safety validator and the refinement orchestrator

    A shallow embedding of

    - [src/lib/tools/safetyChecker.js]  ([checkQuerySafety]),
    - [src/lib/tools/queryExecutor.js]  ([executeQuery], [executeQuerySafe]),
    - [src/lib/nodes/executionNodes.js] ([safetyCheckNode], [executionNode]),
    - [src/lib/agent.js]                ([sqlQueryAgent]),

    together with the properties the specification states about them.

    Strings.  A JavaScript string is modelled as a Stdlib [string], one
    character per code unit.  The regular expressions of the source carry no
    [u] flag and are made of ASCII literals, so their matching ([\b], [\s],
    the [i] flag) is modelled exactly on code units below 256.
    [toUpperCase] maps the ASCII letters and leaves every other character
    as it is; the literals compared against its result ("SELECT",
    "SELECT *", "LIMIT", "TOP") are ASCII.  Numbers ([maxRetries],
    [maxRows], [attempt]) are integers.

    Collaborators.  The language model, the database pool and the clock are
    outside the repository.  They are gathered in a record [World] of
    oracles; every call the orchestrator makes to one of them is recorded in
    a call log next to the source's own [trace] array. *)

From Stdlib Require Import String Ascii List Bool ZArith Lia.
From Stdlib Require Import Numbers.DecimalString.
Import ListNotations.
Open Scope string_scope.
Open Scope bool_scope.

(* ===================================================================== *)
(** ** JavaScript strings *)
(* ===================================================================== *)

Module JsString.

Definition code (c : ascii) : nat := nat_of_ascii c.

Definition between (lo hi : nat) (c : ascii) : bool :=
  (lo <=? code c)%nat && (code c <=? hi)%nat.

(** WhiteSpace and LineTerminator of ECMAScript, among the code units
    below 256: TAB, LF, VT, FF, CR, SP and NBSP.  [String.prototype.trim]
    and the class [\s] use the same set. *)
Definition isWhiteSpace (c : ascii) : bool :=
  between 9 13 c || (code c =? 32)%nat || (code c =? 160)%nat.

Definition isUpper (c : ascii) : bool := between 65 90 c.
Definition isLower (c : ascii) : bool := between 97 122 c.
Definition isDigit (c : ascii) : bool := between 48 57 c.

(** The word characters of [\w] and [\b]: [A-Za-z0-9_]. *)
Definition isWordChar (c : ascii) : bool :=
  isUpper c || isLower c || isDigit c || (code c =? 95)%nat.

Definition upperChar (c : ascii) : ascii :=
  if isLower c then ascii_of_nat (code c - 32) else c.

Fixpoint toUpperCase (s : string) : string :=
  match s with
  | EmptyString => EmptyString
  | String c s' => String (upperChar c) (toUpperCase s')
  end.

Fixpoint trimStart (s : string) : string :=
  match s with
  | EmptyString => EmptyString
  | String c s' => if isWhiteSpace c then trimStart s' else s
  end.

Fixpoint trimEnd (s : string) : string :=
  match s with
  | EmptyString => EmptyString
  | String c s' =>
      match trimEnd s' with
      | EmptyString => if isWhiteSpace c then EmptyString
                       else String c EmptyString
      | t => String c t
      end
  end.

Definition trim (s : string) : string := trimEnd (trimStart s).

(** [s.startsWith(p)] *)
Fixpoint startsWith (s p : string) : bool :=
  match p, s with
  | EmptyString, _ => true
  | String _ _, EmptyString => false
  | String a p', String b s' => Ascii.eqb a b && startsWith s' p'
  end.

(** [s.includes(p)] *)
Fixpoint includes (s p : string) : bool :=
  startsWith s p ||
  match s with
  | EmptyString => false
  | String _ s' => includes s' p
  end.

(** [s.endsWith(p)] *)
Fixpoint endsWith (s p : string) : bool :=
  String.eqb s p ||
  match s with
  | EmptyString => false
  | String _ s' => endsWith s' p
  end.

(** [(s.match(/c/g) || []).length] for a one-character pattern. *)
Fixpoint countChar (c : ascii) (s : string) : nat :=
  match s with
  | EmptyString => 0
  | String d s' => (if Ascii.eqb c d then 1 else 0) + countChar c s'
  end.

(** [l.join(sep)] *)
Fixpoint join (sep : string) (l : list string) : string :=
  match l with
  | [] => ""
  | [x] => x
  | x :: l' => x ++ sep ++ join sep l'
  end.

(** [s.replace(/;$/, "")]: without the [m] flag [$] is the end of the
    input, so this drops one final semicolon. *)
Fixpoint dropFinalSemicolon (s : string) : string :=
  match s with
  | EmptyString => EmptyString
  | String c EmptyString => if Ascii.eqb c ";" then EmptyString else s
  | String c s' => String c (dropFinalSemicolon s')
  end.

(** Template-literal rendering of an integer number, [`${n}`]. *)
Definition ofInt (n : Z) : string := NilEmpty.string_of_int (Z.to_int n).

End JsString.

(* ===================================================================== *)
(** ** Regular expressions *)
(* ===================================================================== *)

(** The fragment of ECMAScript regular expressions the source uses, with a
    backtracking matcher that returns every position a match can end at. *)
Module RegExp.
Import JsString.

Inductive regex : Type :=
| Eps                        (* empty pattern *)
| Chr (c : ascii)            (* a literal character *)
| SpaceStar                  (* \s* *)
| WordB                      (* \b *)
| Seq (r1 r2 : regex)
| Alt (r1 r2 : regex).

(** A position in the input: the character just before it (if any) and
    the text that remains. *)
Definition cursor : Type := (option ascii * string)%type.

Definition isWord (o : option ascii) : bool :=
  match o with
  | Some c => isWordChar c
  | None => false
  end.

Definition next (s : string) : option ascii :=
  match s with
  | EmptyString => None
  | String c _ => Some c
  end.

(** [\b] holds where exactly one of the two neighbours is a word
    character. *)
Definition atBoundary (k : cursor) : bool :=
  xorb (isWord (fst k)) (isWord (next (snd k))).

(** Character comparison, through Canonicalize when the [i] flag is set. *)
Definition chEq (ic : bool) (a b : ascii) : bool :=
  if ic then Ascii.eqb (upperChar a) (upperChar b) else Ascii.eqb a b.

(** The ends of the matches of [\s*], longest first. *)
Fixpoint spaces (prev : option ascii) (s : string) : list cursor :=
  match s with
  | EmptyString => [(prev, s)]
  | String c s' =>
      if isWhiteSpace c then spaces (Some c) s' ++ [(prev, s)]
      else [(prev, s)]
  end.

Fixpoint runs (ic : bool) (r : regex) (k : cursor) : list cursor :=
  match r with
  | Eps => [k]
  | Chr c =>
      match snd k with
      | EmptyString => []
      | String d s' => if chEq ic c d then [(Some d, s')] else []
      end
  | SpaceStar => spaces (fst k) (snd k)
  | WordB => if atBoundary k then [k] else []
  | Seq r1 r2 => flat_map (runs ic r2) (runs ic r1 k)
  | Alt r1 r2 => runs ic r1 k ++ runs ic r2 k
  end.

Definition matchesAt (ic : bool) (r : regex) (k : cursor) : bool :=
  match runs ic r k with
  | [] => false
  | _ :: _ => true
  end.

Fixpoint testFrom (ic : bool) (r : regex) (prev : option ascii)
         (s : string) : bool :=
  matchesAt ic r (prev, s) ||
  match s with
  | EmptyString => false
  | String c s' => testFrom ic r (Some c) s'
  end.

(** A RegExp object: its source text, its [i] flag and the parsed
    pattern.  None of the source's patterns has the [g] flag, so [test]
    keeps no state between calls. *)
Record t : Type := mk {
  source : string;
  ignoreCase : bool;
  prog : regex
}.

Definition test (re : t) (s : string) : bool :=
  testFrom (ignoreCase re) (prog re) None s.

(** [RegExp.prototype.toString] *)
Definition toString (re : t) : string :=
  "/" ++ source re ++ "/" ++ (if ignoreCase re then "i" else "").

(** The pattern of a literal text. *)
Fixpoint lits (p : string) : regex :=
  match p with
  | EmptyString => Eps
  | String c p' => Seq (Chr c) (lits p')
  end.

Fixpoint alts (l : list string) : regex :=
  match l with
  | [] => Eps
  | [p] => lits p
  | p :: l' => Alt (lits p) (alts l')
  end.

End RegExp.

(* ===================================================================== *)
(** ** src/lib/tools/safetyChecker.js *)
(* ===================================================================== *)

Import JsString.

Definition DESTRUCTIVE_KEYWORDS : list string :=
  [ "DROP"; "DELETE"; "UPDATE"; "INSERT"; "TRUNCATE"; "ALTER"; "CREATE";
    "GRANT"; "REVOKE"; "EXEC"; "EXECUTE" ].

(** The keywords listed inside the first dangerous pattern. *)
Definition STACKED_KEYWORDS : list string :=
  [ "DROP"; "DELETE"; "UPDATE"; "INSERT"; "TRUNCATE"; "ALTER"; "CREATE" ].

Definition stackedPattern : RegExp.t :=
  RegExp.mk ";\s*(DROP|DELETE|UPDATE|INSERT|TRUNCATE|ALTER|CREATE)" true
    (RegExp.Seq (RegExp.Chr ";")
       (RegExp.Seq RegExp.SpaceStar (RegExp.alts STACKED_KEYWORDS))).

Definition lineCommentPattern : RegExp.t :=
  RegExp.mk "--" false (RegExp.lits "--").

Definition blockCommentPattern : RegExp.t :=
  RegExp.mk "\/\*" false (RegExp.lits "/*").

Definition xpPattern : RegExp.t :=
  RegExp.mk "xp_" true (RegExp.lits "xp_").

Definition spPattern : RegExp.t :=
  RegExp.mk "sp_" true (RegExp.lits "sp_").

Definition DANGEROUS_PATTERNS : list RegExp.t :=
  [ stackedPattern; lineCommentPattern; blockCommentPattern;
    xpPattern; spPattern ].

(** [new RegExp(`\\b${keyword}\\b`, "i")], for a keyword made of letters. *)
Definition keywordRegExp (keyword : string) : RegExp.t :=
  RegExp.mk ("\b" ++ keyword ++ "\b") true
    (RegExp.Seq RegExp.WordB (RegExp.Seq (RegExp.lits keyword) RegExp.WordB)).

Record SafetyVerdict : Type := mkVerdict {
  safe : bool;
  issues : list string;
  warnings : list string
}.

(** [result.safe = false; result.issues.push(msg);] *)
Definition pushIssue (msg : string) (result : SafetyVerdict) : SafetyVerdict :=
  {| safe := false;
     issues := issues result ++ [msg];
     warnings := warnings result |}.

(** [result.warnings.push(msg);] *)
Definition pushWarning (msg : string) (result : SafetyVerdict)
  : SafetyVerdict :=
  {| safe := safe result;
     issues := issues result;
     warnings := warnings result ++ [msg] |}.

Definition keywordIssue (keyword : string) : string :=
  "Destructive keyword detected: " ++ keyword.

Definition patternIssue (pattern : RegExp.t) : string :=
  "Dangerous pattern detected: " ++ RegExp.toString pattern.

Definition selectIssue : string := "Query must be a SELECT statement".
Definition multipleIssue : string :=
  "Multiple statements detected (SQL injection risk)".
Definition middleIssue : string :=
  "Semicolon in middle of query (SQL injection risk)".
Definition starWarning : string :=
  "Using SELECT * - consider specifying columns".
Definition limitWarning : string :=
  "No LIMIT clause - query might return many rows".

Definition checkSelect (normalizedQuery : string) (result : SafetyVerdict)
  : SafetyVerdict :=
  if negb (startsWith normalizedQuery "SELECT")
  then pushIssue selectIssue result
  else result.

Definition checkKeywords (sqlQuery : string) (result : SafetyVerdict)
  : SafetyVerdict :=
  fold_left
    (fun result keyword =>
       if RegExp.test (keywordRegExp keyword) sqlQuery
       then pushIssue (keywordIssue keyword) result
       else result)
    DESTRUCTIVE_KEYWORDS result.

Definition checkPatterns (sqlQuery : string) (result : SafetyVerdict)
  : SafetyVerdict :=
  fold_left
    (fun result pattern =>
       if RegExp.test pattern sqlQuery
       then pushIssue (patternIssue pattern) result
       else result)
    DANGEROUS_PATTERNS result.

Definition checkSemicolons (sqlQuery : string) (result : SafetyVerdict)
  : SafetyVerdict :=
  let semicolonCount := countChar ";" sqlQuery in
  if (1 <? semicolonCount)%nat then pushIssue multipleIssue result
  else if (semicolonCount =? 1)%nat && negb (endsWith (trim sqlQuery) ";")
       then pushIssue middleIssue result
       else result.

Definition addWarnings (normalizedQuery : string) (result : SafetyVerdict)
  : SafetyVerdict :=
  let result :=
    if includes normalizedQuery "SELECT *"
    then pushWarning starWarning result else result in
  if negb (includes normalizedQuery "LIMIT")
     && negb (includes normalizedQuery "TOP")
  then pushWarning limitWarning result
  else result.

Definition checkQuerySafety (sqlQuery : string) : SafetyVerdict :=
  let result := {| safe := true; issues := []; warnings := [] |} in
  let normalizedQuery := toUpperCase (trim sqlQuery) in
  let result := checkSelect normalizedQuery result in
  let result := checkKeywords sqlQuery result in
  let result := checkPatterns sqlQuery result in
  let result := checkSemicolons sqlQuery result in
  let result := addWarnings normalizedQuery result in
  result.

(** Extract and clean SQL from an LLM response is not modelled: the
    orchestrator never calls [extractSQL]. *)

(* ===================================================================== *)
(** ** Data exchanged with the collaborators *)
(* ===================================================================== *)

(** One column descriptor of [extractSchema]; the schema object maps a
    table name to its columns, in insertion order. *)
Record Column : Type := mkColumn {
  col_column : string;
  col_type : string;
  col_nullable : bool;
  col_default : option string
}.

Definition Schema : Type := list (string * list Column).

(** A result row: column name and rendered value. *)
Definition Row : Type := list (string * string).

Record Field : Type := mkField {
  field_name : string;
  field_dataType : Z
}.

(** What [pool.query] gives back: a result object, or a thrown error with
    its [message], [code] and [detail]. *)
Inductive PgOutcome : Type :=
| PgRows (rows : list Row) (rowCount : Z) (fields : option (list Field))
| PgThrows (message : string) (code detail : option string).

(** The object [executeQuery] returns. *)
Inductive QueryResult : Type :=
| QueryOk (rows : list Row) (rowCount : Z) (executionTime : string)
          (fields : option (list Field))
| QueryFailed (error : string) (code detail : option string).

Module ExecData.
Record t : Type := mk {
  rows : list Row;
  rowCount : Z;
  executionTime : string;
  fields : option (list Field)
}.
End ExecData.

Module ExecError.
Record t : Type := mk {
  message : string;
  code : option string;
  detail : option string
}.
End ExecError.

(** The object [executionNode] returns. *)
Module NodeResult.
Record t : Type := mk {
  success : bool;
  data : option ExecData.t;
  error : option ExecError.t
}.
End NodeResult.

(** The object [safetyCheckNode] returns. *)
Module SafetyNode.
Record t : Type := mk {
  safe : bool;
  issues : list string;
  warnings : list string;
  query : string
}.
End SafetyNode.

(** The object [generateQuery] returns. *)
Inductive GenResult : Type :=
| GenOk (query rawResponse : string)
| GenFailed (error : string).

(** The object [summarizeResults] returns. *)
Inductive SummaryResult : Type :=
| SummaryOk (summary : string)
| SummaryFailed (error : string).

(** The entries pushed on the [trace] array, by their [step]. *)
Inductive TraceEntry : Type :=
| SchemaExtraction (success : bool)
| QueryGeneration (attempt : Z) (success : bool)
                  (query error : option string)
| SafetyCheck (attempt : Z) (safe : bool) (issues warnings : list string)
| Execution (success : bool) (rowCount : option Z)
            (executionTime : option string)
| Summarization (success : bool)
| ErrorStep (error : string).

(** The calls made to the collaborators, with what came back. *)
Inductive Call : Type :=
| CallExtractSchema
| CallGenerateQuery (question : string) (schema : Schema)
                    (previousAttempt feedback : option string)
                    (result : GenResult)
| CallExecutionNode (sqlQuery : string) (maxRows : Z)
| CallPoolQuery (sqlText : string)
| CallSummarizeResults (question : string) (queryResults : ExecData.t)
                       (sqlQuery : string).

(** The collaborators.  The language model need not answer the same prompt
    twice in the same way: [generateQuery] also receives the number of
    generation calls made before this one. *)
Record World : Type := mkWorld {
  extractSchema : string + Schema;       (* inl: the thrown error's message *)
  generateQuery :
    nat -> string -> Schema -> option string -> option string -> GenResult;
  poolQuery : string -> PgOutcome;
  elapsed : string -> Z;                 (* Date.now() - startTime *)
  summarizeResults : string -> ExecData.t -> string -> SummaryResult
}.

Inductive Details : Type :=
| DetailText (message : string)
| DetailError (e : ExecError.t).

Module ResultData.
Record t : Type := mk {
  rows : list Row;
  rowCount : Z;
  executionTime : string
}.
End ResultData.

Module Metadata.
Record t : Type := mk {
  attempts : Z;
  warnings : list string
}.
End Metadata.

(** The object [sqlQueryAgent] resolves to.  A key the object literal does
    not have, or whose value is [undefined], is [None]. *)
Module AgentResult.
Inductive data_t : Type :=
| Raw (d : ExecData.t)            (* [data: executionResult.data] *)
| Picked (d : ResultData.t).      (* [data: { rows, rowCount, ... }] *)

Record t : Type := mk {
  success : bool;
  error : option string;
  details : option Details;
  attempts : option Z;
  lastIssues : option (list string);
  query : option string;
  data : option data_t;
  answer : option string;
  metadata : option Metadata.t;
  trace : option (list TraceEntry)
}.
End AgentResult.

Record Options : Type := mkOptions {
  opt_maxRetries : option Z;
  opt_maxRows : option Z;
  opt_debug : option bool
}.

(** Default value of a destructured option. *)
Definition orDefault {A : Type} (o : option A) (d : A) : A :=
  match o with
  | Some a => a
  | None => d
  end.

(* ===================================================================== *)
(** ** The orchestrator's mutable state *)
(* ===================================================================== *)

(** The [trace] array and the log of collaborator calls.  [push] appends. *)
Module St.
Record t : Type := mk {
  trace : list TraceEntry;
  calls : list Call
}.

Definition init : t := {| trace := []; calls := [] |}.

Definition push (e : TraceEntry) (st : t) : t :=
  {| trace := trace st ++ [e]; calls := calls st |}.

Definition record (c : Call) (st : t) : t :=
  {| trace := trace st; calls := calls st ++ [c] |}.
End St.

(** The generation calls of a log. *)
Definition isGeneration (c : Call) : bool :=
  match c with
  | CallGenerateQuery _ _ _ _ _ => true
  | _ => false
  end.

Definition generationCalls (l : list Call) : list Call :=
  filter isGeneration l.

(** The SQL texts handed to [executionNode] in a log. *)
Fixpoint executedQueries (l : list Call) : list string :=
  match l with
  | [] => []
  | CallExecutionNode q _ :: l' => q :: executedQueries l'
  | _ :: l' => executedQueries l'
  end.

(** The SQL texts handed to [pool.query] in a log. *)
Fixpoint pooledQueries (l : list Call) : list string :=
  match l with
  | [] => []
  | CallPoolQuery q :: l' => q :: pooledQueries l'
  | _ :: l' => pooledQueries l'
  end.

(** What a [try] block ends with. *)
Inductive Completion (A : Type) : Type :=
| Return (a : A)
| Throw (message : string).
Arguments Return {A} a.
Arguments Throw {A} message.

(** [error.message] of the TypeError raised by reading a property of
    [null] (the text is the engine's). *)
Definition nullPropertyMessage (property : string) : string :=
  "Cannot read properties of null (reading '" ++ property ++ "')".

(* ===================================================================== *)
(** ** src/lib/tools/queryExecutor.js and src/lib/nodes/executionNodes.js *)
(* ===================================================================== *)

Section Nodes.

Variable w : World.

Definition executeQuery (sqlQuery : string) (st : St.t)
  : QueryResult * St.t :=
  let st := St.record (CallPoolQuery sqlQuery) st in
  match poolQuery w sqlQuery with
  | PgRows rows rowCount fields =>
      (QueryOk rows rowCount (ofInt (elapsed w sqlQuery) ++ "ms") fields,
       st)
  | PgThrows message code detail =>
      (QueryFailed message code detail, st)
  end.

(** The text [executeQuerySafe] hands to [executeQuery]. *)
Definition limitedQuery (sqlQuery : string) (maxRows : Z) : string :=
  let normalizedQuery := toUpperCase (trim sqlQuery) in
  let safeQuery := trim sqlQuery in
  if negb (includes normalizedQuery "LIMIT")
  then dropFinalSemicolon safeQuery ++ " LIMIT " ++ ofInt maxRows
  else safeQuery.

Definition executeQuerySafe (sqlQuery : string) (maxRows : Z) (st : St.t)
  : QueryResult * St.t :=
  executeQuery (limitedQuery sqlQuery maxRows) st.

Definition safetyCheckNode (sqlQuery : string) : SafetyNode.t :=
  let safetyResult := checkQuerySafety sqlQuery in
  {| SafetyNode.safe := safe safetyResult;
     SafetyNode.issues := issues safetyResult;
     SafetyNode.warnings := warnings safetyResult;
     SafetyNode.query := sqlQuery |}.

Definition executionNode (sqlQuery : string) (maxRows : Z) (st : St.t)
  : NodeResult.t * St.t :=
  let st := St.record (CallExecutionNode sqlQuery maxRows) st in
  let (result, st) := executeQuerySafe sqlQuery maxRows st in
  match result with
  | QueryOk rows rowCount executionTime fields =>
      ({| NodeResult.success := true;
          NodeResult.data :=
            Some {| ExecData.rows := rows;
                    ExecData.rowCount := rowCount;
                    ExecData.executionTime := executionTime;
                    ExecData.fields := fields |};
          NodeResult.error := None |}, st)
  | QueryFailed error code detail =>
      ({| NodeResult.success := false;
          NodeResult.data := None;
          NodeResult.error :=
            Some {| ExecError.message := error;
                    ExecError.code := code;
                    ExecError.detail := detail |} |}, st)
  end.

End Nodes.

(* ===================================================================== *)
(** ** src/lib/agent.js *)
(* ===================================================================== *)

(** The variables the refinement loop assigns. *)
Record Vars : Type := mkVars {
  attempt : Z;
  previousQuery : option string;
  safetyFeedback : option string;
  safeQuery : option string;
  safetyResult : option SafetyNode.t
}.

(** How one pass through the loop body ends. *)
Inductive LoopStep : Type :=
| Continue (v : Vars)
| Break (v : Vars)
| ReturnFrom (r : AgentResult.t).

(** How the [while] loop is left: by its condition or [break], or by a
    [return] of the enclosing function. *)
Inductive LoopExit : Type :=
| LoopEnd (v : Vars)
| LoopReturn (r : AgentResult.t).

Definition generationError : string := "Failed to generate SQL query".
Definition exhaustedError : string :=
  "Could not generate a safe query after multiple attempts".
Definition executionError : string := "Query execution failed".
Definition summaryError : string := "Failed to generate summary".
Definition unexpectedError : string := "Unexpected error in agent execution".

Section Agent.

Variable w : World.
Variable question : string.
Variable maxRetries maxRows : Z.
Variable debug : bool.

(** One pass through the body of the [while] loop. *)
Definition loopBody (schema : Schema) (v : Vars) (st : St.t)
  : LoopStep * St.t :=
  let attempt := (attempt v + 1)%Z in
  let queryGenResult :=
    generateQuery w (length (generationCalls (St.calls st)))
      question schema (previousQuery v) (safetyFeedback v) in
  let st :=
    St.record
      (CallGenerateQuery question schema (previousQuery v)
         (safetyFeedback v) queryGenResult) st in
  match queryGenResult with
  | GenFailed error =>
      let st :=
        St.push (QueryGeneration attempt false None (Some error)) st in
      (ReturnFrom
         {| AgentResult.success := false;
            AgentResult.error := Some generationError;
            AgentResult.details := Some (DetailText error);
            AgentResult.attempts := None;
            AgentResult.lastIssues := None;
            AgentResult.query := None;
            AgentResult.data := None;
            AgentResult.answer := None;
            AgentResult.metadata := None;
            AgentResult.trace := Some (St.trace st) |}, st)
  | GenOk generatedQuery _ =>
      let st :=
        St.push (QueryGeneration attempt true (Some generatedQuery) None)
          st in
      let safetyResult := safetyCheckNode generatedQuery in
      let st :=
        St.push
          (SafetyCheck attempt (SafetyNode.safe safetyResult)
             (SafetyNode.issues safetyResult)
             (SafetyNode.warnings safetyResult)) st in
      if SafetyNode.safe safetyResult then
        (Break
           {| attempt := attempt;
              previousQuery := previousQuery v;
              safetyFeedback := safetyFeedback v;
              safeQuery := Some generatedQuery;
              safetyResult := Some safetyResult |}, st)
      else
        (Continue
           {| attempt := attempt;
              previousQuery := Some generatedQuery;
              safetyFeedback :=
                Some (join "; " (SafetyNode.issues safetyResult));
              safeQuery := safeQuery v;
              safetyResult := Some safetyResult |}, st)
  end.

(** The [while (attempt < maxRetries)] loop.  [fuel] bounds the number of
    iterations; [None] means it ran out. *)
Fixpoint refinementLoop (fuel : nat) (schema : Schema) (v : Vars)
         (st : St.t) : option (LoopExit * St.t) :=
  if (attempt v <? maxRetries)%Z then
    match fuel with
    | O => None
    | S fuel' =>
        match loopBody schema v st with
        | (Continue v', st') => refinementLoop fuel' schema v' st'
        | (Break v', st') => Some (LoopEnd v', st')
        | (ReturnFrom r, st') => Some (LoopReturn r, st')
        end
    end
  else Some (LoopEnd v, st).

(** Steps 5 and 6, once a safe query is in hand. *)
Definition executeAndSummarize (safeQuery : string)
           (safetyResult : option SafetyNode.t) (attempt : Z) (st : St.t)
  : Completion AgentResult.t * St.t :=
  let (executionResult, st) := executionNode w safeQuery maxRows st in
  let st :=
    St.push
      (Execution (NodeResult.success executionResult)
         (option_map ExecData.rowCount (NodeResult.data executionResult))
         (option_map ExecData.executionTime
            (NodeResult.data executionResult))) st in
  if negb (NodeResult.success executionResult) then
    (Return
       {| AgentResult.success := false;
          AgentResult.error := Some executionError;
          AgentResult.details :=
            option_map DetailError (NodeResult.error executionResult);
          AgentResult.attempts := None;
          AgentResult.lastIssues := None;
          AgentResult.query := Some safeQuery;
          AgentResult.data := None;
          AgentResult.answer := None;
          AgentResult.metadata := None;
          AgentResult.trace := Some (St.trace st) |}, st)
  else
    match NodeResult.data executionResult with
    | None =>
        (* [executionResult.data.rowCount] under [debug], else
           [queryResults.rows] in [summarizeResults], on [null] *)
        (Throw (nullPropertyMessage (if debug then "rowCount" else "rows")),
         st)
    | Some data =>
        let summaryResult :=
          summarizeResults w question data safeQuery in
        let st :=
          St.record (CallSummarizeResults question data safeQuery) st in
        match summaryResult with
        | SummaryFailed error =>
            let st := St.push (Summarization false) st in
            (Return
               {| AgentResult.success := false;
                  AgentResult.error := Some summaryError;
                  AgentResult.details := Some (DetailText error);
                  AgentResult.attempts := None;
                  AgentResult.lastIssues := None;
                  AgentResult.query := Some safeQuery;
                  AgentResult.data := Some (AgentResult.Raw data);
                  AgentResult.answer := None;
                  AgentResult.metadata := None;
                  AgentResult.trace := Some (St.trace st) |}, st)
        | SummaryOk summary =>
            let st := St.push (Summarization true) st in
            match safetyResult with
            | None => (Throw (nullPropertyMessage "warnings"), st)
            | Some safetyResult =>
                (Return
                   {| AgentResult.success := true;
                      AgentResult.error := None;
                      AgentResult.details := None;
                      AgentResult.attempts := None;
                      AgentResult.lastIssues := None;
                      AgentResult.query := Some safeQuery;
                      AgentResult.data :=
                        Some (AgentResult.Picked
                                {| ResultData.rows := ExecData.rows data;
                                   ResultData.rowCount :=
                                     ExecData.rowCount data;
                                   ResultData.executionTime :=
                                     ExecData.executionTime data |});
                      AgentResult.answer := Some summary;
                      AgentResult.metadata :=
                        Some {| Metadata.attempts := attempt;
                                Metadata.warnings :=
                                  SafetyNode.warnings safetyResult |};
                      AgentResult.trace :=
                        if debug then Some (St.trace st) else None |},
                 st)
            end
        end
    end.

(** The [if (!safeQuery)] block: [null] and the empty string are falsy.
    Reading [safetyResult.issues] throws when [safetyResult] is still
    [null]. *)
Definition noSafeQuery (v : Vars) (st : St.t)
  : Completion AgentResult.t * St.t :=
  match safetyResult v with
  | None => (Throw (nullPropertyMessage "issues"), st)
  | Some safetyResult =>
      (Return
         {| AgentResult.success := false;
            AgentResult.error := Some exhaustedError;
            AgentResult.details := None;
            AgentResult.attempts := Some (attempt v);
            AgentResult.lastIssues := Some (SafetyNode.issues safetyResult);
            AgentResult.query := None;
            AgentResult.data := None;
            AgentResult.answer := None;
            AgentResult.metadata := None;
            AgentResult.trace := Some (St.trace st) |}, st)
  end.

(** What follows the loop inside the [try] block. *)
Definition afterLoop (ex : LoopExit) (st : St.t)
  : Completion AgentResult.t * St.t :=
  match ex with
  | LoopReturn r => (Return r, st)
  | LoopEnd v =>
      match safeQuery v with
      | Some (String c q) =>
          executeAndSummarize (String c q) (safetyResult v) (attempt v) st
      | _ => noSafeQuery v st
      end
  end.

(** The variables as declared before the loop. *)
Definition initialVars : Vars :=
  {| attempt := 0; previousQuery := None; safetyFeedback := None;
     safeQuery := None; safetyResult := None |}.

(** The body of the [try] block. *)
Definition tryBlock (fuel : nat) (st : St.t)
  : option (Completion AgentResult.t * St.t) :=
  let st := St.record CallExtractSchema st in
  match extractSchema w with
  | inl message => Some (Throw message, st)
  | inr schema =>
      let st := St.push (SchemaExtraction true) st in
      match refinementLoop fuel schema initialVars st with
      | None => None
      | Some (ex, st) => Some (afterLoop ex st)
      end
  end.

(** The [catch (error)] block. *)
Definition catchBlock (message : string) (st : St.t)
  : AgentResult.t * St.t :=
  let st := St.push (ErrorStep message) st in
  ({| AgentResult.success := false;
      AgentResult.error := Some unexpectedError;
      AgentResult.details := Some (DetailText message);
      AgentResult.attempts := None;
      AgentResult.lastIssues := None;
      AgentResult.query := None;
      AgentResult.data := None;
      AgentResult.answer := None;
      AgentResult.metadata := None;
      AgentResult.trace := Some (St.trace st) |}, st).

(** [try { ... } catch (error) { ... }] *)
Definition complete (c : Completion AgentResult.t * St.t)
  : AgentResult.t * St.t :=
  match c with
  | (Return r, st) => (r, st)
  | (Throw message, st) => catchBlock message st
  end.

Definition runAgent (fuel : nat) : option (AgentResult.t * St.t) :=
  option_map complete (tryBlock fuel St.init).

End Agent.

(** [sqlQueryAgent(question, options)].  The result is paired with the
    final state: the trace and the log of collaborator calls.  The
    [console.log] lines under [debug] are not modelled.  [maxRetries]
    iterations are enough fuel for the loop, see [sqlQueryAgent_returns]. *)
Definition sqlQueryAgent (w : World) (question : string) (options : Options)
  : option (AgentResult.t * St.t) :=
  let maxRetries := orDefault (opt_maxRetries options) 3%Z in
  let maxRows := orDefault (opt_maxRows options) 100%Z in
  let debug := orDefault (opt_debug options) false in
  runAgent w question maxRetries maxRows debug (Z.to_nat maxRetries).

(* ===================================================================== *)
(** ** The words of the specification *)
(* ===================================================================== *)

(** The character before a position that lies [pre] after a position
    whose previous character is [prev]. *)
Fixpoint lastOf (prev : option ascii) (pre : string) : option ascii :=
  match pre with
  | EmptyString => prev
  | String c pre' => lastOf (Some c) pre'
  end.

Fixpoint allWhite (ws : string) : bool :=
  match ws with
  | EmptyString => true
  | String c ws' => isWhiteSpace c && allWhite ws'
  end.

Fixpoint allWordChars (p : string) : bool :=
  match p with
  | EmptyString => true
  | String c p' => isWordChar c && allWordChars p'
  end.

(** [mid] is the literal text [p], up to letter case when [ic] is set. *)
Fixpoint sameText (ic : bool) (p mid : string) : bool :=
  match p, mid with
  | EmptyString, EmptyString => true
  | String a p', String b mid' => RegExp.chEq ic a b && sameText ic p' mid'
  | _, _ => false
  end.

(** [p] occurs in [s], letter case aside. *)
Definition occursAnyCase (p s : string) : Prop :=
  exists pre mid post,
    s = pre ++ mid ++ post /\ toUpperCase mid = toUpperCase p.

(** [p] occurs in [s] as written. *)
Definition occurs (p s : string) : Prop :=
  exists pre post, s = pre ++ p ++ post.

(** A whole-word, case-insensitive occurrence of [keyword] in [s]: no word
    character right before it and none right after it. *)
Definition wholeWordOccurrence (keyword s : string) : Prop :=
  exists pre mid post,
    s = pre ++ mid ++ post /\
    toUpperCase mid = toUpperCase keyword /\
    RegExp.isWord (lastOf None pre) = false /\
    RegExp.isWord (RegExp.next post) = false.

(** A semicolon, then any white space, then [keyword] in any letter
    case. *)
Definition semicolonThen (keyword s : string) : Prop :=
  exists pre ws mid post,
    s = pre ++ ";" ++ ws ++ mid ++ post /\
    allWhite ws = true /\
    toUpperCase mid = toUpperCase keyword.

(** The row-limiting clause as the validator's advisory understands it
    (safetyChecker.js, the no-limit warning): the upper-cased trimmed text
    contains LIMIT or TOP. *)
Definition hasRowLimitingClause (sqlQuery : string) : bool :=
  let normalizedQuery := toUpperCase (trim sqlQuery) in
  includes normalizedQuery "LIMIT" || includes normalizedQuery "TOP".

(** The feedback discipline of the refinement loop, read off a list of
    generation calls: the first receives [previousAttempt] and [feedback];
    a call is followed by another one only when it produced a query the
    validator rejected, and the next call then receives that query and the
    joined issues of its verdict. *)
Fixpoint feedbackChain (previousAttempt feedback : option string)
         (l : list Call) : Prop :=
  match l with
  | [] => True
  | CallGenerateQuery _ _ p f result :: l' =>
      p = previousAttempt /\ f = feedback /\
      match l' with
      | [] => True
      | _ :: _ =>
          exists query rawResponse,
            result = GenOk query rawResponse /\
            safe (checkQuerySafety query) = false /\
            feedbackChain (Some query)
              (Some (join "; " (issues (checkQuerySafety query)))) l'
      end
  | _ :: _ => False
  end.

(** A generation call that produced a rejected query, and the calls that
    follow it. *)
Definition rejectedThen (result : GenResult) (rest : list Call) : Prop :=
  exists query raw,
    result = GenOk query raw /\
    safe (checkQuerySafety query) = false /\
    feedbackChain (Some query)
      (Some (join "; " (issues (checkQuerySafety query)))) rest.

(** A world for the examples: one table; the model first proposes a
    DELETE, then a stacked DROP, then a plain SELECT; the database answers
    one row in 12 ms. *)
Definition demoSchema : Schema :=
  [("users", [mkColumn "id" "integer" false None;
              mkColumn "name" "text" true None])].

Definition demoWorld : World :=
  {| extractSchema := inr demoSchema;
     generateQuery := fun i _ _ _ _ =>
       match i with
       | 0 => GenOk "DELETE FROM users" "DELETE FROM users;"
       | 1 => GenOk "SELECT 1; DROP TABLE users" "SELECT 1; DROP TABLE users"
       | _ => GenOk "SELECT * FROM users" "SELECT * FROM users"
       end;
     poolQuery := fun _ => PgRows [[("id", "1"); ("name", "Siham")]] 1 None;
     elapsed := fun _ => 12%Z;
     summarizeResults := fun _ _ _ => SummaryOk "There is one user." |}.

(** The same world with a model that is out of reach. *)
Definition offlineWorld : World :=
  {| extractSchema := inr demoSchema;
     generateQuery := fun _ _ _ _ _ => GenFailed "fetch failed";
     poolQuery := poolQuery demoWorld;
     elapsed := elapsed demoWorld;
     summarizeResults := summarizeResults demoWorld |}.

(** The loop left with an accepted query: the variables hold it with its
    verdict, the validator finds it safe, and the trace has the generation
    entry and the safety entry of that attempt. *)
Definition accepted (v : Vars) (st : St.t) : Prop :=
  exists query,
    safeQuery v = Some query /\
    safetyResult v = Some (safetyCheckNode query) /\
    safe (checkQuerySafety query) = true /\
    In (QueryGeneration (attempt v) true (Some query) None) (St.trace st) /\
    In (SafetyCheck (attempt v) true (issues (checkQuerySafety query))
          (warnings (checkQuerySafety query))) (St.trace st).

(** The issues each of the two one-off checks contributes. *)
(** The issue of the statement-type check. *)
Definition selectPart (s : string) : list string :=
  if negb (startsWith (toUpperCase (trim s)) "SELECT")
  then [selectIssue] else [].

(** The issues of the semicolon-structure check. *)
Definition semicolonPart (s : string) : list string :=
  if (1 <? countChar ";" s)%nat then [multipleIssue]
  else if (countChar ";" s =? 1)%nat && negb (endsWith (trim s) ";")
       then [middleIssue] else [].

(* ===================================================================== *)
(** ** The objects [sqlQueryAgent] returns, one per [return] statement *)
(* ===================================================================== *)

(** agent.js, the [return] inside the loop. *)
Definition generationFailure (error : string) (trace : list TraceEntry)
  : AgentResult.t :=
  {| AgentResult.success := false;
     AgentResult.error := Some generationError;
     AgentResult.details := Some (DetailText error);
     AgentResult.attempts := None;
     AgentResult.lastIssues := None;
     AgentResult.query := None;
     AgentResult.data := None;
     AgentResult.answer := None;
     AgentResult.metadata := None;
     AgentResult.trace := Some trace |}.

(** agent.js, the [return] under [if (!safeQuery)]. *)
Definition exhaustedFailure (attempts : Z) (lastIssues : list string)
           (trace : list TraceEntry) : AgentResult.t :=
  {| AgentResult.success := false;
     AgentResult.error := Some exhaustedError;
     AgentResult.details := None;
     AgentResult.attempts := Some attempts;
     AgentResult.lastIssues := Some lastIssues;
     AgentResult.query := None;
     AgentResult.data := None;
     AgentResult.answer := None;
     AgentResult.metadata := None;
     AgentResult.trace := Some trace |}.

(** agent.js, the [return] under [if (!executionResult.success)]. *)
Definition executionFailure (e : ExecError.t) (query : string)
           (trace : list TraceEntry) : AgentResult.t :=
  {| AgentResult.success := false;
     AgentResult.error := Some executionError;
     AgentResult.details := Some (DetailError e);
     AgentResult.attempts := None;
     AgentResult.lastIssues := None;
     AgentResult.query := Some query;
     AgentResult.data := None;
     AgentResult.answer := None;
     AgentResult.metadata := None;
     AgentResult.trace := Some trace |}.

(** agent.js, the [return] under [if (!summaryResult.success)]. *)
Definition summaryFailure (error query : string) (data : ExecData.t)
           (trace : list TraceEntry) : AgentResult.t :=
  {| AgentResult.success := false;
     AgentResult.error := Some summaryError;
     AgentResult.details := Some (DetailText error);
     AgentResult.attempts := None;
     AgentResult.lastIssues := None;
     AgentResult.query := Some query;
     AgentResult.data := Some (AgentResult.Raw data);
     AgentResult.answer := None;
     AgentResult.metadata := None;
     AgentResult.trace := Some trace |}.

(** agent.js, the final [return]. *)
Definition successResult (answer query : string) (data : ExecData.t)
           (attempts : Z) (warnings : list string)
           (trace : option (list TraceEntry)) : AgentResult.t :=
  {| AgentResult.success := true;
     AgentResult.error := None;
     AgentResult.details := None;
     AgentResult.attempts := None;
     AgentResult.lastIssues := None;
     AgentResult.query := Some query;
     AgentResult.data :=
       Some (AgentResult.Picked
               {| ResultData.rows := ExecData.rows data;
                  ResultData.rowCount := ExecData.rowCount data;
                  ResultData.executionTime := ExecData.executionTime data |});
     AgentResult.answer := Some answer;
     AgentResult.metadata :=
       Some {| Metadata.attempts := attempts;
               Metadata.warnings := warnings |};
     AgentResult.trace := trace |}.

(** The data [executionNode] builds from the rows the database returned
    for [sqlText]. *)
Definition execData (w : World) (sqlText : string) (rows : list Row)
           (rowCount : Z) (fields : option (list Field)) : ExecData.t :=
  {| ExecData.rows := rows;
     ExecData.rowCount := rowCount;
     ExecData.executionTime := ofInt (elapsed w sqlText) ++ "ms";
     ExecData.fields := fields |}.

(** A generation call that was answered with a query the validator
    rejects. *)
Definition rejectedCall (question : string) (schema : Schema) (c : Call)
  : Prop :=
  exists previousAttempt feedback query raw,
    c = CallGenerateQuery question schema previousAttempt feedback
          (GenOk query raw)
    /\ safe (checkQuerySafety query) = false.

(** The seven ways a run of [sqlQueryAgent] can end, with the calls it
    made to its collaborators. *)
Inductive RunOutcome (w : World) (question : string)
          (maxRetries maxRows : Z) (debug : bool)
          (r : AgentResult.t) (st : St.t) : Prop :=
| RunSchemaThrew (message : string)
    (Hschema : extractSchema w = inl message)
    (Hrun : (r, st) = catchBlock message (St.record CallExtractSchema St.init))
| RunNoBudget (schema : Schema)
    (Hschema : extractSchema w = inr schema)
    (Hbudget : (maxRetries <= 0)%Z)
    (Hrun : (r, st)
            = catchBlock (nullPropertyMessage "issues")
                (St.push (SchemaExtraction true)
                   (St.record CallExtractSchema St.init)))
| RunGenerationFailed (schema : Schema) (gens : list Call)
    (p f : option string) (error : string)
    (Hschema : extractSchema w = inr schema)
    (Hgens : Forall (rejectedCall question schema) gens)
    (Hlen : (List.length gens < Z.to_nat maxRetries)%nat)
    (Hcalls : St.calls st
              = CallExtractSchema
                :: gens
                ++ [CallGenerateQuery question schema p f (GenFailed error)])
    (Hr : r = generationFailure error (St.trace st))
| RunBudgetSpent (schema : Schema) (gens : list Call)
    (p f : option string) (query raw : string)
    (Hschema : extractSchema w = inr schema)
    (Hgens : Forall (rejectedCall question schema) gens)
    (Hlen : Z.of_nat (S (List.length gens)) = maxRetries)
    (Hunsafe : safe (checkQuerySafety query) = false)
    (Hcalls : St.calls st
              = CallExtractSchema
                :: gens
                ++ [CallGenerateQuery question schema p f (GenOk query raw)])
    (Hr : r = exhaustedFailure maxRetries (issues (checkQuerySafety query))
                (St.trace st))
| RunExecutionFailed (schema : Schema) (gens : list Call)
    (p f : option string) (query raw : string)
    (message : string) (code detail : option string)
    (Hschema : extractSchema w = inr schema)
    (Hgens : Forall (rejectedCall question schema) gens)
    (Hlen : (List.length gens < Z.to_nat maxRetries)%nat)
    (Hsafe : safe (checkQuerySafety query) = true)
    (Hpool : poolQuery w (limitedQuery query maxRows)
             = PgThrows message code detail)
    (Hcalls : St.calls st
              = CallExtractSchema
                :: gens
                ++ [CallGenerateQuery question schema p f (GenOk query raw);
                    CallExecutionNode query maxRows;
                    CallPoolQuery (limitedQuery query maxRows)])
    (Hr : r = executionFailure
                {| ExecError.message := message;
                   ExecError.code := code;
                   ExecError.detail := detail |} query (St.trace st))
| RunSummaryFailed (schema : Schema) (gens : list Call)
    (p f : option string) (query raw : string)
    (rows : list Row) (rowCount : Z) (fields : option (list Field))
    (error : string)
    (Hschema : extractSchema w = inr schema)
    (Hgens : Forall (rejectedCall question schema) gens)
    (Hlen : (List.length gens < Z.to_nat maxRetries)%nat)
    (Hsafe : safe (checkQuerySafety query) = true)
    (Hpool : poolQuery w (limitedQuery query maxRows)
             = PgRows rows rowCount fields)
    (Hsummary :
       summarizeResults w question
         (execData w (limitedQuery query maxRows) rows rowCount fields) query
       = SummaryFailed error)
    (Hcalls : St.calls st
              = CallExtractSchema
                :: gens
                ++ [CallGenerateQuery question schema p f (GenOk query raw);
                    CallExecutionNode query maxRows;
                    CallPoolQuery (limitedQuery query maxRows);
                    CallSummarizeResults question
                      (execData w (limitedQuery query maxRows) rows rowCount
                         fields) query])
    (Hr : r = summaryFailure error query
                (execData w (limitedQuery query maxRows) rows rowCount fields)
                (St.trace st))
| RunSucceeded (schema : Schema) (gens : list Call)
    (p f : option string) (query raw : string)
    (rows : list Row) (rowCount : Z) (fields : option (list Field))
    (summary : string)
    (Hschema : extractSchema w = inr schema)
    (Hgens : Forall (rejectedCall question schema) gens)
    (Hlen : (List.length gens < Z.to_nat maxRetries)%nat)
    (Hsafe : safe (checkQuerySafety query) = true)
    (Hpool : poolQuery w (limitedQuery query maxRows)
             = PgRows rows rowCount fields)
    (Hsummary :
       summarizeResults w question
         (execData w (limitedQuery query maxRows) rows rowCount fields) query
       = SummaryOk summary)
    (Hcalls : St.calls st
              = CallExtractSchema
                :: gens
                ++ [CallGenerateQuery question schema p f (GenOk query raw);
                    CallExecutionNode query maxRows;
                    CallPoolQuery (limitedQuery query maxRows);
                    CallSummarizeResults question
                      (execData w (limitedQuery query maxRows) rows rowCount
                         fields) query])
    (Hr : r = successResult summary query
                (execData w (limitedQuery query maxRows) rows rowCount fields)
                (Z.of_nat (S (List.length gens)))
                (warnings (checkQuerySafety query))
                (if debug then Some (St.trace st) else None)).

(* ===================================================================== *)
(** ** The validator: auxiliary notions *)
(* ===================================================================== *)

(** [l1] is [l2] with some elements left out, the order kept. *)
Inductive subsequence {A : Type} : list A -> list A -> Prop :=
| subsequence_nil : subsequence [] []
| subsequence_skip (x : A) (l1 l2 : list A) :
    subsequence l1 l2 -> subsequence l1 (x :: l2)
| subsequence_keep (x : A) (l1 l2 : list A) :
    subsequence l1 l2 -> subsequence (x :: l1) (x :: l2).

(** Every issue text [checkQuerySafety] can produce, in the order of its
    rules. *)
Definition ALL_ISSUES : list string :=
  [selectIssue]
  ++ map keywordIssue DESTRUCTIVE_KEYWORDS
  ++ map patternIssue DANGEROUS_PATTERNS
  ++ [multipleIssue; middleIssue].

(* ===================================================================== *)
(** ** Cleaning the model's answer: [extractSQL] and [cleanSQL] *)
(* ===================================================================== *)

Definition newline : ascii := ascii_of_nat 10.

Definition isTick (c : ascii) : bool := Ascii.eqb c "`".

(** What is left of [rest] after the optional line feed of [\n?]. *)
Definition afterOptionalNewline (rest : string) : string :=
  match rest with
  | String g rest' => if Ascii.eqb g newline then rest' else rest
  | EmptyString => EmptyString
  end.

(** [s.replace(/```\n?/g, "")]: every fence found from left to right, with
    the line feed that may follow it, is removed. *)
Fixpoint stripFence (s : string) : string :=
  match s with
  | EmptyString => EmptyString
  | String a s1 =>
      match s1 with
      | String b (String c rest) =>
          if isTick a && isTick b && isTick c then
            match rest with
            | String g rest' =>
                if Ascii.eqb g newline then stripFence rest'
                else stripFence rest
            | EmptyString => EmptyString
            end
          else String a (stripFence s1)
      | _ => String a (stripFence s1)
      end
  end.

(** [s.replace(/```sql\n?/gi, "")] *)
Fixpoint stripSqlFence (s : string) : string :=
  match s with
  | EmptyString => EmptyString
  | String a s1 =>
      match s1 with
      | String b (String c (String d (String e (String f rest)))) =>
          if isTick a && isTick b && isTick c
             && RegExp.chEq true "s" d && RegExp.chEq true "q" e
             && RegExp.chEq true "l" f
          then
            match rest with
            | String g rest' =>
                if Ascii.eqb g newline then stripSqlFence rest'
                else stripSqlFence rest
            | EmptyString => EmptyString
            end
          else String a (stripSqlFence s1)
      | _ => String a (stripSqlFence s1)
      end
  end.

(** safetyChecker.js, [extractSQL]. *)
Definition extractSQL (text : string) : string :=
  let sql := trim text in
  let sql := stripSqlFence sql in
  let sql := stripFence sql in
  let sql := trim sql in
  sql.

(** llmNodes.js, [cleanSQL]. *)
Definition cleanSQL (text : string) : string :=
  let sql := trim text in
  let sql := stripSqlFence sql in
  let sql := stripFence sql in
  let sql := dropFinalSemicolon sql in
  let sql := trim sql in
  sql.

(** The number of backticks a text begins with. *)
Fixpoint leadTicks (s : string) : nat :=
  match s with
  | EmptyString => 0
  | String c s' => if isTick c then S (leadTicks s') else 0
  end.

(* ===================================================================== *)
(** ** src/lib/nodes/llmNodes.js *)
(* ===================================================================== *)

(** What [model.generateContent(prompt)] gives: a response, taken by its
    text, or a thrown error with its message. *)
Inductive LlmReply : Type :=
| LlmText (text : string)
| LlmThrows (message : string).

(** [safeGenerate(model, prompt, retries)]: the call is repeated after a
    failure while [retries > 0].  [model i] is the model's reaction to its
    call number [i]; [i] calls were made before.  The result comes with
    the number of calls made so far.  [retries] is a natural number (the
    source's default is 2); the pause between two calls is not
    modelled. *)
Fixpoint safeGenerate (model : nat -> string -> LlmReply) (i : nat)
         (prompt : string) (retries : nat) : LlmReply * nat :=
  match model i prompt with
  | LlmText text => (LlmText text, S i)
  | LlmThrows message =>
      match retries with
      | O => (LlmThrows message, S i)
      | S retries' => safeGenerate model (S i) prompt retries'
      end
  end.

Definition nl : string := String newline EmptyString.

(** JavaScript truthiness of a value that is [null] or a string. *)
Definition truthy (v : option string) : bool :=
  match v with
  | None => false
  | Some EmptyString => false
  | Some (String _ _) => true
  end.

(** The texts of a list, one after the other ([formatted += ...] in a
    loop). *)
Definition concatAll (l : list string) : string :=
  fold_right append EmptyString l.

(** One line of [formatSchemaForPrompt], for one column. *)
Definition columnLine (col : Column) : string :=
  "  - " ++ col_column col ++ " (" ++ col_type col ++ ")"
  ++ (if col_nullable col then " NULL" else " NOT NULL")
  ++ (if truthy (col_default col)
      then " DEFAULT " ++ orDefault (col_default col) ""
      else "")
  ++ nl.

(** The lines of [formatSchemaForPrompt] for one table. *)
Definition tableBlock (entry : string * list Column) : string :=
  "Table: " ++ fst entry ++ nl
  ++ "Columns:" ++ nl
  ++ concatAll (map columnLine (snd entry))
  ++ nl.

(** [formatSchemaForPrompt(schema)].  The tables come in the order of the
    schema object's entries, here the order of the list. *)
Definition formatSchemaForPrompt (schema : Schema) : string :=
  "Database Schema:" ++ nl ++ nl
  ++ concatAll (map tableBlock schema).

(** The prompt of [generateQuery] before any correction context. *)
Definition basePrompt (question : string) (schema : Schema) : string :=
  "You are a PostgreSQL SQL expert. Generate a SQL query based on the user's question."
  ++ nl ++ nl
  ++ formatSchemaForPrompt schema ++ nl ++ nl
  ++ "Rules:" ++ nl
  ++ "- Generate ONLY SELECT queries (no INSERT, UPDATE, DELETE, DROP, etc.)"
  ++ nl
  ++ "- Use proper PostgreSQL syntax" ++ nl
  ++ "- Include appropriate WHERE clauses, JOINs, and aggregations as needed"
  ++ nl
  ++ "- Return ONLY the SQL query without explanation or markdown formatting"
  ++ nl
  ++ "- Do not include semicolons at the end" ++ nl
  ++ "- Use table and column names exactly as shown in the schema" ++ nl
  ++ nl
  ++ "User Question: " ++ question ++ nl.

(** The text appended under [if (previousAttempt && feedback)]. *)
Definition correctionContext (previousAttempt feedback : string) : string :=
  nl ++ "Previous attempt failed safety check:" ++ nl
  ++ previousAttempt ++ nl ++ nl
  ++ "Feedback: " ++ feedback ++ nl ++ nl
  ++ "Generate a corrected query.".

(** The prompt [generateQuery] sends. *)
Definition generationPrompt (question : string) (schema : Schema)
           (previousAttempt feedback : option string) : string :=
  let prompt := basePrompt question schema in
  if truthy previousAttempt && truthy feedback
  then prompt
       ++ correctionContext (orDefault previousAttempt "")
            (orDefault feedback "")
  else prompt.

(** llmNodes.js, [generateQuery], over the reaction [llm] of the model to
    the prompt. *)
Definition generateQueryNode (llm : string -> LlmReply) (question : string)
           (schema : Schema) (previousAttempt feedback : option string)
  : GenResult :=
  match llm (generationPrompt question schema previousAttempt feedback) with
  | LlmText text =>
      let sqlQuery := trim text in
      GenOk (cleanSQL sqlQuery) sqlQuery
  | LlmThrows message => GenFailed message
  end.

(** The collaborators of [base], with [generateQuery] run over a model
    whose reaction to its call number [i] is [llm i]. *)
Definition llmWorld (llm : nat -> string -> LlmReply) (base : World)
  : World :=
  {| extractSchema := extractSchema base;
     generateQuery := fun i question schema previousAttempt feedback =>
       generateQueryNode (llm i) question schema previousAttempt feedback;
     poolQuery := poolQuery base;
     elapsed := elapsed base;
     summarizeResults := summarizeResults base |}.

(** The generation calls of a log are the calls of one question over one
    schema, each answered by the model in its turn: call number [i]
    carries what [generateQuery] gave the [i]-th time it was asked. *)
Definition answeredInTurn (w : World) (question : string) (schema : Schema)
           (calls : list Call) : Prop :=
  forall i c,
    nth_error calls i = Some c ->
    exists p f,
      c = CallGenerateQuery question schema p f
            (generateQuery w i question schema p f).

(** A model whose first answer is an empty code block, and which then
    answers with a plain query. *)
Definition emptyFirstModel (i : nat) (prompt : string) : LlmReply :=
  match i with
  | 0 => LlmText ("```sql" ++ nl ++ "```")
  | _ => LlmText "SELECT 1"
  end.

(* ===================================================================== *)
(** ** src/lib/tools/schemaExtractor.js *)
(* ===================================================================== *)

(** A row of the query on [information_schema.columns]. *)
Record SchemaRow : Type := mkSchemaRow {
  table_name : string;
  column_name : string;
  data_type : string;
  is_nullable : string;
  column_default : option string
}.

(** The properties the object literal [{}] inherits from
    [Object.prototype].  Each is a function or, for [__proto__], the
    prototype itself: a truthy value that has no [push]. *)
Definition objectPrototypeKeys : list string :=
  [ "constructor"; "__defineGetter__"; "__defineSetter__"; "hasOwnProperty";
    "__lookupGetter__"; "__lookupSetter__"; "isPrototypeOf";
    "propertyIsEnumerable"; "toString"; "valueOf"; "__proto__";
    "toLocaleString" ].

Definition inheritsKey (key : string) : bool :=
  existsb (String.eqb key) objectPrototypeKeys.

(** The own property [key] of the schema object. *)
Fixpoint schemaLookup (key : string) (schema : Schema)
  : option (list Column) :=
  match schema with
  | [] => None
  | (k, columns) :: rest =>
      if String.eqb k key then Some columns else schemaLookup key rest
  end.

(** The own property [key] set to [columns]: replaced where it is, or added
    after the others. *)
Fixpoint schemaSet (key : string) (columns : list Column) (schema : Schema)
  : Schema :=
  match schema with
  | [] => [(key, columns)]
  | (k, old) :: rest =>
      if String.eqb k key then (k, columns) :: rest
      else (k, old) :: schemaSet key columns rest
  end.

(** What [schema[key]] evaluates to. *)
Inductive Slot : Type :=
| SlotColumns (columns : list Column)
| SlotInherited
| SlotUndefined.

Definition schemaGet (key : string) (schema : Schema) : Slot :=
  match schemaLookup key schema with
  | Some columns => SlotColumns columns
  | None => if inheritsKey key then SlotInherited else SlotUndefined
  end.

Definition columnOfRow (row : SchemaRow) : Column :=
  {| col_column := column_name row;
     col_type := data_type row;
     col_nullable := String.eqb (is_nullable row) "YES";
     col_default := column_default row |}.

Definition pushIsNotAFunction : string :=
  "schema[row.table_name].push is not a function".

(** The callback of [result.rows.forEach]. *)
Definition groupRow (schema : Schema) (row : SchemaRow) : string + Schema :=
  let schema :=
    match schemaGet (table_name row) schema with
    | SlotUndefined => schemaSet (table_name row) [] schema
    | _ => schema
    end in
  match schemaGet (table_name row) schema with
  | SlotColumns columns =>
      inr (schemaSet (table_name row) (columns ++ [columnOfRow row])%list
             schema)
  | _ => inl pushIsNotAFunction
  end.

(** [result.rows.forEach(...)] over the schema object built so far; a
    throw of the callback ends it. *)
Fixpoint groupRows (rows : list SchemaRow) (schema : Schema)
  : string + Schema :=
  match rows with
  | [] => inr schema
  | row :: rest =>
      match groupRow schema row with
      | inl message => inl message
      | inr schema' => groupRows rest schema'
      end
  end.

(** [extractSchema()], over what [pool.query] gives: the rows, or a thrown
    error, which is thrown again.  The schema object is given by its own
    properties in the order they were added. *)
Definition extractSchemaNode (db : string + list SchemaRow)
  : string + Schema :=
  match db with
  | inl message => inl message
  | inr rows => groupRows rows []
  end.

(** The columns of table [table] among [rows], in the order of the rows. *)
Definition columnsOf (table : string) (rows : list SchemaRow)
  : list Column :=
  map columnOfRow (filter (fun row => String.eqb (table_name row) table) rows).

(** The schema object holds the columns of the rows seen so far. *)
Definition groups (schema : Schema) (rows : list SchemaRow) : Prop :=
  NoDup (map fst schema)
  /\ forall table,
       schemaLookup table schema
       = match columnsOf table rows with
         | [] => None
         | columns => Some columns
         end.

(** The collaborators of [base], with [extractSchema] run over the answer
    [db] of the database. *)
Definition dbWorld (db : string + list SchemaRow) (base : World) : World :=
  {| extractSchema := extractSchemaNode db;
     generateQuery := generateQuery base;
     poolQuery := poolQuery base;
     elapsed := elapsed base;
     summarizeResults := summarizeResults base |}.

(** The rows of the example schema, and the same with a table named
    [constructor]. *)
Definition demoRows : list SchemaRow :=
  [ mkSchemaRow "users" "id" "integer" "NO" None;
    mkSchemaRow "users" "name" "text" "YES" None ].

Definition constructorRows : list SchemaRow :=
  [ mkSchemaRow "constructor" "id" "integer" "NO" None;
    mkSchemaRow "users" "id" "integer" "NO" None ].

(* ===================================================================== *)
(** ** The server: [app.post("/ask", ...)] *)
(* ===================================================================== *)







(* ===================================================================== *)
(** ** Strings: basic facts *)
(* ===================================================================== *)

Section StringFacts.

Lemma append_assoc (a b c : string) : (a ++ b) ++ c = a ++ (b ++ c).
Proof. induction a as [|x a IH]; simpl; [reflexivity | now rewrite IH]. Qed.


Lemma toUpperCase_app (a b : string) :
  toUpperCase (a ++ b) = toUpperCase a ++ toUpperCase b.
Proof. induction a as [|x a IH]; simpl; [reflexivity | now rewrite IH]. Qed.



Lemma startsWith_iff (s p : string) :
  startsWith s p = true <-> exists post, s = p ++ post.
Proof.
  revert s; induction p as [|a p IH]; intros s.
  - split; [intros _; now exists s | intros _; destruct s; reflexivity].
  - destruct s as [|b s]; simpl.
    + split; [discriminate | intros [post H]; discriminate].
    + rewrite andb_true_iff, Ascii.eqb_eq, IH. split.
      * intros [-> [post ->]]. now exists post.
      * intros [post H]. injection H as -> ->. split; [reflexivity|].
        now exists post.
Qed.

Lemma includes_iff (s p : string) :
  includes s p = true <-> occurs p s.
Proof.
  unfold occurs. induction s as [|c s IH]; cbn [includes].
  - rewrite orb_false_r, startsWith_iff. split.
    + intros [post H]. now exists "", post.
    + intros [[|x pre] [post H]]; [now exists post | discriminate].
  - rewrite orb_true_iff, IH, startsWith_iff. split.
    + intros [[post H] | [pre [post H]]].
      * now exists "", post.
      * exists (String c pre), post. simpl. now rewrite H.
    + intros [[|x pre] [post H]].
      * left. now exists post.
      * right. simpl in H. injection H as -> ->. now exists pre, post.
Qed.


Lemma includes_app_l (a b p : string) :
  includes a p = true -> includes (a ++ b) p = true.
Proof.
  rewrite !includes_iff. intros [pre [post ->]].
  exists pre, (post ++ b). now rewrite !append_assoc.
Qed.

Lemma includes_app_r (a b p : string) :
  includes b p = true -> includes (a ++ b) p = true.
Proof.
  rewrite !includes_iff. intros [pre [post ->]].
  exists (a ++ pre), post. now rewrite !append_assoc.
Qed.

Lemma isWordChar_upperChar (c : ascii) :
  isWordChar (upperChar c) = isWordChar c.
Proof. destruct c as [[] [] [] [] [] [] [] []]; reflexivity. Qed.


Lemma allWordChars_upper (a b : string) :
  toUpperCase a = toUpperCase b -> allWordChars a = allWordChars b.
Proof.
  revert b; induction a as [|x a IH]; intros [|y b] H; simpl in *;
    try discriminate; [reflexivity|].
  injection H as Hc Hs. rewrite (IH _ Hs).
  now rewrite <- (isWordChar_upperChar x), Hc, isWordChar_upperChar.
Qed.

End StringFacts.

(* ===================================================================== *)
(** ** Regular expressions: what the matcher accepts *)
(* ===================================================================== *)

Section RegExpFacts.
Import RegExp.

Lemma sameText_anycase (p mid : string) :
  sameText true p mid = true <-> toUpperCase mid = toUpperCase p.
Proof.
  revert mid; induction p as [|a p IH]; intros [|b mid]; simpl;
    try (split; [discriminate | discriminate]); [tauto|].
  unfold chEq. rewrite andb_true_iff, Ascii.eqb_eq, IH. split.
  - intros [-> ->]. reflexivity.
  - intros H. injection H as -> ->. auto.
Qed.

Lemma sameText_exact (p mid : string) :
  sameText false p mid = true <-> mid = p.
Proof.
  revert mid; induction p as [|a p IH]; intros [|b mid]; simpl;
    try (split; [discriminate | discriminate]); [tauto|].
  unfold chEq. rewrite andb_true_iff, Ascii.eqb_eq, IH. split.
  - intros [-> ->]. reflexivity.
  - intros H. injection H as -> ->. auto.
Qed.

Lemma in_runs_lits (ic : bool) (p : string) :
  forall prev s k',
    In k' (runs ic (lits p) (prev, s)) <->
    exists mid,
      s = mid ++ snd k' /\ sameText ic p mid = true /\
      fst k' = lastOf prev mid.
Proof.
  induction p as [|a p IH]; intros prev s [prev' rest]; simpl.
  - split.
    + intros [H | []]. injection H as -> ->. now exists "".
    + intros [[|b mid] [Hs [Hm Hl]]]; [|discriminate].
      simpl in *. left. now subst.
  - destruct s as [|d s].
    + split; [intros [] |].
      intros [[|b mid] [Hs [Hm Hl]]]; discriminate.
    + destruct (chEq ic a d) eqn:E; simpl.
      * rewrite app_nil_r, IH. simpl. split.
        -- intros [mid [-> [Hm Hl]]]. exists (String d mid). simpl.
           rewrite E. auto.
        -- intros [[|b mid] [Hs [Hm Hl]]]; [discriminate|].
           simpl in *. injection Hs as <- ->.
           apply andb_true_iff in Hm as [_ Hm]. now exists mid.
      * split; [intros [] |].
        intros [[|b mid] [Hs [Hm Hl]]]; [discriminate|].
        simpl in *. injection Hs as <- ->. rewrite E in Hm. discriminate.
Qed.

Lemma in_spaces :
  forall s prev k',
    In k' (spaces prev s) <->
    exists ws,
      s = ws ++ snd k' /\ allWhite ws = true /\ fst k' = lastOf prev ws.
Proof.
  induction s as [|c s IH]; intros prev [prev' rest]; simpl.
  - split.
    + intros [H | []]. injection H as -> ->. now exists "".
    + intros [[|b ws] [Hs [Hw Hl]]]; [|discriminate].
      simpl in *. left. now subst.
  - assert (Here : (prev, String c s) = (prev', rest) <->
                   exists ws, String c s = ws ++ rest /\ ws = "" /\
                              prev' = lastOf prev ws).
    { split.
      - intros H. injection H as -> ->. now exists "".
      - intros [ws [Hs [-> Hl]]]. simpl in *. now subst. }
    destruct (isWhiteSpace c) eqn:E.
    + rewrite in_app_iff, IH. simpl. rewrite Here. split.
      * intros [[ws [-> [Hw Hl]]] | [H | []]].
        -- exists (String c ws). simpl. rewrite E. auto.
        -- destruct H as [ws [Hs [-> Hl]]]. now exists "".
      * intros [[|b ws] [Hs [Hw Hl]]].
        -- right. left. now exists "".
        -- left. simpl in *. injection Hs as <- ->.
           apply andb_true_iff in Hw as [_ Hw]. now exists ws.
    + simpl. rewrite Here. split.
      * intros [[ws [Hs [-> Hl]]] | []]. now exists "".
      * intros [[|b ws] [Hs [Hw Hl]]].
        -- left. now exists "".
        -- simpl in *. injection Hs as <- ->. rewrite E in Hw.
           discriminate.
Qed.

Lemma matchesAt_iff (ic : bool) (r : regex) (k : cursor) :
  matchesAt ic r k = true <-> exists k', In k' (runs ic r k).
Proof.
  unfold matchesAt. destruct (runs ic r k) as [|k0 l]; split.
  - discriminate.
  - intros [k' []].
  - intros _. exists k0. now left.
  - reflexivity.
Qed.

Lemma testFrom_iff (ic : bool) (r : regex) :
  forall s prev,
    testFrom ic r prev s = true <->
    exists pre rest k',
      s = pre ++ rest /\ In k' (runs ic r (lastOf prev pre, rest)).
Proof.
  induction s as [|c s IH]; intros prev; cbn [testFrom];
    rewrite orb_true_iff, matchesAt_iff.
  - split.
    + intros [[k' H] | H]; [|discriminate]. now exists "", "", k'.
    + intros [[|x pre] [rest [k' [Hs H]]]]; [|discriminate].
      simpl in Hs. subst rest. left. now exists k'.
  - rewrite IH. split.
    + intros [[k' H] | [pre [rest [k' [-> H]]]]].
      * now exists "", (String c s), k'.
      * now exists (String c pre), rest, k'.
    + intros [[|x pre] [rest [k' [Hs H]]]].
      * simpl in *. subst rest. left. now exists k'.
      * simpl in *. injection Hs as <- ->. right. now exists pre, rest, k'.
Qed.

(** A pattern that is a literal text matches where the text occurs. *)
Lemma test_lits_iff (src : string) (ic : bool) (p s : string) :
  test (mk src ic (lits p)) s = true <->
  exists pre mid post, s = pre ++ mid ++ post /\ sameText ic p mid = true.
Proof.
  unfold test. simpl. rewrite testFrom_iff. split.
  - intros [pre [rest [k' [-> H]]]]. apply in_runs_lits in H.
    destruct H as [mid [-> [Hm _]]]. now exists pre, mid, (snd k').
  - intros [pre [mid [post [-> Hm]]]].
    exists pre, (mid ++ post), (lastOf (lastOf None pre) mid, post).
    split; [reflexivity|]. apply in_runs_lits. now exists mid.
Qed.

End RegExpFacts.

Section PatternFacts.
Import RegExp.

Lemma next_app_word (mid post : string) :
  mid <> "" -> allWordChars mid = true ->
  isWord (next (mid ++ post)) = true.
Proof.
  destruct mid as [|c mid]; [congruence|]. simpl.
  intros _ H. now apply andb_true_iff in H as [H _].
Qed.

Lemma lastOf_word (mid : string) :
  forall prev, mid <> "" -> allWordChars mid = true ->
               isWord (lastOf prev mid) = true.
Proof.
  induction mid as [|c mid IH]; intros prev Hne Hw; [congruence|].
  simpl in *. apply andb_true_iff in Hw as [Hc Hw].
  destruct mid as [|d mid]; [exact Hc|].
  apply IH; [discriminate | exact Hw].
Qed.

Lemma upper_nonempty (a b : string) :
  toUpperCase a = toUpperCase b -> b <> "" -> a <> "".
Proof. destruct a, b; simpl; congruence. Qed.

(** [\bkeyword\b] under the [i] flag finds the whole-word occurrences. *)
Lemma test_keyword_iff (keyword s : string) :
  keyword <> "" -> allWordChars keyword = true ->
  (test (keywordRegExp keyword) s = true <->
   wholeWordOccurrence keyword s).
Proof.
  intros Hne Hw. unfold test, wholeWordOccurrence. simpl.
  rewrite testFrom_iff. split.
  - intros [pre [rest [k' [-> H]]]].
    apply in_flat_map in H as [k1 [H1 H]].
    destruct (atBoundary (lastOf None pre, rest)) eqn:B1; [|destruct H1].
    destruct H1 as [<- | []].
    apply in_flat_map in H as [k2 [H2 H]].
    apply in_runs_lits in H2 as [mid [-> [Hm Hl]]].
    destruct (atBoundary k2) eqn:B2; [|destruct H].
    destruct H as [<- | []].
    apply sameText_anycase in Hm.
    assert (Hmw : allWordChars mid = true)
      by now rewrite (allWordChars_upper _ _ Hm).
    assert (Hmne : mid <> "") by now apply (upper_nonempty _ _ Hm).
    exists pre, mid, (snd k2). repeat split; auto.
    + unfold atBoundary in B1. simpl in B1.
      rewrite (next_app_word _ _ Hmne Hmw) in B1.
      now destruct (isWord (lastOf None pre)).
    + unfold atBoundary in B2. rewrite Hl in B2.
      rewrite (lastOf_word _ _ Hmne Hmw) in B2.
      now destruct (isWord (next (snd k2))).
  - intros [pre [mid [post [-> [Hm [Hb Ha]]]]]].
    assert (Hmw : allWordChars mid = true)
      by now rewrite (allWordChars_upper _ _ Hm).
    assert (Hmne : mid <> "") by now apply (upper_nonempty _ _ Hm).
    exists pre, (mid ++ post), (lastOf (lastOf None pre) mid, post).
    split; [reflexivity|].
    apply in_flat_map. exists (lastOf None pre, mid ++ post). split.
    + unfold atBoundary. simpl.
      rewrite Hb, (next_app_word _ _ Hmne Hmw). now left.
    + apply in_flat_map. exists (lastOf (lastOf None pre) mid, post).
      split.
      * apply in_runs_lits. exists mid. repeat split.
        now apply sameText_anycase.
      * unfold atBoundary. simpl.
        rewrite Ha, (lastOf_word _ _ Hmne Hmw). now left.
Qed.

Lemma in_runs_alts (ic : bool) (l : list string) :
  l <> [] ->
  forall k k',
    In k' (runs ic (alts l) k) <->
    exists p, In p l /\ In k' (runs ic (lits p) k).
Proof.
  induction l as [|p l IH]; [congruence|]. intros _ k k'.
  destruct l as [|q l].
  - simpl alts. split.
    + intros H. exists p. split; [now left | exact H].
    + intros [p' [[<- | []] H]]. exact H.
  - change (alts (p :: q :: l)) with (Alt (lits p) (alts (q :: l))).
    cbn [runs]. rewrite in_app_iff, IH by discriminate. split.
    + intros [H | [p' [Hin H]]].
      * exists p. split; [now left | exact H].
      * exists p'. split; [now right | exact H].
    + intros [p' [[<- | Hin] H]]; [now left | right; now exists p'].
Qed.

Lemma chEq_semicolon (d : ascii) : chEq true ";" d = true -> d = ";"%char.
Proof.
  destruct d as [[] [] [] [] [] [] [] []]; simpl;
    try discriminate; reflexivity.
Qed.

(** The stacked-statement pattern: a semicolon, white space, and one of
    the seven keywords it lists. *)
Lemma test_stacked_iff (s : string) :
  test stackedPattern s = true <->
  exists keyword, In keyword STACKED_KEYWORDS /\ semicolonThen keyword s.
Proof.
  unfold test, semicolonThen. cbn [ignoreCase prog stackedPattern].
  rewrite testFrom_iff. split.
  - intros [pre [rest [k' [-> H]]]]. cbn [runs] in H.
    apply in_flat_map in H as [k1 [H1 H]].
    cbn [snd fst] in H1. destruct rest as [|d rest]; [destruct H1|].
    destruct (chEq true ";" d) eqn:E; [|destruct H1].
    apply chEq_semicolon in E. subst d. destruct H1 as [<- | []].
    apply in_flat_map in H as [k2 [H2 H]].
    cbn [fst snd] in H2. apply in_spaces in H2 as [ws [-> [Hws Hl]]].
    apply in_runs_alts in H; [|discriminate].
    destruct H as [keyword [Hin H]]. destruct k2 as [prev2 rest2].
    apply in_runs_lits in H as [mid [Hr [Hm _]]]. cbn [snd] in Hr.
    subst rest2. exists keyword. split; [exact Hin|].
    exists pre, ws, mid, (snd k'). repeat split; auto.
    now apply sameText_anycase.
  - intros [keyword [Hin [pre [ws [mid [post [-> [Hws Hm]]]]]]]].
    exists pre, (";" ++ ws ++ mid ++ post),
      (lastOf (lastOf (Some ";"%char) ws) mid, post).
    split; [reflexivity|]. cbn [runs].
    apply in_flat_map. exists (Some ";"%char, ws ++ mid ++ post). split.
    + simpl. now left.
    + apply in_flat_map.
      exists (lastOf (Some ";"%char) ws, mid ++ post). split.
      * cbn [fst snd]. apply in_spaces. now exists ws.
      * apply in_runs_alts; [discriminate|]. exists keyword.
        split; [exact Hin|]. apply in_runs_lits. exists mid.
        repeat split. now apply sameText_anycase.
Qed.

Lemma test_anycase_iff (src p s : string) :
  test (mk src true (lits p)) s = true <-> occursAnyCase p s.
Proof.
  rewrite test_lits_iff. unfold occursAnyCase.
  split; intros [pre [mid [post [H Hm]]]]; exists pre, mid, post;
    (split; [exact H | now apply sameText_anycase]).
Qed.

Lemma test_exact_iff (src p s : string) :
  test (mk src false (lits p)) s = true <-> occurs p s.
Proof.
  rewrite test_lits_iff. unfold occurs. split.
  - intros [pre [mid [post [H Hm]]]]. apply sameText_exact in Hm.
    subst mid. now exists pre, post.
  - intros [pre [post H]]. exists pre, p, post.
    split; [exact H | now apply sameText_exact].
Qed.

End PatternFacts.

(* ===================================================================== *)
(** ** The validator: where each issue comes from *)
(* ===================================================================== *)

Section CheckerFacts.

Lemma pushIssue_flag (msg : string) (r : SafetyVerdict) :
  safe (pushIssue msg r) = true <-> issues (pushIssue msg r) = [].
Proof.
  simpl. split; [discriminate|].
  intros H. now destruct (app_cons_not_nil _ _ _ (eq_sym H)).
Qed.

Lemma fold_flag {A : Type} (g : A -> bool) (f : A -> string)
      (l : list A) :
  forall r,
    (safe r = true <-> issues r = []) ->
    let r' :=
      fold_left (fun r x => if g x then pushIssue (f x) r else r) l r in
    safe r' = true <-> issues r' = [].
Proof.
  induction l as [|x l IH]; intros r Hr; simpl; [exact Hr|].
  apply IH. destruct (g x); [apply pushIssue_flag | exact Hr].
Qed.

Lemma fold_issues {A : Type} (g : A -> bool) (f : A -> string)
      (l : list A) :
  forall r,
    issues
      (fold_left (fun r x => if g x then pushIssue (f x) r else r) l r) =
    (issues r ++ map f (filter g l))%list.
Proof.
  induction l as [|x l IH]; intros r; simpl.
  - now rewrite app_nil_r.
  - rewrite IH. destruct (g x); simpl; [|reflexivity].
    now rewrite <- app_assoc.
Qed.

Lemma addWarnings_keeps (n : string) (r : SafetyVerdict) :
  safe (addWarnings n r) = safe r /\ issues (addWarnings n r) = issues r.
Proof.
  unfold addWarnings.
  destruct (includes n "SELECT *");
    destruct (negb (includes n "LIMIT") && negb (includes n "TOP"));
    split; reflexivity.
Qed.

Lemma checkSemicolons_flag (s : string) (r : SafetyVerdict) :
  (safe r = true <-> issues r = []) ->
  safe (checkSemicolons s r) = true <-> issues (checkSemicolons s r) = [].
Proof.
  intros Hr. unfold checkSemicolons.
  destruct (1 <? countChar ";" s)%nat; [apply pushIssue_flag|].
  destruct ((countChar ";" s =? 1)%nat && negb (endsWith (trim s) ";"));
    [apply pushIssue_flag | exact Hr].
Qed.

Lemma safe_iff_no_issues (s : string) :
  safe (checkQuerySafety s) = true <-> issues (checkQuerySafety s) = [].
Proof.
  unfold checkQuerySafety.
  destruct (addWarnings_keeps (toUpperCase (trim s))
              (checkSemicolons s
                 (checkPatterns s
                    (checkKeywords s
                       (checkSelect (toUpperCase (trim s))
                          {| safe := true; issues := [];
                             warnings := [] |}))))) as [-> ->].
  apply checkSemicolons_flag. apply fold_flag. apply fold_flag.
  unfold checkSelect.
  destruct (negb (startsWith (toUpperCase (trim s)) "SELECT"));
    [apply pushIssue_flag | simpl; tauto].
Qed.

Lemma unsafe_of_issue (s x : string) :
  In x (issues (checkQuerySafety s)) -> safe (checkQuerySafety s) = false.
Proof.
  intros H. destruct (safe (checkQuerySafety s)) eqn:E; [|reflexivity].
  apply safe_iff_no_issues in E. rewrite E in H. destruct H.
Qed.

Lemma issues_checkQuerySafety (s : string) :
  issues (checkQuerySafety s) =
  (selectPart s
   ++ map keywordIssue
        (filter (fun k => RegExp.test (keywordRegExp k) s)
           DESTRUCTIVE_KEYWORDS)
   ++ map patternIssue
        (filter (fun p => RegExp.test p s) DANGEROUS_PATTERNS)
   ++ semicolonPart s)%list.
Proof.
  unfold checkQuerySafety.
  match goal with
  | |- issues (addWarnings ?n ?r) = _ =>
      destruct (addWarnings_keeps n r) as [_ ->]
  end.
  assert (Hsemi : forall r,
             issues (checkSemicolons s r)
             = (issues r ++ semicolonPart s)%list).
  { intros r. unfold checkSemicolons, semicolonPart.
    destruct (1 <? countChar ";" s)%nat; [reflexivity|].
    destruct ((countChar ";" s =? 1)%nat && negb (endsWith (trim s) ";"));
      simpl; [reflexivity | now rewrite app_nil_r]. }
  rewrite Hsemi. unfold checkPatterns, checkKeywords.
  rewrite !fold_issues. unfold checkSelect, selectPart.
  destruct (negb (startsWith (toUpperCase (trim s)) "SELECT")); simpl;
    now rewrite <- ?app_assoc.
Qed.

(** Issue texts of different rules never coincide: a keyword issue
    starts with "De", a pattern issue with "Da". *)
Lemma keywordIssue_prefix (k : string) :
  startsWith (keywordIssue k) "De" = true.
Proof. reflexivity. Qed.

Lemma patternIssue_prefix (p : RegExp.t) :
  startsWith (patternIssue p) "Da" = true.
Proof. reflexivity. Qed.

Lemma selectPart_prefix (s x : string) :
  In x (selectPart s) -> startsWith x "D" = false.
Proof.
  unfold selectPart.
  destruct (negb (startsWith (toUpperCase (trim s)) "SELECT"));
    [intros [<- | []]; reflexivity | intros []].
Qed.

Lemma semicolonPart_prefix (s x : string) :
  In x (semicolonPart s) -> startsWith x "D" = false.
Proof.
  unfold semicolonPart.
  destruct (1 <? countChar ";" s)%nat;
    [intros [<- | []]; reflexivity|].
  destruct ((countChar ";" s =? 1)%nat && negb (endsWith (trim s) ";"));
    [intros [<- | []]; reflexivity | intros []].
Qed.

Lemma keywordIssue_inj (k1 k2 : string) :
  keywordIssue k1 = keywordIssue k2 -> k1 = k2.
Proof. unfold keywordIssue. simpl. intros H. now injection H. Qed.

Lemma keywordIssue_in (s keyword : string) :
  In (keywordIssue keyword) (issues (checkQuerySafety s)) <->
  In keyword DESTRUCTIVE_KEYWORDS /\
  RegExp.test (keywordRegExp keyword) s = true.
Proof.
  rewrite issues_checkQuerySafety, !in_app_iff. split.
  - intros [H | [H | [H | H]]].
    + apply selectPart_prefix in H. discriminate.
    + apply in_map_iff in H as [k [Hk H]].
      apply keywordIssue_inj in Hk. subst k.
      now apply filter_In in H.
    + apply in_map_iff in H as [p [Hp _]].
      pose proof (patternIssue_prefix p) as E. rewrite Hp in E.
      discriminate.
    + apply semicolonPart_prefix in H. discriminate.
  - intros H. right. left. apply in_map. now apply filter_In.
Qed.

Lemma patternIssue_in (s : string) (pattern : RegExp.t) :
  In pattern DANGEROUS_PATTERNS ->
  (In (patternIssue pattern) (issues (checkQuerySafety s)) <->
   RegExp.test pattern s = true).
Proof.
  intros Hin. rewrite issues_checkQuerySafety, !in_app_iff. split.
  - intros [H | [H | [H | H]]].
    + apply selectPart_prefix in H. discriminate.
    + apply in_map_iff in H as [k [Hk _]].
      pose proof (keywordIssue_prefix k) as E. rewrite Hk in E.
      discriminate.
    + apply in_map_iff in H as [p [Hp H]].
      apply filter_In in H as [Hp' Ht].
      assert (p = pattern); [|now subst].
      simpl in Hin, Hp'.
      repeat (destruct Hin as [<- | Hin]);
        repeat (destruct Hp' as [<- | Hp']);
        try reflexivity; try discriminate; try contradiction.
    + apply semicolonPart_prefix in H. discriminate.
  - intros H. right. right. left. apply in_map. now apply filter_In.
Qed.

Lemma fold_warnings {A : Type} (g : A -> bool) (f : A -> string)
      (l : list A) :
  forall r,
    warnings
      (fold_left (fun r x => if g x then pushIssue (f x) r else r) l r)
    = warnings r.
Proof.
  induction l as [|x l IH]; intros r; simpl; [reflexivity|].
  rewrite IH. now destruct (g x).
Qed.

(** The no-limit advisory is raised exactly for the texts without a
    row-limiting clause in the validator's sense. *)
Lemma limitWarning_iff (s : string) :
  In limitWarning (warnings (checkQuerySafety s)) <->
  hasRowLimitingClause s = false.
Proof.
  unfold checkQuerySafety, hasRowLimitingClause, addWarnings.
  set (n := toUpperCase (trim s)).
  set (r := checkSemicolons s _).
  assert (Hr : warnings r = []).
  { unfold r, checkSemicolons, checkPatterns, checkKeywords, checkSelect.
    repeat match goal with
           | |- context [if ?b then _ else _] => destruct b
           end; cbn [warnings pushIssue]; rewrite !fold_warnings;
      reflexivity. }
  destruct (includes n "LIMIT"), (includes n "TOP"),
    (includes n "SELECT *"); cbn; rewrite Hr; cbn;
    split; intros H; try discriminate H; try reflexivity; auto;
    repeat (destruct H as [H | H]; [discriminate H|]); destruct H.
Qed.

End CheckerFacts.

(* ===================================================================== *)
(** ** The validator: the properties of the specification *)
(* ===================================================================== *)

(** C2.  For every input, [checkQuerySafety] reports [safe = true] exactly
    when its issue list is empty; the warning step changes neither the
    [safe] flag nor the issues.  "SELECT * FROM users" is safe, with no
    issue, and carries both advisories: the SELECT * one and the
    no-limit-clause one. *)
Theorem safe_exactly_when_no_issue :
  (forall s : string,
      safe (checkQuerySafety s) = true <-> issues (checkQuerySafety s) = [])
  /\ (forall (normalizedQuery : string) (r : SafetyVerdict),
         safe (addWarnings normalizedQuery r) = safe r /\
         issues (addWarnings normalizedQuery r) = issues r)
  /\ (forall (msg : string) (r : SafetyVerdict),
         safe (pushWarning msg r) = safe r /\
         issues (pushWarning msg r) = issues r)
  /\ checkQuerySafety "SELECT * FROM users" =
     {| safe := true; issues := []; warnings := [starWarning; limitWarning] |}.
Proof.
  split; [exact safe_iff_no_issues|].
  split; [exact addWarnings_keeps|].
  split; [intros msg r; split; reflexivity|].
  vm_compute. reflexivity.
Qed.

(** C3.  For a keyword of the destructive list, the issue naming it is
    among the issues of [checkQuerySafety s] exactly when [s] has a
    whole-word occurrence of the keyword in any letter case; such an
    occurrence makes the verdict unsafe; and the issues of two different
    keywords are different texts.  An occurrence inside a longer word
    (UPDATE in updated_at) is not a whole-word occurrence and brings no
    issue. *)
Theorem destructive_keyword_issue :
  forall s keyword : string,
    In keyword DESTRUCTIVE_KEYWORDS ->
    (In (keywordIssue keyword) (issues (checkQuerySafety s)) <->
     wholeWordOccurrence keyword s)
    /\ (wholeWordOccurrence keyword s -> safe (checkQuerySafety s) = false)
    /\ (forall other : string,
           other <> keyword -> keywordIssue other <> keywordIssue keyword).
Proof.
  intros s keyword Hin.
  assert (Hiff : In (keywordIssue keyword) (issues (checkQuerySafety s)) <->
                 wholeWordOccurrence keyword s).
  { rewrite keywordIssue_in. rewrite test_keyword_iff.
    - tauto.
    - simpl in Hin. repeat (destruct Hin as [<- | Hin]);
        try discriminate; contradiction.
    - simpl in Hin. repeat (destruct Hin as [<- | Hin]);
        try reflexivity; contradiction. }
  split; [exact Hiff|]. split.
  - intros H. apply Hiff in H. exact (unsafe_of_issue _ _ H).
  - intros other Hne H. apply Hne. now apply keywordIssue_inj.
Qed.

(** C3, at concrete inputs: a lower-case drop after a semicolon is found;
    the column updated_at raises no UPDATE issue and the query is safe. *)
Lemma destructive_keyword_issue_witness :
  (In (keywordIssue "DROP")
      (issues (checkQuerySafety "select 1; drop table users"))
   /\ safe (checkQuerySafety "select 1; drop table users") = false)
  /\ (~ wholeWordOccurrence "UPDATE" "SELECT updated_at FROM users"
      /\ safe (checkQuerySafety "SELECT updated_at FROM users") = true).
Proof.
  assert (HinD : In "DROP" DESTRUCTIVE_KEYWORDS) by (simpl; tauto).
  assert (HinU : In "UPDATE" DESTRUCTIVE_KEYWORDS) by (simpl; tauto).
  assert (Hocc : wholeWordOccurrence "DROP" "select 1; drop table users").
  { exists "select 1; ", "drop", " table users". repeat split. }
  destruct (destructive_keyword_issue "select 1; drop table users" "DROP"
              HinD) as [Hiff [Hsafe _]].
  destruct (destructive_keyword_issue "SELECT updated_at FROM users" "UPDATE"
              HinU) as [Hiff' _].
  split.
  - split; [apply Hiff; exact Hocc | apply Hsafe; exact Hocc].
  - split; [|reflexivity].
    intros H. apply Hiff' in H. vm_compute in H.
    repeat (destruct H as [H | H]; [discriminate H|]). exact H.
Defined.

(** C4, as the specification words it, fails: a semicolon followed by
    GRANT, a keyword of the destructive list, does not raise the
    stacked-statement issue. *)
Lemma stacked_issue_misses_grant :
  ~ (forall s keyword : string,
        In keyword DESTRUCTIVE_KEYWORDS ->
        semicolonThen keyword s ->
        In (patternIssue stackedPattern) (issues (checkQuerySafety s))).
Proof.
  intros H.
  assert (Hin : In "GRANT" DESTRUCTIVE_KEYWORDS) by (simpl; tauto).
  assert (Hs : semicolonThen "GRANT" "SELECT 1; GRANT ALL ON t TO u").
  { exists "SELECT 1", " ", "GRANT", " ALL ON t TO u". repeat split. }
  specialize (H _ _ Hin Hs). vm_compute in H.
  repeat (destruct H as [H | H]; [discriminate H|]). exact H.
Qed.

(** C4, amended.  Each of the five dangerous patterns contributes its own
    issue exactly when it matches, whatever the other rules find: (a) a
    semicolon, any white space, then DROP, DELETE, UPDATE, INSERT,
    TRUNCATE, ALTER or CREATE in any letter case; (b) two dashes; (c) a
    slash and a star; (d) xp_ and (e) sp_ in any letter case.  Any such
    issue makes the verdict unsafe, and the five issue texts are pairwise
    different. *)
Theorem dangerous_pattern_issues :
  forall s : string,
    (In (patternIssue stackedPattern) (issues (checkQuerySafety s)) <->
     exists keyword, In keyword STACKED_KEYWORDS /\ semicolonThen keyword s)
    /\ (In (patternIssue lineCommentPattern) (issues (checkQuerySafety s)) <->
        occurs "--" s)
    /\ (In (patternIssue blockCommentPattern) (issues (checkQuerySafety s)) <->
        occurs "/*" s)
    /\ (In (patternIssue xpPattern) (issues (checkQuerySafety s)) <->
        occursAnyCase "xp_" s)
    /\ (In (patternIssue spPattern) (issues (checkQuerySafety s)) <->
        occursAnyCase "sp_" s)
    /\ (forall pattern : RegExp.t,
           In (patternIssue pattern) (issues (checkQuerySafety s)) ->
           safe (checkQuerySafety s) = false)
    /\ NoDup (map patternIssue DANGEROUS_PATTERNS).
Proof.
  intros s.
  split; [rewrite patternIssue_in by (simpl; tauto);
          apply test_stacked_iff|].
  split; [rewrite patternIssue_in by (simpl; tauto);
          apply test_exact_iff|].
  split; [rewrite patternIssue_in by (simpl; tauto);
          apply test_exact_iff|].
  split; [rewrite patternIssue_in by (simpl; tauto);
          apply test_anycase_iff|].
  split; [rewrite patternIssue_in by (simpl; tauto);
          apply test_anycase_iff|].
  split; [intros pattern H; exact (unsafe_of_issue _ _ H)|].
  simpl. repeat constructor; simpl; intros H;
    repeat (destruct H as [H | H]; [discriminate H|]); exact H.
Qed.

(** C4, amended, on a text that trips three patterns at once. *)
Lemma dangerous_pattern_issues_witness :
  In (patternIssue stackedPattern)
     (issues (checkQuerySafety "SELECT 1;  drop table t -- /* x"))
  /\ In (patternIssue lineCommentPattern)
        (issues (checkQuerySafety "SELECT 1;  drop table t -- /* x"))
  /\ In (patternIssue blockCommentPattern)
        (issues (checkQuerySafety "SELECT 1;  drop table t -- /* x"))
  /\ safe (checkQuerySafety "SELECT 1;  drop table t -- /* x") = false.
Proof.
  destruct (dangerous_pattern_issues "SELECT 1;  drop table t -- /* x")
    as [Ha [Hb [Hc [_ [_ [Hsafe _]]]]]].
  assert (H1 : In (patternIssue stackedPattern)
                  (issues (checkQuerySafety
                             "SELECT 1;  drop table t -- /* x"))).
  { apply Ha. exists "DROP". split; [simpl; tauto|].
    exists "SELECT 1", "  ", "drop", " table t -- /* x". repeat split. }
  split; [exact H1|]. split.
  - apply Hb. exists "SELECT 1;  drop table t ", " /* x". reflexivity.
  - split; [|exact (Hsafe _ H1)].
    apply Hc. exists "SELECT 1;  drop table t -- ", " x". reflexivity.
Defined.

(** C9.  Any text with sp_ or xp_ somewhere in it, in any letter case and
    also inside a longer identifier, is rejected with the issue of the
    corresponding dangerous pattern. *)
Theorem procedure_prefix_is_substring_match :
  forall (s p : string) (pattern : RegExp.t),
    In (p, pattern) [("sp_", spPattern); ("xp_", xpPattern)] ->
    occursAnyCase p s ->
    safe (checkQuerySafety s) = false /\
    In (patternIssue pattern) (issues (checkQuerySafety s)).
Proof.
  intros s p pattern Hin Hocc.
  assert (H : In (patternIssue pattern) (issues (checkQuerySafety s))).
  { destruct Hin as [E | [E | []]]; injection E as <- <-;
      (apply patternIssue_in; [simpl; tauto|]);
      now apply test_anycase_iff. }
  split; [exact (unsafe_of_issue _ _ H) | exact H].
Qed.

(** C9, at a benign query: the column resp_time contains sp_. *)
Lemma procedure_prefix_witness :
  safe (checkQuerySafety "SELECT resp_time FROM metrics") = false /\
  In (patternIssue spPattern)
     (issues (checkQuerySafety "SELECT resp_time FROM metrics")).
Proof.
  apply (procedure_prefix_is_substring_match
           "SELECT resp_time FROM metrics" "sp_" spPattern).
  - simpl. tauto.
  - exists "SELECT re", "sp_", "time FROM metrics". split; reflexivity.
Defined.

(* ===================================================================== *)
(** ** The execution port *)
(* ===================================================================== *)

Section ExecutorFacts.

Lemma pooledQueries_app (l1 l2 : list Call) :
  pooledQueries (l1 ++ l2) = (pooledQueries l1 ++ pooledQueries l2)%list.
Proof.
  induction l1 as [|c l1 IH]; [reflexivity|].
  destruct c; simpl; now rewrite IH.
Qed.

Lemma executedQueries_app (l1 l2 : list Call) :
  executedQueries (l1 ++ l2)
  = (executedQueries l1 ++ executedQueries l2)%list.
Proof.
  induction l1 as [|c l1 IH]; [reflexivity|].
  destruct c; simpl; now rewrite IH.
Qed.

Lemma generationCalls_app (l1 l2 : list Call) :
  generationCalls (l1 ++ l2)
  = (generationCalls l1 ++ generationCalls l2)%list.
Proof. apply filter_app. Qed.

(** What one call of [executionNode] adds to the state. *)
Lemma executionNode_calls (w : World) (sqlQuery : string) (maxRows : Z)
      (st : St.t) :
  St.calls (snd (executionNode w sqlQuery maxRows st))
  = (St.calls st ++ [CallExecutionNode sqlQuery maxRows;
                     CallPoolQuery (limitedQuery sqlQuery maxRows)])%list
  /\ St.trace (snd (executionNode w sqlQuery maxRows st)) = St.trace st.
Proof.
  unfold executionNode, executeQuerySafe, executeQuery.
  destruct (poolQuery w (limitedQuery sqlQuery maxRows)); simpl;
    rewrite <- app_assoc; split; reflexivity.
Qed.

Lemma limitedQuery_has_limit (sqlQuery : string) (maxRows : Z) :
  includes (toUpperCase (limitedQuery sqlQuery maxRows)) "LIMIT" = true.
Proof.
  unfold limitedQuery.
  destruct (includes (toUpperCase (trim sqlQuery)) "LIMIT") eqn:E; simpl.
  - exact E.
  - rewrite toUpperCase_app. apply includes_app_r.
    apply includes_iff. exists " ", (" " ++ toUpperCase (ofInt maxRows)).
    reflexivity.
Qed.

End ExecutorFacts.

(** C7, as the specification words it, fails: a safe text whose
    row-limiting clause is a TOP clause is not run as it stands, the
    database receives it with a LIMIT clause appended. *)
Lemma top_clause_still_gets_limit :
  ~ (forall (w : World) (sqlQuery : string) (maxRows : Z) (st : St.t),
        safe (checkQuerySafety sqlQuery) = true ->
        hasRowLimitingClause sqlQuery = true ->
        pooledQueries (St.calls (snd (executionNode w sqlQuery maxRows st)))
        = (pooledQueries (St.calls st) ++ [sqlQuery])%list).
Proof.
  intros H.
  specialize (H demoWorld "SELECT TOP 5 name FROM users" 100%Z St.init
                eq_refl eq_refl).
  vm_compute in H. discriminate H.
Qed.

(** C7, amended.  [executionNode] sends the database exactly one text.
    When the upper-cased trimmed input does not contain LIMIT, that text is
    the trimmed input without one final semicolon, followed by " LIMIT "
    and [maxRows]; this is so in particular for every input the validator's
    advisory finds without a row-limiting clause.  When the upper-cased
    trimmed input contains LIMIT, the text is the trimmed input, unchanged;
    a TOP clause does not count.  Either way the text sent contains
    LIMIT. *)
Theorem row_limit_appended_unless_limit_present :
  forall (w : World) (sqlQuery : string) (maxRows : Z) (st : St.t),
    pooledQueries (St.calls (snd (executionNode w sqlQuery maxRows st)))
    = (pooledQueries (St.calls st) ++ [limitedQuery sqlQuery maxRows])%list
    /\ (includes (toUpperCase (trim sqlQuery)) "LIMIT" = false ->
        limitedQuery sqlQuery maxRows
        = dropFinalSemicolon (trim sqlQuery) ++ " LIMIT " ++ ofInt maxRows)
    /\ (hasRowLimitingClause sqlQuery = false ->
        limitedQuery sqlQuery maxRows
        = dropFinalSemicolon (trim sqlQuery) ++ " LIMIT " ++ ofInt maxRows)
    /\ (includes (toUpperCase (trim sqlQuery)) "LIMIT" = true ->
        limitedQuery sqlQuery maxRows = trim sqlQuery)
    /\ includes (toUpperCase (limitedQuery sqlQuery maxRows)) "LIMIT" = true.
Proof.
  intros w sqlQuery maxRows st.
  split.
  { destruct (executionNode_calls w sqlQuery maxRows st) as [-> _].
    rewrite pooledQueries_app. reflexivity. }
  split; [intros H; unfold limitedQuery; now rewrite H|].
  split.
  { unfold hasRowLimitingClause. intros H.
    apply orb_false_iff in H as [H _].
    unfold limitedQuery. now rewrite H. }
  split; [intros H; unfold limitedQuery; now rewrite H|].
  apply limitedQuery_has_limit.
Qed.

(** C7, at concrete inputs: a final semicolon is dropped before the LIMIT
    clause is appended; a text with its own LIMIT is passed on trimmed. *)
Lemma row_limit_witness :
  pooledQueries
    (St.calls (snd (executionNode demoWorld "SELECT name FROM users;" 50%Z
                      St.init)))
  = ["SELECT name FROM users LIMIT 50"]
  /\ limitedQuery " SELECT name FROM users limit 5 " 50%Z
     = "SELECT name FROM users limit 5".
Proof.
  destruct (row_limit_appended_unless_limit_present demoWorld
              "SELECT name FROM users;" 50%Z St.init) as [Hcalls [Hno _]].
  destruct (row_limit_appended_unless_limit_present demoWorld
              " SELECT name FROM users limit 5 " 50%Z St.init)
    as [_ [_ [_ [Hyes _]]]].
  split.
  - rewrite Hcalls, (Hno eq_refl). reflexivity.
  - rewrite (Hyes eq_refl). reflexivity.
Defined.

(* ===================================================================== *)
(** ** The refinement loop *)
(* ===================================================================== *)

Section LoopFacts.

Variable w : World.
Variable question : string.
Variable maxRetries : Z.
Variable schema : Schema.

(** The three ways through the loop body. *)
Lemma loopBody_cases (v : Vars) (st : St.t) :
  let n := length (generationCalls (St.calls st)) in
  let gen := generateQuery w n question schema (previousQuery v)
                           (safetyFeedback v) in
  let call := CallGenerateQuery question schema (previousQuery v)
                                (safetyFeedback v) gen in
  (exists error r,
      gen = GenFailed error /\
      loopBody w question schema v st
      = (ReturnFrom r,
         St.push (QueryGeneration (attempt v + 1) false None (Some error))
           (St.record call st)) /\
      AgentResult.success r = false /\
      AgentResult.error r = Some generationError /\
      AgentResult.data r = None /\
      AgentResult.trace r
      = Some (St.trace st
              ++ [QueryGeneration (attempt v + 1) false None (Some error)])%list)
  \/ (exists query raw st',
         gen = GenOk query raw /\
         st' = St.push
                 (SafetyCheck (attempt v + 1) (safe (checkQuerySafety query))
                    (issues (checkQuerySafety query))
                    (warnings (checkQuerySafety query)))
                 (St.push
                    (QueryGeneration (attempt v + 1) true (Some query) None)
                    (St.record call st)) /\
         ((safe (checkQuerySafety query) = true /\
           loopBody w question schema v st
           = (Break
                {| attempt := attempt v + 1;
                   previousQuery := previousQuery v;
                   safetyFeedback := safetyFeedback v;
                   safeQuery := Some query;
                   safetyResult := Some (safetyCheckNode query) |}, st'))
          \/ (safe (checkQuerySafety query) = false /\
              loopBody w question schema v st
              = (Continue
                   {| attempt := attempt v + 1;
                      previousQuery := Some query;
                      safetyFeedback :=
                        Some (join "; " (issues (checkQuerySafety query)));
                      safeQuery := safeQuery v;
                      safetyResult := Some (safetyCheckNode query) |},
                 st')))).
Proof.
  unfold loopBody. cbv zeta.
  destruct (generateQuery w (length (generationCalls (St.calls st)))
              question schema (previousQuery v) (safetyFeedback v))
    as [query raw | error] eqn:G.
  - right. exists query, raw. eexists. split; [reflexivity|].
    split; [reflexivity|]. cbn [safetyCheckNode SafetyNode.safe
                                  SafetyNode.issues SafetyNode.warnings].
    destruct (safe (checkQuerySafety query)); [left | right];
      split; reflexivity.
  - left. exists error. eexists. split; [reflexivity|].
    split; [reflexivity|]. repeat split.
Qed.

(** The rule of the [while] loop: an invariant [P] kept by every pass that
    continues gives the postcondition [Q] however the loop is left. *)
Lemma refinementLoop_rule (P : Vars -> St.t -> Prop)
      (Q : LoopExit -> St.t -> Prop) :
  (forall v st,
      P v st -> (attempt v < maxRetries)%Z ->
      match loopBody w question schema v st with
      | (Continue v', st') => P v' st'
      | (Break v', st') => Q (LoopEnd v') st'
      | (ReturnFrom r, st') => Q (LoopReturn r) st'
      end) ->
  (forall v st, P v st -> (maxRetries <= attempt v)%Z -> Q (LoopEnd v) st) ->
  forall fuel v st ex st',
    P v st ->
    refinementLoop w question maxRetries fuel schema v st = Some (ex, st') ->
    Q ex st'.
Proof.
  intros Hbody Hexit. induction fuel as [|fuel IH]; intros v st ex st' HP;
    cbn [refinementLoop]; destruct (Z.ltb_spec (attempt v) maxRetries) as [Hlt | Hge].
  - discriminate.
  - intros H. injection H as <- <-. now apply Hexit.
  - specialize (Hbody v st HP Hlt).
    destruct (loopBody w question schema v st) as [[v' | v' | r] st1].
    + now apply IH.
    + intros H. injection H as <- <-. exact Hbody.
    + intros H. injection H as <- <-. exact Hbody.
  - intros H. injection H as <- <-. now apply Hexit.
Qed.

(** Every pass that continues adds one to [attempt], so [maxRetries]
    passes are always enough. *)
Lemma refinementLoop_returns :
  forall fuel v st,
    (maxRetries - attempt v <= Z.of_nat fuel)%Z ->
    exists ex st',
      refinementLoop w question maxRetries fuel schema v st = Some (ex, st').
Proof.
  induction fuel as [|fuel IH]; intros v st Hfuel; cbn [refinementLoop];
    destruct (Z.ltb_spec (attempt v) maxRetries) as [Hlt | Hge];
    try (eexists; eexists; reflexivity); [lia|].
  destruct (loopBody_cases v st)
    as [[error [r [_ [-> _]]]]
       | [query [raw [st1 [_ [_ [[_ ->] | [_ ->]]]]]]]];
    try (eexists; eexists; reflexivity).
  apply IH. cbn [attempt]. lia.
Qed.

End LoopFacts.

Section LoopShape.

Variable w : World.
Variable question : string.
Variable maxRetries : Z.
Variable schema : Schema.

(** What the loop leaves behind, whatever the collaborators answer: it
    calls neither the execution port nor the database; a [return] from
    inside it is a failure that carries the trace; and it ends either with
    [safeQuery] untouched or with an accepted query. *)
Lemma refinementLoop_shape (fuel : nat) (v0 : Vars) (st0 : St.t)
      (ex : LoopExit) (st' : St.t) :
  refinementLoop w question maxRetries fuel schema v0 st0 = Some (ex, st') ->
  executedQueries (St.calls st') = executedQueries (St.calls st0)
  /\ pooledQueries (St.calls st') = pooledQueries (St.calls st0)
  /\ (forall ok n t,
         In (Execution ok n t) (St.trace st') ->
         In (Execution ok n t) (St.trace st0))
  /\ match ex with
     | LoopReturn r =>
         AgentResult.success r = false /\
         AgentResult.data r = None /\
         AgentResult.trace r = Some (St.trace st')
     | LoopEnd v' =>
         (safeQuery v' = safeQuery v0 /\
          (forall a sf i ws,
              In (SafetyCheck a sf i ws) (St.trace st') ->
              In (SafetyCheck a sf i ws) (St.trace st0) \/ sf = false))
         \/ accepted v' st'
     end.
Proof.
  apply (refinementLoop_rule w question maxRetries schema
           (fun v st =>
              executedQueries (St.calls st) = executedQueries (St.calls st0)
              /\ pooledQueries (St.calls st) = pooledQueries (St.calls st0)
              /\ (forall ok n t,
                     In (Execution ok n t) (St.trace st) ->
                     In (Execution ok n t) (St.trace st0))
              /\ safeQuery v = safeQuery v0
              /\ (forall a sf i ws,
                     In (SafetyCheck a sf i ws) (St.trace st) ->
                     In (SafetyCheck a sf i ws) (St.trace st0) \/ sf = false))
           (fun ex st' =>
              executedQueries (St.calls st') = executedQueries (St.calls st0)
              /\ pooledQueries (St.calls st') = pooledQueries (St.calls st0)
              /\ (forall ok n t,
                     In (Execution ok n t) (St.trace st') ->
                     In (Execution ok n t) (St.trace st0))
              /\ match ex with
                 | LoopReturn r =>
                     AgentResult.success r = false /\
                     AgentResult.data r = None /\
                     AgentResult.trace r = Some (St.trace st')
                 | LoopEnd v' =>
                     (safeQuery v' = safeQuery v0 /\
                      (forall a sf i ws,
                          In (SafetyCheck a sf i ws) (St.trace st') ->
                          In (SafetyCheck a sf i ws) (St.trace st0)
                          \/ sf = false))
                     \/ accepted v' st'
                 end)).
  - intros v st [He [Hp [Hx [Hs Ht]]]] _.
    destruct (loopBody_cases w question schema v st)
      as [[error [r [_ [-> [Hr1 [_ [Hr2 Hr3]]]]]]]
         | [query [raw [st1 [_ [-> [[Hsafe ->] | [Hsafe ->]]]]]]]];
      cbn [St.calls St.push St.record St.trace];
      rewrite ?executedQueries_app, ?pooledQueries_app;
      cbn [executedQueries pooledQueries]; rewrite ?app_nil_r;
      (split; [exact He|]); (split; [exact Hp|]);
      (split;
       [intros ok n t Hin;
        repeat (apply in_app_or in Hin as [Hin | [Hin | []]];
                [|discriminate Hin]);
        now apply Hx|]).
    + repeat split; auto.
    + right. exists query. cbn [safeQuery safetyResult attempt].
      repeat split; auto.
      * apply in_or_app. left. apply in_or_app. right. now left.
      * rewrite <- Hsafe at 1. apply in_or_app. right. now left.
    + split; [exact Hs|].
      intros a sf i ws Hin.
      apply in_app_or in Hin as [Hin | [Hin | []]].
      * apply in_app_or in Hin as [Hin | [Hin | []]];
          [now apply Ht | discriminate].
      * injection Hin as _ <- _ _. now right.
  - intros v st [He [Hp [Hx [Hs Ht]]]] _. split; [exact He|].
    split; [exact Hp|]. split; [exact Hx|]. left.
    split; [exact Hs | exact Ht].
  - repeat split; auto.
Qed.

End LoopShape.

Section AfterTheLoop.

Variable w : World.
Variable question : string.
Variable maxRows : Z.
Variable debug : bool.

Lemma safe_query_not_empty (query : string) :
  safe (checkQuerySafety query) = true -> exists c q, query = String c q.
Proof.
  destruct query as [|c q]; [discriminate|]. intros _. now exists c, q.
Qed.

(** Steps 5 and 6: one call of the execution port, with the accepted
    query; a failure carries the trace, a success carries it under
    [debug] only. *)
Lemma executeAndSummarize_shape (query : string)
      (verdict : option SafetyNode.t) (n : Z) (st : St.t) :
  forall c st',
    executeAndSummarize w question maxRows debug query verdict n st
    = (c, st') ->
    executedQueries (St.calls st')
    = (executedQueries (St.calls st) ++ [query])%list
    /\ generationCalls (St.calls st') = generationCalls (St.calls st)
    /\ (forall e, In e (St.trace st) -> In e (St.trace st'))
    /\ match c with
       | Return r =>
           (AgentResult.success r = false ->
            AgentResult.trace r = Some (St.trace st'))
           /\ (AgentResult.success r = true ->
               AgentResult.trace r
               = if debug then Some (St.trace st') else None)
       | Throw _ => True
       end.
Proof.
  intros c st'. unfold executeAndSummarize, executionNode, executeQuerySafe,
    executeQuery.
  destruct (poolQuery w (limitedQuery query maxRows))
    as [rows rowCount fields | message code detail];
    cbn [negb NodeResult.success NodeResult.data NodeResult.error].
  - destruct (summarizeResults w question _ query) as [summary | error];
      [destruct verdict as [verdict|]|];
      intros H; injection H as <- <-;
      cbn [St.calls St.push St.record St.trace];
      rewrite ?executedQueries_app, ?generationCalls_app;
      cbn [executedQueries generationCalls filter isGeneration];
      rewrite ?app_nil_r;
      (split; [reflexivity|]); (split; [reflexivity|]);
      (split; [intros e He; repeat (apply in_or_app; left); exact He|]);
      try exact I; split; cbn [AgentResult.success AgentResult.trace];
      intros E; try discriminate E; reflexivity.
  - intros H; injection H as <- <-;
      cbn [St.calls St.push St.record St.trace];
      rewrite ?executedQueries_app, ?generationCalls_app;
      cbn [executedQueries generationCalls filter isGeneration];
      rewrite ?app_nil_r;
      (split; [reflexivity|]); (split; [reflexivity|]);
      (split; [intros e He; repeat (apply in_or_app; left); exact He|]).
    split; cbn [AgentResult.success AgentResult.trace];
      intros E; try discriminate E; reflexivity.
Qed.

End AfterTheLoop.

(* ===================================================================== *)
(** ** The orchestrator *)
(* ===================================================================== *)

Section AgentFacts.

Variable w : World.
Variable question : string.
Variable options : Options.

Let maxRetries : Z := orDefault (opt_maxRetries options) 3%Z.
Let maxRows : Z := orDefault (opt_maxRows options) 100%Z.
Let debug : bool := orDefault (opt_debug options) false.

(** The state when the [try] block is entered and schema extraction has
    been called. *)
Let st0 : St.t := St.record CallExtractSchema St.init.

(** A run either stops at schema extraction, or goes through the loop,
    which always comes to an end, and then through what follows it. *)
Lemma sqlQueryAgent_cases :
  (exists message,
      extractSchema w = inl message /\
      sqlQueryAgent w question options = Some (catchBlock message st0))
  \/ (exists schema ex st1,
         extractSchema w = inr schema /\
         refinementLoop w question maxRetries (Z.to_nat maxRetries) schema
           initialVars (St.push (SchemaExtraction true) st0)
         = Some (ex, st1) /\
         sqlQueryAgent w question options
         = Some (complete (afterLoop w question maxRows debug ex st1))).
Proof.
  unfold sqlQueryAgent, runAgent, tryBlock.
  fold maxRetries maxRows debug st0.
  destruct (extractSchema w) as [message | schema].
  - left. exists message. split; reflexivity.
  - right.
    destruct (refinementLoop_returns w question maxRetries schema
                (Z.to_nat maxRetries) initialVars
                (St.push (SchemaExtraction true) st0)) as [ex [st1 H]].
    { cbn [attempt initialVars]. lia. }
    exists schema, ex, st1. rewrite H. repeat split.
Qed.

Lemma sqlQueryAgent_returns :
  exists r st, sqlQueryAgent w question options = Some (r, st).
Proof.
  destruct sqlQueryAgent_cases
    as [[message [_ ->]] | [schema [ex [st1 [_ [_ ->]]]]]].
  - destruct (catchBlock message st0) as [r st]. now exists r, st.
  - destruct (complete (afterLoop w question maxRows debug ex st1))
      as [r st]. now exists r, st.
Qed.

End AgentFacts.

(** C1.  Every run of [sqlQueryAgent] returns, and in it [executionNode] is
    called at most once; a text it is called with is found safe by
    [checkQuerySafety], and the trace of the run has, for one and the same
    attempt, the generation entry of that text and the safety entry of its
    verdict with [safe = true].  When no safety entry of the run is safe,
    [executionNode] and the database are never called, the trace has no
    execution entry and the result carries no data. *)
Theorem execution_only_after_safe_verdict :
  forall (w : World) (question : string) (options : Options),
  exists (r : AgentResult.t) (st : St.t),
    sqlQueryAgent w question options = Some (r, st)
    /\ (List.length (executedQueries (St.calls st)) <= 1)%nat
    /\ (forall query,
           In query (executedQueries (St.calls st)) ->
           safe (checkQuerySafety query) = true /\
           exists a,
             In (QueryGeneration a true (Some query) None) (St.trace st) /\
             In (SafetyCheck a true (issues (checkQuerySafety query))
                   (warnings (checkQuerySafety query))) (St.trace st))
    /\ ((forall a sf i ws,
            In (SafetyCheck a sf i ws) (St.trace st) -> sf = false) ->
        executedQueries (St.calls st) = [] /\
        pooledQueries (St.calls st) = [] /\
        (forall ok n t, ~ In (Execution ok n t) (St.trace st)) /\
        AgentResult.data r = None).
Proof.
  intros w question options.
  destruct (sqlQueryAgent_cases w question options)
    as [[message [_ ->]] | [schema [ex [st1 [_ [Hloop ->]]]]]].
  - eexists. eexists. split; [reflexivity|]. cbn.
    split; [lia|]. split; [intros query []|]. intros _.
    repeat split. intros ok n t H.
    repeat (destruct H as [H | H]; [discriminate H|]). exact H.
  - apply refinementLoop_shape in Hloop.
    cbn [St.calls St.trace St.push St.record St.init app executedQueries
         pooledQueries initialVars safeQuery] in Hloop.
    destruct Hloop as [He [Hp [Hx Hex]]].
    assert (Hnoexec : forall ok n t, ~ In (Execution ok n t) (St.trace st1)).
    { intros ok n t H. apply Hx in H.
      repeat (destruct H as [H | H]; [discriminate H|]). exact H. }
    assert (Hnone :
              forall v,
                let '(r, st) := complete (noSafeQuery v st1) in
                executedQueries (St.calls st) = [] /\
                pooledQueries (St.calls st) = [] /\
                (forall ok n t, ~ In (Execution ok n t) (St.trace st)) /\
                AgentResult.data r = None).
    { intros v. unfold noSafeQuery.
      destruct (safetyResult v); cbn; repeat split; auto.
      intros ok n t H. apply in_app_or in H as [H | [H | []]];
        [exact (Hnoexec _ _ _ H) | discriminate H]. }
    destruct ex as [v | r]; cbn [afterLoop].
    + destruct Hex as [[Hs Htr] | [query [Hs [Hv [Hsafe [Hg Hc]]]]]].
      * rewrite Hs. specialize (Hnone v).
        destruct (complete (noSafeQuery v st1)) as [r st].
        exists r, st. destruct Hnone as [E1 [E2 [E3 E4]]].
        split; [reflexivity|]. rewrite E1. cbn.
        split; [lia|]. split; [intros query []|]. intros _. auto.
      * destruct (safe_query_not_empty query Hsafe) as [c [q Hq]].
        rewrite Hs, Hq.
        destruct (executeAndSummarize w question
                    (orDefault (opt_maxRows options) 100%Z)
                    (orDefault (opt_debug options) false)
                    (String c q) (safetyResult v) (attempt v) st1)
          as [cpl st2] eqn:E.
        apply executeAndSummarize_shape in E.
        destruct E as [E1 [_ [Emono _]]]. rewrite He in E1. cbn in E1.
        assert (Hfinal :
                  exists r st,
                    complete (cpl, st2) = (r, st) /\
                    St.calls st = St.calls st2 /\
                    (forall e, In e (St.trace st2) -> In e (St.trace st))).
        { destruct cpl as [r | message]; cbn.
          - exists r, st2. auto.
          - eexists. eexists. split; [reflexivity|]. cbn.
            split; [reflexivity|]. intros e H. apply in_or_app. now left. }
        destruct Hfinal as [r [st [-> [Hcalls Hmono]]]].
        exists r, st. split; [reflexivity|]. rewrite Hcalls, E1. cbn.
        split; [lia|]. split.
        -- intros query' [<- | []]. rewrite <- Hq. split; [exact Hsafe|].
           exists (attempt v). split; apply Hmono, Emono; assumption.
        -- intros Hall. apply Emono, Hmono, Hall in Hc. discriminate Hc.
    + destruct Hex as [_ [Hdata _]]. cbn. exists r, st1.
      split; [reflexivity|]. rewrite He. cbn.
      split; [lia|]. split; [intros query []|]. intros _. auto.
Qed.

(** C1, on two runs: with three attempts the third text is accepted and is
    the only one executed; with two attempts nothing is executed. *)
Lemma execution_only_after_safe_verdict_witness :
  (exists r st,
      sqlQueryAgent demoWorld "How many users?" (mkOptions None None None)
      = Some (r, st)
      /\ executedQueries (St.calls st) = ["SELECT * FROM users"])
  /\ (exists r st,
         sqlQueryAgent demoWorld "How many users?"
           (mkOptions (Some 2%Z) None None) = Some (r, st)
         /\ executedQueries (St.calls st) = []
         /\ AgentResult.data r = None).
Proof.
  split.
  - destruct (execution_only_after_safe_verdict demoWorld "How many users?"
                (mkOptions None None None)) as [r [st [Hrun _]]].
    exists r, st. split; [exact Hrun|].
    vm_compute in Hrun. injection Hrun as _ <-. reflexivity.
  - destruct (execution_only_after_safe_verdict demoWorld "How many users?"
                (mkOptions (Some 2%Z) None None))
      as [r [st [Hrun [_ [_ Hnone]]]]].
    exists r, st. split; [exact Hrun|].
    assert (Hall : forall a sf i ws,
               In (SafetyCheck a sf i ws) (St.trace st) -> sf = false).
    { vm_compute in Hrun. injection Hrun as _ <-. cbn.
      intros a sf i ws H.
      repeat (destruct H as [H | H];
              [first [discriminate H | now injection H as _ <- _ _]|]).
      destruct H. }
    destruct (Hnone Hall) as [E1 [_ [_ E2]]]. split; assumption.
Defined.

Section ResultFacts.

Lemma complete_trace (debug : bool) (cpl : Completion AgentResult.t)
      (st2 : St.t) :
  match cpl with
  | Return r =>
      (AgentResult.success r = false ->
       AgentResult.trace r = Some (St.trace st2))
      /\ (AgentResult.success r = true ->
          AgentResult.trace r = if debug then Some (St.trace st2) else None)
  | Throw _ => True
  end ->
  exists r st,
    complete (cpl, st2) = (r, st)
    /\ (AgentResult.success r = false ->
        AgentResult.trace r = Some (St.trace st))
    /\ (AgentResult.success r = true ->
        AgentResult.trace r = if debug then Some (St.trace st) else None).
Proof.
  destruct cpl as [r | message]; cbn.
  - intros H. now exists r, st2.
  - intros _. eexists. eexists. split; [reflexivity|]. cbn.
    split; [reflexivity | discriminate].
Qed.

End ResultFacts.

(** C8, as the specification words it, fails: with [debug] off and the
    model out of reach, the failure that is returned carries the trace. *)
Lemma failure_carries_trace_without_debug :
  ~ (forall (w : World) (question : string) (options : Options)
            (r : AgentResult.t) (st : St.t),
        orDefault (opt_debug options) false = false ->
        sqlQueryAgent w question options = Some (r, st) ->
        AgentResult.trace r = None).
Proof.
  intros H.
  specialize (H offlineWorld "How many users?" (mkOptions None None None)
                _ _ eq_refl eq_refl).
  discriminate H.
Qed.

(** C8, amended.  Every run returns a result.  A successful result carries
    the trace when [debug] is set and no trace otherwise; a failure of any
    kind carries the trace whatever [debug] is. *)
Theorem trace_of_result :
  forall (w : World) (question : string) (options : Options),
  exists (r : AgentResult.t) (st : St.t),
    sqlQueryAgent w question options = Some (r, st)
    /\ (AgentResult.success r = true ->
        AgentResult.trace r
        = if orDefault (opt_debug options) false
          then Some (St.trace st) else None)
    /\ (AgentResult.success r = false ->
        AgentResult.trace r = Some (St.trace st)).
Proof.
  intros w question options.
  enough (exists r st,
             sqlQueryAgent w question options = Some (r, st)
             /\ (AgentResult.success r = false ->
                 AgentResult.trace r = Some (St.trace st))
             /\ (AgentResult.success r = true ->
                 AgentResult.trace r
                 = if orDefault (opt_debug options) false
                   then Some (St.trace st) else None))
    as [r [st [H1 [H2 H3]]]] by (exists r, st; auto).
  destruct (sqlQueryAgent_cases w question options)
    as [[message [_ ->]] | [schema [ex [st1 [_ [Hloop ->]]]]]].
  - eexists. eexists. split; [reflexivity|]. cbn.
    split; [reflexivity | discriminate].
  - apply refinementLoop_shape in Hloop. destruct Hloop as [_ [_ [_ Hex]]].
    match goal with
    | |- exists r st, Some (complete ?c) = _ /\ _ =>
        destruct c as [cpl st2] eqn:E
    end.
    destruct (complete_trace (orDefault (opt_debug options) false) cpl st2)
      as [r [st [-> H]]]; [|now exists r, st].
    destruct ex as [v | r]; cbn [afterLoop] in E.
    + destruct (safeQuery v) as [[|c q]|].
      * unfold noSafeQuery in E. destruct (safetyResult v);
          injection E as <- <-; cbn; [split; [reflexivity | discriminate]
                                     | exact I].
      * apply executeAndSummarize_shape in E.
        destruct E as [_ [_ [_ E]]]. exact E.
      * unfold noSafeQuery in E. destruct (safetyResult v);
          injection E as <- <-; cbn; [split; [reflexivity | discriminate]
                                     | exact I].
    + injection E as <- <-. destruct Hex as [Hs [_ Ht]].
      split; [intros _; exact Ht | rewrite Hs; discriminate].
Qed.

(** C8, on two runs without [debug]: the success has no trace, the
    exhausted-budget failure has the trace of the run. *)
Lemma trace_of_result_witness :
  (exists r st,
      sqlQueryAgent demoWorld "How many users?" (mkOptions None None None)
      = Some (r, st)
      /\ AgentResult.success r = true /\ AgentResult.trace r = None)
  /\ (exists r st,
         sqlQueryAgent demoWorld "How many users?"
           (mkOptions (Some 1%Z) None (Some false)) = Some (r, st)
         /\ AgentResult.success r = false
         /\ AgentResult.trace r = Some (St.trace st)).
Proof.
  split.
  - destruct (trace_of_result demoWorld "How many users?"
                (mkOptions None None None)) as [r [st [Hrun [Hok _]]]].
    exists r, st. split; [exact Hrun|].
    assert (Hs : AgentResult.success r = true).
    { vm_compute in Hrun. injection Hrun as <- _. reflexivity. }
    split; [exact Hs | exact (Hok Hs)].
  - destruct (trace_of_result demoWorld "How many users?"
                (mkOptions (Some 1%Z) None (Some false)))
      as [r [st [Hrun [_ Hko]]]].
    exists r, st. split; [exact Hrun|].
    assert (Hs : AgentResult.success r = false).
    { vm_compute in Hrun. injection Hrun as <- _. reflexivity. }
    split; [exact Hs | exact (Hko Hs)].
Defined.

(** C10.  With [maxRetries <= 0] and a schema in hand, the loop body never
    runs and the model is never called; reading [issues] of the [null]
    verdict throws, the [catch] block takes over, and the result is the
    generic failure "Unexpected error in agent execution" with the trace,
    not the exhausted-budget failure. *)
Theorem no_retry_budget_gives_unexpected_error :
  forall (w : World) (question : string) (options : Options)
         (schema : Schema),
    (orDefault (opt_maxRetries options) 3 <= 0)%Z ->
    extractSchema w = inr schema ->
    exists (r : AgentResult.t) (st : St.t),
      sqlQueryAgent w question options = Some (r, st)
      /\ St.calls st = [CallExtractSchema]
      /\ generationCalls (St.calls st) = []
      /\ St.trace st
         = [SchemaExtraction true; ErrorStep (nullPropertyMessage "issues")]
      /\ AgentResult.success r = false
      /\ AgentResult.error r = Some unexpectedError
      /\ AgentResult.details r
         = Some (DetailText (nullPropertyMessage "issues"))
      /\ AgentResult.trace r = Some (St.trace st)
      /\ AgentResult.attempts r = None
      /\ AgentResult.lastIssues r = None
      /\ AgentResult.error r <> Some exhaustedError.
Proof.
  intros w question options schema Hle Hschema.
  unfold sqlQueryAgent, runAgent, tryBlock. rewrite Hschema.
  assert (Hfuel : Z.to_nat (orDefault (opt_maxRetries options) 3%Z) = 0%nat)
    by lia.
  rewrite Hfuel. cbn [refinementLoop initialVars attempt].
  destruct (Z.ltb_spec 0 (orDefault (opt_maxRetries options) 3%Z))
    as [Hlt|_];
    [lia|].
  eexists. eexists. split; [reflexivity|]. cbn.
  repeat split. discriminate.
Qed.

(** C10, with [maxRetries = 0]. *)
Lemma no_retry_budget_witness :
  exists r st,
    sqlQueryAgent demoWorld "How many users?" (mkOptions (Some 0%Z) None None)
    = Some (r, st)
    /\ generationCalls (St.calls st) = []
    /\ AgentResult.error r = Some unexpectedError.
Proof.
  destruct (no_retry_budget_gives_unexpected_error demoWorld
              "How many users?" (mkOptions (Some 0%Z) None None) demoSchema)
    as [r [st [Hrun [_ [Hgen [_ [_ [Herr _]]]]]]]].
  - cbn. lia.
  - reflexivity.
  - exists r, st. auto.
Defined.

Section Exhaustion.

Variable w : World.
Variable question : string.
Variable maxRetries : Z.
Variable schema : Schema.

(** Within the budget the model always answers, and never with a query
    the validator accepts. *)
Hypothesis always_unsafe :
  forall i previousAttempt feedback,
    (i < Z.to_nat maxRetries)%nat ->
  exists query raw,
    generateQuery w i question schema previousAttempt feedback
    = GenOk query raw
    /\ safe (checkQuerySafety query) = false.

Lemma refinementLoop_exhausts (fuel : nat) (v0 : Vars) (st0 : St.t)
      (ex : LoopExit) (st' : St.t) :
  safeQuery v0 = None ->
  (0 <= attempt v0 < maxRetries)%Z ->
  List.length (generationCalls (St.calls st0)) = Z.to_nat (attempt v0) ->
  refinementLoop w question maxRetries fuel schema v0 st0 = Some (ex, st') ->
  exists v query previousAttempt feedback raw,
    ex = LoopEnd v
    /\ safeQuery v = None
    /\ attempt v = maxRetries
    /\ safetyResult v = Some (safetyCheckNode query)
    /\ last (St.calls st') CallExtractSchema
       = CallGenerateQuery question schema previousAttempt feedback
           (GenOk query raw)
    /\ List.length (generationCalls (St.calls st')) = Z.to_nat maxRetries.
Proof.
  intros Hs0 Ha0 Hl0 Hloop.
  pose (seen := fun (v : Vars) (st : St.t) =>
          exists query previousAttempt feedback raw,
            safetyResult v = Some (safetyCheckNode query)
            /\ last (St.calls st) CallExtractSchema
               = CallGenerateQuery question schema previousAttempt feedback
                   (GenOk query raw)).
  enough (exists v,
             ex = LoopEnd v /\ safeQuery v = None /\ attempt v = maxRetries
             /\ List.length (generationCalls (St.calls st'))
                = Z.to_nat (attempt v)
             /\ (attempt v = attempt v0 \/ seen v st'))
    as [v [-> [Hs [Ha [Hl [Hv | Hv]]]]]].
  { lia. }
  { destruct Hv as [query [p [f [raw [Hv Hlast]]]]].
    exists v, query, p, f, raw. rewrite <- Ha. repeat split; auto. }
  revert Hloop.
  apply (refinementLoop_rule w question maxRetries schema
           (fun v st =>
              safeQuery v = None
              /\ (0 <= attempt v <= maxRetries)%Z
              /\ List.length (generationCalls (St.calls st))
                 = Z.to_nat (attempt v)
              /\ (attempt v = attempt v0 \/ seen v st))
           (fun ex st' =>
              exists v,
                ex = LoopEnd v /\ safeQuery v = None
                /\ attempt v = maxRetries
                /\ List.length (generationCalls (St.calls st'))
                   = Z.to_nat (attempt v)
                /\ (attempt v = attempt v0 \/ seen v st'))).
  - intros v st [Hs [Ha [Hl Hv]]] Hlt.
    destruct (always_unsafe (List.length (generationCalls (St.calls st)))
                (previousQuery v) (safetyFeedback v))
      as [query [raw [Hgen Hunsafe]]]; [lia|].
    destruct (loopBody_cases w question schema v st)
      as [[error [r [Hgen' _]]]
         | [query' [raw' [st1 [Hgen' [-> [[Hsafe _] | [_ ->]]]]]]]];
      rewrite Hgen in Hgen'; try discriminate Hgen'.
    + injection Hgen' as <- <-. rewrite Hunsafe in Hsafe. discriminate.
    + injection Hgen' as <- <-.
      cbn [safeQuery attempt safetyResult St.calls St.push St.record].
      split; [exact Hs|]. split; [lia|]. split.
      * rewrite generationCalls_app, length_app. cbn. rewrite Hl. lia.
      * right. unfold seen.
        exists query, (previousQuery v), (safetyFeedback v), raw.
        cbn [safetyResult St.calls St.push St.record].
        split; [reflexivity|]. rewrite last_last, Hgen. reflexivity.
  - intros v st [Hs [Ha [Hl Hv]]] Hge. exists v.
    repeat split; auto; lia.
  - repeat split; auto; lia.
Qed.

End Exhaustion.

(** C5.  With a budget of [maxRetries >= 1], a schema in hand and a model
    that answers each of the first [maxRetries] calls with a query the
    validator rejects,
    [sqlQueryAgent] returns the exhausted-budget failure: [attempts] is
    [maxRetries], [lastIssues] is the issue list of the verdict on the last
    query generated, exactly [maxRetries] generation calls were made and
    nothing was executed.  Its reason differs from the reasons of the
    generation, execution, summarization and unexpected failures. *)
Theorem exhausted_budget_failure :
  forall (w : World) (question : string) (options : Options)
         (schema : Schema),
    (1 <= orDefault (opt_maxRetries options) 3)%Z ->
    extractSchema w = inr schema ->
    (forall i previousAttempt feedback,
        (i < Z.to_nat (orDefault (opt_maxRetries options) 3%Z))%nat ->
        exists query raw,
          generateQuery w i question schema previousAttempt feedback
          = GenOk query raw
          /\ safe (checkQuerySafety query) = false) ->
    exists (r : AgentResult.t) (st : St.t)
           (lastQuery : string) (previousAttempt feedback : option string)
           (raw : string),
      sqlQueryAgent w question options = Some (r, st)
      /\ last (St.calls st) CallExtractSchema
         = CallGenerateQuery question schema previousAttempt feedback
             (GenOk lastQuery raw)
      /\ AgentResult.success r = false
      /\ AgentResult.error r = Some exhaustedError
      /\ AgentResult.attempts r
         = Some (orDefault (opt_maxRetries options) 3%Z)
      /\ AgentResult.lastIssues r
         = Some (issues (checkQuerySafety lastQuery))
      /\ AgentResult.trace r = Some (St.trace st)
      /\ List.length (generationCalls (St.calls st))
         = Z.to_nat (orDefault (opt_maxRetries options) 3%Z)
      /\ executedQueries (St.calls st) = []
      /\ exhaustedError <> generationError
      /\ exhaustedError <> executionError
      /\ exhaustedError <> summaryError
      /\ exhaustedError <> unexpectedError.
Proof.
  intros w question options schema Hn Hschema Hunsafe.
  destruct (sqlQueryAgent_cases w question options)
    as [[message [Hs _]] | [schema' [ex [st1 [Hs [Hloop ->]]]]]];
    rewrite Hschema in Hs; [discriminate Hs|]. injection Hs as <-.
  pose proof (refinementLoop_shape _ _ _ _ _ _ _ _ _ Hloop)
    as [He _].
  apply (refinementLoop_exhausts w question _ schema Hunsafe) in Hloop;
    [| reflexivity | cbn; lia | reflexivity].
  destruct Hloop as [v [query [p [f [raw [-> [Hsafe [Ha [Hv [Hlast Hlen]]]]]]]]]].
  exists {| AgentResult.success := false;
            AgentResult.error := Some exhaustedError;
            AgentResult.details := None;
            AgentResult.attempts := Some (attempt v);
            AgentResult.lastIssues := Some (issues (checkQuerySafety query));
            AgentResult.query := None;
            AgentResult.data := None;
            AgentResult.answer := None;
            AgentResult.metadata := None;
            AgentResult.trace := Some (St.trace st1) |}, st1, query, p, f, raw.
  split.
  { cbn [afterLoop]. rewrite Hsafe. unfold noSafeQuery. rewrite Hv.
    reflexivity. }
  cbn [AgentResult.success AgentResult.error AgentResult.attempts
       AgentResult.lastIssues AgentResult.trace].
  rewrite Ha. repeat split; auto; discriminate.
Qed.

(** C5, with a budget of two attempts: the DELETE and the stacked DROP are
    both rejected. *)
Lemma exhausted_budget_witness :
  exists r st,
    sqlQueryAgent
      (mkWorld (extractSchema demoWorld)
         (fun _ _ _ _ _ => GenOk "DELETE FROM users" "DELETE FROM users;")
         (poolQuery demoWorld) (elapsed demoWorld)
         (summarizeResults demoWorld))
      "Remove the users" (mkOptions (Some 2%Z) None None) = Some (r, st)
    /\ AgentResult.error r = Some exhaustedError
    /\ AgentResult.attempts r = Some 2%Z
    /\ AgentResult.lastIssues r
       = Some [selectIssue; keywordIssue "DELETE"].
Proof.
  destruct (exhausted_budget_failure
              (mkWorld (extractSchema demoWorld)
                 (fun _ _ _ _ _ =>
                    GenOk "DELETE FROM users" "DELETE FROM users;")
                 (poolQuery demoWorld) (elapsed demoWorld)
                 (summarizeResults demoWorld))
              "Remove the users" (mkOptions (Some 2%Z) None None) demoSchema)
    as [r [st [q [p [f [raw [Hrun [Hlast [_ [Herr [Hatt [Hiss _]]]]]]]]]]]].
  - cbn. lia.
  - reflexivity.
  - intros i p f _. exists "DELETE FROM users", "DELETE FROM users;".
    split; reflexivity.
  - exists r, st. split; [exact Hrun|]. split; [exact Herr|].
    split; [exact Hatt|]. rewrite Hiss.
    vm_compute in Hrun. injection Hrun as _ <-. cbn in Hlast.
    injection Hlast; intros; subst. reflexivity.
Defined.

(* ===================================================================== *)
(** ** Feedback from one attempt to the next *)
(* ===================================================================== *)

Section Feedback.

Lemma feedbackChain_cons (p f : option string) (q : string) (s : Schema)
      (p' f' : option string) (result : GenResult) (rest : list Call) :
  feedbackChain p f (CallGenerateQuery q s p' f' result :: rest) <->
  p' = p /\ f' = f /\ (rest = [] \/ rejectedThen result rest).
Proof.
  unfold rejectedThen. destruct rest as [|c rest]; cbn [feedbackChain].
  - tauto.
  - split; intros [H1 [H2 H3]]; (split; [exact H1|]); (split; [exact H2|]).
    + now right.
    + destruct H3 as [H3 | H3]; [discriminate H3 | exact H3].
Qed.

Lemma feedbackChain_prefix (calls : list Call) :
  forall (p f : option string) (c : Call),
    feedbackChain p f (calls ++ [c]) -> feedbackChain p f calls.
Proof.
  induction calls as [|x calls IH]; intros p f c H; [exact I|].
  destruct x; try (destruct H; fail).
  rewrite <- app_comm_cons in H.
  apply feedbackChain_cons in H as [H1 [H2 [H3 | H3]]].
  - now destruct (app_cons_not_nil _ _ _ (eq_sym H3)).
  - apply feedbackChain_cons. split; [exact H1|]. split; [exact H2|].
    destruct calls as [|y calls]; [now left | right].
    destruct H3 as [query [raw [Hr [Hu Hc]]]]. exists query, raw.
    split; [exact Hr|]. split; [exact Hu|]. exact (IH _ _ _ Hc).
Qed.

(** After a call that produced a rejected query, a call that receives this
    query and the joined issues of its verdict extends the chain. *)
Lemma feedbackChain_snoc (calls : list Call) :
  forall (p f : option string) (q : string) (s : Schema)
         (p0 f0 : option string) (query raw : string)
         (q' : string) (s' : Schema) (result' : GenResult),
    feedbackChain p f
      (calls ++ [CallGenerateQuery q s p0 f0 (GenOk query raw)]) ->
    safe (checkQuerySafety query) = false ->
    feedbackChain p f
      ((calls ++ [CallGenerateQuery q s p0 f0 (GenOk query raw)])
       ++ [CallGenerateQuery q' s' (Some query)
             (Some (join "; " (issues (checkQuerySafety query)))) result']).
Proof.
  induction calls as [|x calls IH];
    intros p f q s p0 f0 query raw q' s' result' H Hu.
  - cbn [app] in *. apply feedbackChain_cons in H as [H1 [H2 _]].
    apply feedbackChain_cons. split; [exact H1|]. split; [exact H2|].
    right. exists query, raw. split; [reflexivity|]. split; [exact Hu|].
    apply feedbackChain_cons. auto.
  - destruct x; try (destruct H; fail).
    rewrite <- !app_comm_cons in *.
    apply feedbackChain_cons in H as [H1 [H2 [H3 | H3]]].
    + now destruct (app_cons_not_nil _ _ _ (eq_sym H3)).
    + apply feedbackChain_cons. split; [exact H1|]. split; [exact H2|].
      right. destruct H3 as [query0 [raw0 [Hr [Hu0 Hc]]]].
      exists query0, raw0. split; [exact Hr|]. split; [exact Hu0|].
      now apply IH.
Qed.

Variable w : World.
Variable question : string.
Variable maxRetries : Z.
Variable schema : Schema.

Lemma refinementLoop_feedback (fuel : nat) (v0 : Vars) (st0 : St.t)
      (ex : LoopExit) (st' : St.t) :
  (forall q s result,
      feedbackChain None None
        (generationCalls (St.calls st0)
         ++ [CallGenerateQuery q s (previousQuery v0) (safetyFeedback v0)
               result])) ->
  refinementLoop w question maxRetries fuel schema v0 st0 = Some (ex, st') ->
  feedbackChain None None (generationCalls (St.calls st')).
Proof.
  apply (refinementLoop_rule w question maxRetries schema
           (fun v st =>
              forall q s result,
                feedbackChain None None
                  (generationCalls (St.calls st)
                   ++ [CallGenerateQuery q s (previousQuery v)
                         (safetyFeedback v) result]))
           (fun _ st' =>
              feedbackChain None None (generationCalls (St.calls st')))).
  - intros v st HP _.
    destruct (loopBody_cases w question schema v st)
      as [[error [r [_ [-> _]]]]
         | [query [raw [st1 [Hgen [-> [[_ ->] | [Hu ->]]]]]]]];
      cbn [St.calls St.push St.record previousQuery safetyFeedback];
      try intros q s result; rewrite generationCalls_app;
      cbn [generationCalls filter isGeneration]; try apply HP.
    rewrite Hgen. apply feedbackChain_snoc; [|exact Hu].
    rewrite <- Hgen. apply HP.
  - intros v st HP _.
    exact (feedbackChain_prefix _ _ _ _ (HP question schema (GenFailed ""))).
Qed.

(** One pass of the loop on a rejected query, and on an accepted one. *)
Lemma refinementLoop_rejected (fuel : nat) (v : Vars) (st : St.t)
      (query raw : string) :
  (attempt v < maxRetries)%Z ->
  generateQuery w (List.length (generationCalls (St.calls st))) question
    schema (previousQuery v) (safetyFeedback v) = GenOk query raw ->
  safe (checkQuerySafety query) = false ->
  refinementLoop w question maxRetries (S fuel) schema v st
  = refinementLoop w question maxRetries fuel schema
      {| attempt := attempt v + 1;
         previousQuery := Some query;
         safetyFeedback := Some (join "; " (issues (checkQuerySafety query)));
         safeQuery := safeQuery v;
         safetyResult := Some (safetyCheckNode query) |}
      (St.push
         (SafetyCheck (attempt v + 1) false (issues (checkQuerySafety query))
            (warnings (checkQuerySafety query)))
         (St.push (QueryGeneration (attempt v + 1) true (Some query) None)
            (St.record
               (CallGenerateQuery question schema (previousQuery v)
                  (safetyFeedback v) (GenOk query raw)) st))).
Proof.
  intros Hlt Hgen Hu. cbn [refinementLoop].
  destruct (Z.ltb_spec (attempt v) maxRetries); [|lia].
  destruct (loopBody_cases w question schema v st)
    as [[error [r [Hgen' _]]]
       | [query' [raw' [st1 [Hgen' [-> [[Hs _] | [_ ->]]]]]]]];
    rewrite Hgen in Hgen'; try discriminate Hgen';
    injection Hgen' as <- <-.
  - rewrite Hu in Hs. discriminate Hs.
  - rewrite Hgen, Hu. reflexivity.
Qed.

Lemma refinementLoop_accepted (fuel : nat) (v : Vars) (st : St.t)
      (query raw : string) :
  (attempt v < maxRetries)%Z ->
  generateQuery w (List.length (generationCalls (St.calls st))) question
    schema (previousQuery v) (safetyFeedback v) = GenOk query raw ->
  safe (checkQuerySafety query) = true ->
  refinementLoop w question maxRetries (S fuel) schema v st
  = Some
      (LoopEnd
         {| attempt := attempt v + 1;
            previousQuery := previousQuery v;
            safetyFeedback := safetyFeedback v;
            safeQuery := Some query;
            safetyResult := Some (safetyCheckNode query) |},
       St.push
         (SafetyCheck (attempt v + 1) true (issues (checkQuerySafety query))
            (warnings (checkQuerySafety query)))
         (St.push (QueryGeneration (attempt v + 1) true (Some query) None)
            (St.record
               (CallGenerateQuery question schema (previousQuery v)
                  (safetyFeedback v) (GenOk query raw)) st))).
Proof.
  intros Hlt Hgen Hs. cbn [refinementLoop].
  destruct (Z.ltb_spec (attempt v) maxRetries); [|lia].
  destruct (loopBody_cases w question schema v st)
    as [[error [r [Hgen' _]]]
       | [query' [raw' [st1 [Hgen' [-> [[_ ->] | [Hu _]]]]]]]];
    rewrite Hgen in Hgen'; try discriminate Hgen';
    injection Hgen' as <- <-.
  - rewrite Hgen, Hs. reflexivity.
  - rewrite Hu in Hs. discriminate Hs.
Qed.

End Feedback.

Section AgentFeedback.

Variable w : World.
Variable question : string.
Variable options : Options.

Lemma afterLoop_generationCalls (ex : LoopExit) (st1 : St.t) :
  generationCalls
    (St.calls
       (snd (complete
               (afterLoop w question (orDefault (opt_maxRows options) 100%Z)
                  (orDefault (opt_debug options) false) ex st1))))
  = generationCalls (St.calls st1).
Proof.
  assert (Hno : forall v,
             generationCalls (St.calls (snd (complete (noSafeQuery v st1))))
             = generationCalls (St.calls st1)).
  { intros v. unfold noSafeQuery. destruct (safetyResult v); reflexivity. }
  destruct ex as [v | r]; cbn [afterLoop]; [|reflexivity].
  destruct (safeQuery v) as [[|c q]|]; try apply Hno.
  destruct (executeAndSummarize w question
              (orDefault (opt_maxRows options) 100%Z)
              (orDefault (opt_debug options) false)
              (String c q) (safetyResult v) (attempt v) st1)
    as [cpl st2] eqn:E.
  apply executeAndSummarize_shape in E. destruct E as [_ [E _]].
  destruct cpl; cbn; exact E.
Qed.

End AgentFeedback.

(** C6.  In every run the generation calls follow the feedback
    discipline: the first call receives no previous attempt and no
    feedback; a further call is made only after a query the validator
    rejected, and it receives that query as the previous attempt and, as
    feedback, the issues of its verdict joined by "; " (the warnings are
    no part of it).  In the scenario with a budget of three, attempts one
    and two rejected, attempt three accepted and the execution and
    summarization collaborators answering, the result is a success with
    three attempts, and the three generation calls are the ones
    displayed: the third receives the second query and the joined issues
    of the second verdict. *)
Theorem feedback_is_joined_issues :
  forall (w : World) (question : string) (options : Options),
    (exists (r : AgentResult.t) (st : St.t),
        sqlQueryAgent w question options = Some (r, st)
        /\ feedbackChain None None (generationCalls (St.calls st)))
    /\ (forall (schema : Schema) (q1 q2 q3 raw1 raw2 raw3 : string)
               (rows : list Row) (rowCount : Z)
               (fields : option (list Field)) (summary : string),
           orDefault (opt_maxRetries options) 3%Z = 3%Z ->
           extractSchema w = inr schema ->
           generateQuery w 0 question schema None None = GenOk q1 raw1 ->
           generateQuery w 1 question schema (Some q1)
             (Some (join "; " (issues (checkQuerySafety q1))))
           = GenOk q2 raw2 ->
           generateQuery w 2 question schema (Some q2)
             (Some (join "; " (issues (checkQuerySafety q2))))
           = GenOk q3 raw3 ->
           safe (checkQuerySafety q1) = false ->
           safe (checkQuerySafety q2) = false ->
           safe (checkQuerySafety q3) = true ->
           poolQuery w
             (limitedQuery q3 (orDefault (opt_maxRows options) 100%Z))
           = PgRows rows rowCount fields ->
           (forall data, summarizeResults w question data q3
                         = SummaryOk summary) ->
           exists (r : AgentResult.t) (st : St.t),
             sqlQueryAgent w question options = Some (r, st)
             /\ AgentResult.success r = true
             /\ AgentResult.query r = Some q3
             /\ AgentResult.metadata r
                = Some {| Metadata.attempts := 3;
                          Metadata.warnings :=
                            warnings (checkQuerySafety q3) |}
             /\ generationCalls (St.calls st)
                = [ CallGenerateQuery question schema None None
                      (GenOk q1 raw1);
                    CallGenerateQuery question schema (Some q1)
                      (Some (join "; " (issues (checkQuerySafety q1))))
                      (GenOk q2 raw2);
                    CallGenerateQuery question schema (Some q2)
                      (Some (join "; " (issues (checkQuerySafety q2))))
                      (GenOk q3 raw3) ]).
Proof.
  intros w question options. split.
  - destruct (sqlQueryAgent_cases w question options)
      as [[message [_ ->]] | [schema [ex [st1 [_ [Hloop ->]]]]]].
    + eexists. eexists. split; [reflexivity|]. exact I.
    + apply refinementLoop_feedback in Hloop.
      * pose proof (afterLoop_generationCalls w question options ex st1)
          as Hgen.
        destruct (complete
                    (afterLoop w question
                       (orDefault (opt_maxRows options) 100%Z)
                       (orDefault (opt_debug options) false) ex st1))
          as [r st].
        exists r, st. split; [reflexivity|].
        cbn [snd] in Hgen. rewrite Hgen. exact Hloop.
      * intros q s result. cbn. auto.
  - intros schema q1 q2 q3 raw1 raw2 raw3 rows rowCount fields summary
           Hmax Hschema Hg1 Hg2 Hg3 Hu1 Hu2 Hs3 Hpool Hsum.
    destruct (safe_query_not_empty q3 Hs3) as [c [q Hq3]]. subst q3.
    unfold sqlQueryAgent, runAgent, tryBlock.
    rewrite Hmax, Hschema. change (Z.to_nat 3) with 3%nat.
    rewrite (refinementLoop_rejected w question 3 schema _ _ _ q1 raw1);
      [| cbn; lia | exact Hg1 | exact Hu1].
    rewrite (refinementLoop_rejected w question 3 schema _ _ _ q2 raw2);
      [| cbn; lia | exact Hg2 | exact Hu2].
    rewrite (refinementLoop_accepted w question 3 schema _ _ _
               (String c q) raw3);
      [| cbn; lia | exact Hg3 | exact Hs3].
    cbn [option_map afterLoop safeQuery safetyResult attempt initialVars].
    unfold executeAndSummarize, executionNode, executeQuerySafe,
      executeQuery.
    rewrite Hpool.
    cbn [negb NodeResult.success NodeResult.data]. rewrite Hsum.
    eexists. eexists. split; [reflexivity|].
    cbn. repeat split.
Qed.

(** C6, on the run of the example world: the third call's feedback is the
    issue list of the verdict on the second query, joined. *)
Lemma feedback_is_joined_issues_witness :
  exists r st,
    sqlQueryAgent demoWorld "How many users?" (mkOptions None None None)
    = Some (r, st)
    /\ AgentResult.success r = true
    /\ nth_error (generationCalls (St.calls st)) 2
       = Some (CallGenerateQuery "How many users?" demoSchema
                 (Some "SELECT 1; DROP TABLE users")
                 (Some (join "; "
                          (issues (checkQuerySafety
                                     "SELECT 1; DROP TABLE users"))))
                 (GenOk "SELECT * FROM users" "SELECT * FROM users")).
Proof.
  destruct (feedback_is_joined_issues demoWorld "How many users?"
              (mkOptions None None None)) as [_ H].
  destruct (H demoSchema "DELETE FROM users" "SELECT 1; DROP TABLE users"
              "SELECT * FROM users" "DELETE FROM users;"
              "SELECT 1; DROP TABLE users" "SELECT * FROM users"
              [[("id", "1"); ("name", "Siham")]] 1%Z None
              "There is one user.")
    as [r [st [Hrun [Hok [_ [_ Hcalls]]]]]];
    try reflexivity.
  exists r, st. split; [exact Hrun|]. split; [exact Hok|].
  rewrite Hcalls. reflexivity.
Defined.

(* ===================================================================== *)
(** ** The orchestrator: what a run can end with *)
(* ===================================================================== *)

Section RunOutcomes.

Local Open Scope list_scope.

Variable w : World.
Variable question : string.
Variable maxRetries : Z.
Variable schema : Schema.

(** The state in which the loop is entered. *)
Let entry : St.t :=
  St.push (SchemaExtraction true) (St.record CallExtractSchema St.init).

(** The calls the loop has made: rejected answers, then possibly a last
    call that failed or whose answer was accepted. *)
Lemma refinementLoop_calls (fuel : nat) (ex : LoopExit) (st' : St.t) :
  refinementLoop w question maxRetries fuel schema initialVars entry
  = Some (ex, st') ->
  exists gens,
    Forall (rejectedCall question schema) gens
    /\ match ex with
       | LoopReturn r =>
           exists p f error,
             St.calls st'
             = CallExtractSchema
               :: gens
               ++ [CallGenerateQuery question schema p f (GenFailed error)]
             /\ (List.length gens < Z.to_nat maxRetries)%nat
             /\ r = generationFailure error (St.trace st')
       | LoopEnd v =>
           (safeQuery v = None /\ St.calls st' = CallExtractSchema :: gens /\
            ((gens = [] /\ safetyResult v = None /\ (maxRetries <= 0)%Z /\
              st' = entry)
             \/ (exists gens0 p f query raw,
                    gens
                    = (gens0 ++ [CallGenerateQuery question schema p f (GenOk query raw)])%list
                    /\ safetyResult v = Some (safetyCheckNode query)
                    /\ attempt v = maxRetries
                    /\ Z.of_nat (List.length gens) = maxRetries)))
           \/ (exists p f query raw,
                  St.calls st'
                  = CallExtractSchema
                    :: gens
                    ++ [CallGenerateQuery question schema p f
                          (GenOk query raw)]
                  /\ (List.length gens < Z.to_nat maxRetries)%nat
                  /\ safe (checkQuerySafety query) = true
                  /\ safeQuery v = Some query
                  /\ safetyResult v = Some (safetyCheckNode query)
                  /\ attempt v = Z.of_nat (S (List.length gens)))
       end.
Proof.
  apply (refinementLoop_rule w question maxRetries schema
           (fun v st =>
              safeQuery v = None
              /\ exists gens,
                  Forall (rejectedCall question schema) gens
                  /\ St.calls st = CallExtractSchema :: gens
                  /\ attempt v = Z.of_nat (List.length gens)
                  /\ ((gens = [] /\ safetyResult v = None /\ st = entry)
                      \/ (exists gens0 p f query raw,
                             gens
                             = (gens0 ++ [CallGenerateQuery question schema p f (GenOk query raw)])%list
                             /\ safetyResult v
                                = Some (safetyCheckNode query)
                             /\ (attempt v <= maxRetries)%Z)))
           (fun ex st' =>
              exists gens,
                Forall (rejectedCall question schema) gens
                /\ match ex with
                   | LoopReturn r =>
                       exists p f error,
                         St.calls st'
                         = CallExtractSchema
                           :: gens
                           ++ [CallGenerateQuery question schema p f
                                 (GenFailed error)]
                         /\ (List.length gens < Z.to_nat maxRetries)%nat
                         /\ r = generationFailure error (St.trace st')
                   | LoopEnd v =>
                       (safeQuery v = None /\
                        St.calls st' = CallExtractSchema :: gens /\
                        ((gens = [] /\ safetyResult v = None /\
                          (maxRetries <= 0)%Z /\ st' = entry)
                         \/ (exists gens0 p f query raw,
                                gens
                                = (gens0 ++ [CallGenerateQuery question schema p f (GenOk query raw)])%list
                                /\ safetyResult v
                                   = Some (safetyCheckNode query)
                                /\ attempt v = maxRetries
                                /\ Z.of_nat (List.length gens) = maxRetries)))
                       \/ (exists p f query raw,
                              St.calls st'
                              = CallExtractSchema
                                :: gens
                                ++ [CallGenerateQuery question schema p f
                                      (GenOk query raw)]
                              /\ (List.length gens < Z.to_nat maxRetries)%nat
                              /\ safe (checkQuerySafety query) = true
                              /\ safeQuery v = Some query
                              /\ safetyResult v
                                 = Some (safetyCheckNode query)
                              /\ attempt v
                                 = Z.of_nat (S (List.length gens)))
                   end)).
  - intros v st [Hs [gens [Hrej [Hcalls [Hatt Hlast]]]]] Hlt.
    unfold loopBody.
    destruct (generateQuery w (List.length (generationCalls (St.calls st)))
                question schema (previousQuery v) (safetyFeedback v))
      as [query raw | error] eqn:Hgen.
    + cbn [safetyCheckNode SafetyNode.safe SafetyNode.issues
           SafetyNode.warnings].
      destruct (safe (checkQuerySafety query)) eqn:Hsafe;
        cbn [St.calls St.push St.record attempt safeQuery safetyResult].
      * exists gens. split; [exact Hrej|]. right.
        exists (previousQuery v), (safetyFeedback v), query, raw.
        rewrite Hcalls. repeat split; auto; lia.
      * split; [exact Hs|].
        exists (gens ++ [CallGenerateQuery question schema (previousQuery v)
                           (safetyFeedback v) (GenOk query raw)]).
        split.
        { apply Forall_app. split; [exact Hrej|]. constructor; [|constructor].
          exists (previousQuery v), (safetyFeedback v), query, raw. auto. }
        split; [now rewrite Hcalls|].
        split; [rewrite length_app; cbn [List.length]; lia|].
        right. exists gens, (previousQuery v), (safetyFeedback v), query, raw.
        repeat split; lia.
    + cbn [St.calls St.push St.record].
      exists gens. split; [exact Hrej|].
      exists (previousQuery v), (safetyFeedback v), error.
      rewrite Hcalls. repeat split; lia.
  - intros v st [Hs [gens [Hrej [Hcalls [Hatt Hlast]]]]] Hge.
    exists gens. split; [exact Hrej|]. left. split; [exact Hs|].
    split; [exact Hcalls|].
    destruct Hlast as [[-> [Hv ->]] | [gens0 [p [f [query [raw [Hg [Hv Hle]]]]]]]].
    + left. cbn in Hatt. repeat split; auto. lia.
    + right. exists gens0, p, f, query, raw. repeat split; auto; lia.
  - split; [reflexivity|]. exists []. split; [constructor|].
    split; [reflexivity|]. split; [reflexivity|]. left. repeat split.
Qed.

End RunOutcomes.

(** Every run returns, and ends in one of the seven ways of
    [RunOutcome]. *)
Lemma sqlQueryAgent_outcome (w : World) (question : string)
      (options : Options) :
  exists r st,
    sqlQueryAgent w question options = Some (r, st)
    /\ RunOutcome w question (orDefault (opt_maxRetries options) 3%Z)
         (orDefault (opt_maxRows options) 100%Z)
         (orDefault (opt_debug options) false) r st.
Proof.
  destruct (sqlQueryAgent_cases w question options)
    as [[message [Hschema ->]] | [schema [ex [st1 [Hschema [Hloop ->]]]]]].
  - eexists. eexists. split; [reflexivity|].
    now apply RunSchemaThrew with (message := message).
  - apply refinementLoop_calls in Hloop.
    destruct Hloop as [gens [Hrej Hex]].
    destruct ex as [v | r]; cbn [afterLoop].
    + destruct Hex
        as [[Hs [Hcalls [[-> [Hv [Hle ->]]]
                        | [gens0 [p [f [query [raw [Hg [Hv [Ha Hn]]]]]]]]]]]
           | [p [f [query [raw [Hcalls [Hlen [Hsafe [Hs [Hv Ha]]]]]]]]]].
      * rewrite Hs. unfold noSafeQuery. rewrite Hv.
        eexists. eexists. split; [reflexivity|].
        now apply RunNoBudget with (schema := schema).
      * rewrite Hs. unfold noSafeQuery. rewrite Hv.
        eexists. eexists. split; [reflexivity|]. cbn [complete].
        subst gens. apply Forall_app in Hrej as [Hrej Hlast].
        inversion Hlast as [|c l [p' [f' [q' [raw' [Hc Hunsafe]]]]] _]; subst.
        injection Hc as <- <- <- <-.
        rewrite length_app in Hn. cbn [List.length] in Hn.
        apply RunBudgetSpent
          with (schema := schema) (gens := gens0) (p := p) (f := f)
               (query := query) (raw := raw); auto.
        -- rewrite <- Hn. f_equal. lia.
        -- cbn [SafetyNode.issues safetyCheckNode]. now rewrite Ha.
      * destruct (safe_query_not_empty query Hsafe) as [c [q Hq]].
        rewrite Hs, Hv, Hq. rewrite <- Hq.
        unfold executeAndSummarize, executionNode, executeQuerySafe,
          executeQuery.
        destruct (poolQuery w
                    (limitedQuery query
                       (orDefault (opt_maxRows options) 100%Z)))
          as [rows rowCount fields | message code detail] eqn:Hpool;
          cbn [negb NodeResult.success NodeResult.data NodeResult.error
               option_map].
        -- fold (execData w
                   (limitedQuery query
                      (orDefault (opt_maxRows options) 100%Z))
                   rows rowCount fields).
           destruct (summarizeResults w question
                       (execData w
                          (limitedQuery query
                             (orDefault (opt_maxRows options) 100%Z))
                          rows rowCount fields) query)
             as [summary | error] eqn:Hsum.
           ++ eexists. eexists. split; [reflexivity|].
              apply RunSucceeded
                with (schema := schema) (gens := gens) (p := p) (f := f)
                     (query := query) (raw := raw) (rows := rows)
                     (rowCount := rowCount) (fields := fields)
                     (summary := summary); auto.
              ** cbn [St.calls St.push St.record]. rewrite Hcalls.
                 cbn [app]. now rewrite <- !app_assoc.
              ** rewrite Ha. reflexivity.
           ++ eexists. eexists. split; [reflexivity|].
              apply RunSummaryFailed
                with (schema := schema) (gens := gens) (p := p) (f := f)
                     (query := query) (raw := raw) (rows := rows)
                     (rowCount := rowCount) (fields := fields)
                     (error := error); auto.
              cbn [St.calls St.push St.record]. rewrite Hcalls.
              cbn [app]. now rewrite <- !app_assoc.
        -- eexists. eexists. split; [reflexivity|].
           apply RunExecutionFailed
             with (schema := schema) (gens := gens) (p := p) (f := f)
                  (query := query) (raw := raw) (message := message)
                  (code := code) (detail := detail); auto.
           cbn [St.calls St.push St.record]. rewrite Hcalls.
           cbn [app]. now rewrite <- !app_assoc.
    + destruct Hex as [p [f [error [Hcalls [Hlen ->]]]]].
      eexists. eexists. split; [reflexivity|].
      now apply RunGenerationFailed
        with (schema := schema) (gens := gens) (p := p) (f := f)
             (error := error).
Qed.

Section RejectedCalls.

Local Open Scope list_scope.

Variable question : string.
Variable schema : Schema.

Lemma rejected_generationCalls (gens : list Call) :
  Forall (rejectedCall question schema) gens ->
  generationCalls gens = gens
  /\ executedQueries gens = []
  /\ pooledQueries gens = [].
Proof.
  induction 1 as [|c gens [p [f [q [raw [-> _]]]]] _ [IH1 [IH2 IH3]]];
    [repeat split|].
  unfold generationCalls in *. cbn. rewrite IH1. auto.
Qed.

Lemma calls_of_run (gens tail : list Call) :
  Forall (rejectedCall question schema) gens ->
  generationCalls (CallExtractSchema :: gens ++ tail)
  = gens ++ generationCalls tail
  /\ executedQueries (CallExtractSchema :: gens ++ tail)
     = executedQueries tail
  /\ pooledQueries (CallExtractSchema :: gens ++ tail) = pooledQueries tail.
Proof.
  intros Hrej.
  destruct (rejected_generationCalls gens Hrej) as [H1 [H2 H3]].
  change (CallExtractSchema :: gens ++ tail)
    with ([CallExtractSchema] ++ gens ++ tail).
  rewrite !generationCalls_app, !executedQueries_app, !pooledQueries_app,
    H1, H2, H3.
  repeat split.
Qed.

Lemma rejected_not_failed (gens : list Call) (q : string) (s : Schema)
      (p f : option string) (error : string) :
  Forall (rejectedCall question schema) gens ->
  ~ In (CallGenerateQuery q s p f (GenFailed error)) gens.
Proof.
  intros Hrej Hin. rewrite Forall_forall in Hrej.
  destruct (Hrej _ Hin) as [p' [f' [q' [raw' [H _]]]]]. discriminate H.
Qed.


End RejectedCalls.

(** Case analysis on the outcome of a run, with the facts about the
    calls of its log. *)
Ltac run_outcome H :=
  destruct H as
    [ message Hschema Hcatch
    | schema Hschema Hbudget Hcatch
    | schema gens p f error Hschema Hgens Hlen Hcalls Hr
    | schema gens p f query raw Hschema Hgens Hlen Hunsafe Hcalls Hr
    | schema gens p f query raw message code detail
             Hschema Hgens Hlen Hsafe Hpool Hcalls Hr
    | schema gens p f query raw rows rowCount fields error
             Hschema Hgens Hlen Hsafe Hpool Hsummary Hcalls Hr
    | schema gens p f query raw rows rowCount fields summary
             Hschema Hgens Hlen Hsafe Hpool Hsummary Hcalls Hr ];
  [ injection Hcatch as -> ->
  | injection Hcatch as -> ->
  | | | | | ];
  match goal with
      | Hc : St.calls ?st = CallExtractSchema :: (?gens ++ ?tail)%list,
        Hg : Forall (rejectedCall ?question ?schema) ?gens |- _ =>
          destruct (calls_of_run question schema gens tail Hg)
            as [Hgen [Hexe Hpoo]];
          rewrite <- Hc in Hgen, Hexe, Hpoo;
          cbn [generationCalls executedQueries pooledQueries filter
               isGeneration] in Hgen, Hexe, Hpoo
      | _ => idtac
      end.

(** X1.  The retry budget bounds the calls to the language model: a run
    makes at most [maxRetries] generation calls (none when [maxRetries]
    is not positive); the [attempts] of a success is the number of
    generation calls made, between 1 and [maxRetries]; the [attempts] of
    an exhausted-budget failure is [maxRetries], again the number of
    calls made. *)
Theorem generation_calls_within_budget :
  forall (w : World) (question : string) (options : Options),
  exists (r : AgentResult.t) (st : St.t),
    sqlQueryAgent w question options = Some (r, st)
    /\ (List.length (generationCalls (St.calls st))
        <= Z.to_nat (orDefault (opt_maxRetries options) 3%Z))%nat
    /\ (forall m,
           AgentResult.metadata r = Some m ->
           Metadata.attempts m
           = Z.of_nat (List.length (generationCalls (St.calls st)))
           /\ (1 <= Metadata.attempts m
               <= orDefault (opt_maxRetries options) 3%Z)%Z)
    /\ (forall n,
           AgentResult.attempts r = Some n ->
           n = orDefault (opt_maxRetries options) 3%Z
           /\ n = Z.of_nat (List.length (generationCalls (St.calls st)))).
Proof.
  intros w question options.
  destruct (sqlQueryAgent_outcome w question options) as [r [st [Hrun Hout]]].
  exists r, st. split; [exact Hrun|].
  run_outcome Hout;
    try (cbn; (split; [lia|]); split; intros ? H; discriminate H);
    rewrite Hgen, length_app; cbn [List.length]; subst r;
    cbn [AgentResult.metadata AgentResult.attempts generationFailure
         exhaustedFailure executionFailure summaryFailure successResult];
    (split; [lia|]); split; intros ? H; try discriminate H;
    injection H as <-; cbn [Metadata.attempts]; lia.
Qed.

(** X1, on the run of the example world: three calls, three attempts. *)
Lemma generation_calls_within_budget_witness :
  exists r st m,
    sqlQueryAgent demoWorld "How many users?" (mkOptions None None None)
    = Some (r, st)
    /\ AgentResult.metadata r = Some m
    /\ Metadata.attempts m = 3%Z
    /\ List.length (generationCalls (St.calls st)) = 3%nat.
Proof.
  destruct (generation_calls_within_budget demoWorld "How many users?"
              (mkOptions None None None)) as [r [st [Hrun [_ [Hm _]]]]].
  assert (Hmeta : exists m, AgentResult.metadata r = Some m).
  { vm_compute in Hrun. injection Hrun as <- _. eexists. reflexivity. }
  destruct Hmeta as [m Hmeta]. destruct (Hm m Hmeta) as [Heq _].
  exists r, st, m. split; [exact Hrun|]. split; [exact Hmeta|].
  assert (Hlen : List.length (generationCalls (St.calls st)) = 3%nat).
  { vm_compute in Hrun. injection Hrun as _ <-. reflexivity. }
  split; [rewrite Heq, Hlen; reflexivity | exact Hlen].
Defined.

(** X2.  A failed generation call is final: when a generation call of a
    run fails, it is the last call the run makes to any collaborator, the
    result is the generation failure whose [details] is that call's error,
    and nothing is executed.  Conversely the generation failure is
    returned only after such a call. *)
Theorem generation_failure_is_final :
  forall (w : World) (question : string) (options : Options),
  exists (r : AgentResult.t) (st : St.t),
    sqlQueryAgent w question options = Some (r, st)
    /\ (forall q s p f error,
           In (CallGenerateQuery q s p f (GenFailed error)) (St.calls st) ->
           last (St.calls st) CallExtractSchema
           = CallGenerateQuery q s p f (GenFailed error)
           /\ r = generationFailure error (St.trace st)
           /\ executedQueries (St.calls st) = []
           /\ pooledQueries (St.calls st) = [])
    /\ (AgentResult.error r = Some generationError ->
        exists q s p f error,
          In (CallGenerateQuery q s p f (GenFailed error)) (St.calls st)).
Proof.
  intros w question options.
  destruct (sqlQueryAgent_outcome w question options) as [r [st [Hrun Hout]]].
  exists r, st. split; [exact Hrun|].
  run_outcome Hout.
  - cbn. split; [|discriminate].
    intros q s p f error [H | []]. discriminate H.
  - cbn. split; [|discriminate].
    intros q s p f error [H | []]. discriminate H.
  - split.
    + intros q s p0 f0 error0 Hin. rewrite Hcalls in Hin.
      destruct Hin as [H | Hin]; [discriminate H|].
      apply in_app_or in Hin as [Hin | [Hin | []]].
      * now destruct (rejected_not_failed _ _ _ _ _ _ _ _ Hgens Hin).
      * injection Hin as <- <- <- <- <-.
        split; [rewrite Hcalls, app_comm_cons, last_last; reflexivity|].
        auto.
    + intros _. exists question, schema, p, f, error.
      rewrite Hcalls. right. apply in_or_app. right. now left.
  - subst r. cbn. split; [|discriminate].
    intros q s p0 f0 error0 Hin. rewrite Hcalls in Hin.
    destruct Hin as [H | Hin]; [discriminate H|].
    apply in_app_or in Hin as [Hin | [Hin | []]]; [|discriminate Hin].
    now destruct (rejected_not_failed _ _ _ _ _ _ _ _ Hgens Hin).
  - subst r. cbn. split; [|discriminate].
    intros q s p0 f0 error0 Hin. rewrite Hcalls in Hin.
    destruct Hin as [H | Hin]; [discriminate H|].
    apply in_app_or in Hin as [Hin | Hin].
    + now destruct (rejected_not_failed _ _ _ _ _ _ _ _ Hgens Hin).
    + repeat (destruct Hin as [Hin | Hin]; [discriminate Hin|]).
      destruct Hin.
  - subst r. cbn. split; [|discriminate].
    intros q s p0 f0 error0 Hin. rewrite Hcalls in Hin.
    destruct Hin as [H | Hin]; [discriminate H|].
    apply in_app_or in Hin as [Hin | Hin].
    + now destruct (rejected_not_failed _ _ _ _ _ _ _ _ Hgens Hin).
    + repeat (destruct Hin as [Hin | Hin]; [discriminate Hin|]).
      destruct Hin.
  - subst r. cbn. split; [|discriminate].
    intros q s p0 f0 error0 Hin. rewrite Hcalls in Hin.
    destruct Hin as [H | Hin]; [discriminate H|].
    apply in_app_or in Hin as [Hin | Hin].
    + now destruct (rejected_not_failed _ _ _ _ _ _ _ _ Hgens Hin).
    + repeat (destruct Hin as [Hin | Hin]; [discriminate Hin|]).
      destruct Hin.
Qed.

(** X2, with a model out of reach: one call, then the failure. *)
Lemma generation_failure_is_final_witness :
  exists r st,
    sqlQueryAgent offlineWorld "How many users?" (mkOptions None None None)
    = Some (r, st)
    /\ List.length (generationCalls (St.calls st)) = 1%nat
    /\ AgentResult.details r = Some (DetailText "fetch failed")
    /\ executedQueries (St.calls st) = [].
Proof.
  destruct (generation_failure_is_final offlineWorld "How many users?"
              (mkOptions None None None)) as [r [st [Hrun [Hfail _]]]].
  exists r, st. split; [exact Hrun|].
  assert (Hcalls : St.calls st
                   = [CallExtractSchema;
                      CallGenerateQuery "How many users?" demoSchema None None
                        (GenFailed "fetch failed")]).
  { vm_compute in Hrun. injection Hrun as _ <-. reflexivity. }
  destruct (Hfail "How many users?" demoSchema None None "fetch failed")
    as [_ [Hr [He _]]].
  { rewrite Hcalls. right. now left. }
  split; [rewrite Hcalls; reflexivity|]. split; [rewrite Hr; reflexivity|].
  exact He.
Defined.

(** X3.  What a success is made of: the query of the result is the answer
    of the last generation call and is safe; it is the one text given to
    the execution port, the database received it through [limitedQuery]
    and answered with rows; the data of the result are those rows, the
    answer is the summary of exactly those data, and the warnings are the
    validator's warnings on the query. *)
Theorem success_is_consistent :
  forall (w : World) (question : string) (options : Options),
  exists (r : AgentResult.t) (st : St.t),
    sqlQueryAgent w question options = Some (r, st)
    /\ (AgentResult.success r = true ->
        exists schema p f query raw rows rowCount fields summary,
          let maxRows := orDefault (opt_maxRows options) 100%Z in
          let data :=
            execData w (limitedQuery query maxRows) rows rowCount fields in
          last (generationCalls (St.calls st)) CallExtractSchema
          = CallGenerateQuery question schema p f (GenOk query raw)
          /\ safe (checkQuerySafety query) = true
          /\ executedQueries (St.calls st) = [query]
          /\ pooledQueries (St.calls st) = [limitedQuery query maxRows]
          /\ poolQuery w (limitedQuery query maxRows)
             = PgRows rows rowCount fields
          /\ summarizeResults w question data query = SummaryOk summary
          /\ AgentResult.query r = Some query
          /\ AgentResult.answer r = Some summary
          /\ AgentResult.data r
             = Some (AgentResult.Picked
                       {| ResultData.rows := rows;
                          ResultData.rowCount := rowCount;
                          ResultData.executionTime :=
                            ExecData.executionTime data |})
          /\ option_map Metadata.warnings (AgentResult.metadata r)
             = Some (warnings (checkQuerySafety query))
          /\ AgentResult.error r = None).
Proof.
  intros w question options.
  destruct (sqlQueryAgent_outcome w question options) as [r [st [Hrun Hout]]].
  exists r, st. split; [exact Hrun|].
  run_outcome Hout; try (cbn; discriminate); try (subst r; cbn; discriminate).
  intros _.
  exists schema, p, f, query, raw, rows, rowCount, fields, summary.
  cbv zeta. rewrite Hgen, last_last. subst r. cbn. repeat split; auto.
Qed.

(** X3, on the run of the example world. *)
Lemma success_is_consistent_witness :
  exists r st,
    sqlQueryAgent demoWorld "How many users?" (mkOptions None None None)
    = Some (r, st)
    /\ AgentResult.query r = Some "SELECT * FROM users"
    /\ pooledQueries (St.calls st) = ["SELECT * FROM users LIMIT 100"].
Proof.
  destruct (success_is_consistent demoWorld "How many users?"
              (mkOptions None None None)) as [r [st [Hrun Hok]]].
  exists r, st. split; [exact Hrun|].
  assert (Hs : AgentResult.success r = true).
  { vm_compute in Hrun. injection Hrun as <- _. reflexivity. }
  destruct (Hok Hs)
    as [schema [p [f [query [raw [rows [rowCount [fields [summary
         [Hlast [_ [_ [Hpool [_ [_ [Hq _]]]]]]]]]]]]]]]].
  assert (Hquery : query = "SELECT * FROM users").
  { vm_compute in Hrun. injection Hrun as _ <-. cbn in Hlast.
    now injection Hlast. }
  subst query. split; [exact Hq | exact Hpool].
Defined.







(* ===================================================================== *)
(** ** The validator: further properties *)
(* ===================================================================== *)

Section Subsequences.

Local Open Scope list_scope.

Context {A : Type}.

Lemma subsequence_refl (l : list A) : subsequence l l.
Proof.
  induction l as [|x l IH]; [constructor | now apply subsequence_keep].
Qed.

Lemma subsequence_filter (g : A -> bool) (l : list A) :
  subsequence (filter g l) l.
Proof.
  induction l as [|x l IH]; cbn; [constructor|].
  destruct (g x); [apply subsequence_keep | apply subsequence_skip];
    exact IH.
Qed.

Lemma subsequence_app (l1 l2 k1 k2 : list A) :
  subsequence l1 l2 -> subsequence k1 k2 ->
  subsequence (l1 ++ k1) (l2 ++ k2).
Proof.
  induction 1 as [|x l1 l2 _ IH|x l1 l2 _ IH]; intros Hk; cbn.
  - exact Hk.
  - apply subsequence_skip. auto.
  - apply subsequence_keep. auto.
Qed.

Lemma subsequence_In (l1 l2 : list A) (x : A) :
  subsequence l1 l2 -> In x l1 -> In x l2.
Proof.
  induction 1 as [|y l1 l2 _ IH|y l1 l2 _ IH]; intros Hin.
  - exact Hin.
  - right. auto.
  - destruct Hin as [-> | Hin]; [now left | right; auto].
Qed.

Lemma subsequence_NoDup (l1 l2 : list A) :
  subsequence l1 l2 -> NoDup l2 -> NoDup l1.
Proof.
  induction 1 as [|y l1 l2 _ IH|y l1 l2 Hsub IH]; intros Hnd.
  - exact Hnd.
  - inversion Hnd; auto.
  - inversion Hnd as [|? ? Hnotin Hnd']; subst. constructor; [|auto].
    intros Hin. apply Hnotin. exact (subsequence_In _ _ _ Hsub Hin).
Qed.

Lemma filter_nil_iff (g : A -> bool) (l : list A) :
  filter g l = [] <-> forall x, In x l -> g x = false.
Proof.
  induction l as [|y l IH]; cbn.
  - split; [intros _ x [] | reflexivity].
  - destruct (g y) eqn:E; split.
    + discriminate.
    + intros H. rewrite (H y) in E by now left. discriminate E.
    + intros H x [<- | Hin]; [exact E | now apply IH].
    + intros H. apply IH. intros x Hin. apply H. now right.
Qed.

End Subsequences.

Lemma subsequence_map {A B : Type} (f : A -> B) (l1 l2 : list A) :
  subsequence l1 l2 -> subsequence (map f l1) (map f l2).
Proof.
  induction 1 as [|x l1 l2 _ IH|x l1 l2 _ IH]; cbn.
  - constructor.
  - apply subsequence_skip. exact IH.
  - apply subsequence_keep. exact IH.
Qed.

Lemma destructive_keyword_shape (keyword : string) :
  In keyword DESTRUCTIVE_KEYWORDS ->
  keyword <> "" /\ allWordChars keyword = true.
Proof.
  intros Hin. simpl in Hin.
  repeat (destruct Hin as [<- | Hin]; [split; [discriminate | reflexivity]|]).
  destruct Hin.
Qed.

(** X7.  The issues come in the order of the rules and never repeat: for
    every text the issue list is a subsequence of the fixed list of all
    issue texts (statement type, the eleven keywords, the five patterns,
    the two semicolon issues), so it has no duplicate; and the two
    semicolon issues never come together. *)
Theorem issues_follow_rule_order :
  forall s : string,
    subsequence (issues (checkQuerySafety s)) ALL_ISSUES
    /\ NoDup (issues (checkQuerySafety s))
    /\ ~ (In multipleIssue (issues (checkQuerySafety s))
          /\ In middleIssue (issues (checkQuerySafety s))).
Proof.
  intros s.
  assert (Hsub : subsequence (issues (checkQuerySafety s)) ALL_ISSUES).
  { rewrite issues_checkQuerySafety. unfold ALL_ISSUES.
    repeat apply subsequence_app.
    - unfold selectPart.
      destruct (negb (startsWith (toUpperCase (trim s)) "SELECT"));
        [apply subsequence_refl | apply subsequence_skip, subsequence_nil].
    - apply subsequence_map, subsequence_filter.
    - apply subsequence_map, subsequence_filter.
    - unfold semicolonPart.
      destruct (1 <? countChar ";" s)%nat;
        [apply subsequence_keep, subsequence_skip, subsequence_nil|].
      destruct ((countChar ";" s =? 1)%nat && negb (endsWith (trim s) ";"));
        [apply subsequence_skip, subsequence_refl
        | apply subsequence_skip, subsequence_skip, subsequence_nil]. }
  assert (Hall : NoDup ALL_ISSUES).
  { unfold ALL_ISSUES. cbn. repeat constructor; cbn; intros H;
      repeat (destruct H as [H | H]; [discriminate H|]); exact H. }
  split; [exact Hsub|]. split; [exact (subsequence_NoDup _ _ Hsub Hall)|].
  rewrite issues_checkQuerySafety, !in_app_iff. intros [H1 H2].
  assert (Hm : In multipleIssue (semicolonPart s)).
  { destruct H1 as [H | [H | [H | H]]]; [| | | exact H].
    - unfold selectPart in H.
      destruct (negb (startsWith (toUpperCase (trim s)) "SELECT"));
        [destruct H as [H | []]; discriminate H | destruct H].
    - apply in_map_iff in H as [k [Hk _]]. discriminate Hk.
    - apply in_map_iff in H as [k [Hk _]]. discriminate Hk. }
  assert (Hd : In middleIssue (semicolonPart s)).
  { destruct H2 as [H | [H | [H | H]]]; [| | | exact H].
    - unfold selectPart in H.
      destruct (negb (startsWith (toUpperCase (trim s)) "SELECT"));
        [destruct H as [H | []]; discriminate H | destruct H].
    - apply in_map_iff in H as [k [Hk _]]. discriminate Hk.
    - apply in_map_iff in H as [k [Hk _]]. discriminate Hk. }
  unfold semicolonPart in Hm, Hd.
  destruct (1 <? countChar ";" s)%nat.
  - destruct Hd as [Hd | []]. discriminate Hd.
  - destruct ((countChar ";" s =? 1)%nat && negb (endsWith (trim s) ";")).
    + destruct Hm as [Hm | []]. discriminate Hm.
    + destruct Hm.
Qed.

(** X8.  What makes a text safe, in full: [checkQuerySafety s] is safe
    exactly when the trimmed text starts with SELECT in any letter case,
    no destructive keyword occurs as a whole word, none of the five
    dangerous patterns occurs, and the text has no semicolon or just one
    that ends the trimmed text. *)
Theorem safe_characterization :
  forall s : string,
    safe (checkQuerySafety s) = true <->
    startsWith (toUpperCase (trim s)) "SELECT" = true
    /\ (forall keyword,
           In keyword DESTRUCTIVE_KEYWORDS ->
           ~ wholeWordOccurrence keyword s)
    /\ (forall keyword,
           In keyword STACKED_KEYWORDS -> ~ semicolonThen keyword s)
    /\ ~ occurs "--" s
    /\ ~ occurs "/*" s
    /\ ~ occursAnyCase "xp_" s
    /\ ~ occursAnyCase "sp_" s
    /\ (countChar ";" s = 0%nat
        \/ (countChar ";" s = 1%nat /\ endsWith (trim s) ";" = true)).
Proof.
  intros s. rewrite safe_iff_no_issues, issues_checkQuerySafety.
  assert (Hsel : selectPart s = [] <->
                 startsWith (toUpperCase (trim s)) "SELECT" = true).
  { unfold selectPart.
    destruct (startsWith (toUpperCase (trim s)) "SELECT"); cbn;
      split; intros H; auto; discriminate H. }
  assert (Hkw :
            map keywordIssue
              (filter (fun k => RegExp.test (keywordRegExp k) s)
                 DESTRUCTIVE_KEYWORDS) = [] <->
            forall keyword,
              In keyword DESTRUCTIVE_KEYWORDS ->
              ~ wholeWordOccurrence keyword s).
  { split.
    - intros H keyword Hin Hocc. apply map_eq_nil in H.
      destruct (destructive_keyword_shape keyword Hin) as [Hne Hw].
      apply (test_keyword_iff keyword s Hne Hw) in Hocc.
      rewrite (proj1 (filter_nil_iff _ _) H keyword Hin) in Hocc.
      discriminate Hocc.
    - intros H. replace (filter _ _) with (@nil string); [reflexivity|].
      symmetry. apply filter_nil_iff. intros keyword Hin.
      destruct (destructive_keyword_shape keyword Hin) as [Hne Hw].
      destruct (RegExp.test (keywordRegExp keyword) s) eqn:E;
        [|reflexivity].
      apply (test_keyword_iff keyword s Hne Hw) in E.
      now destruct (H keyword Hin). }
  assert (Hpat :
            map patternIssue
              (filter (fun p => RegExp.test p s) DANGEROUS_PATTERNS) = [] <->
            (forall keyword,
                In keyword STACKED_KEYWORDS -> ~ semicolonThen keyword s)
            /\ ~ occurs "--" s /\ ~ occurs "/*" s
            /\ ~ occursAnyCase "xp_" s /\ ~ occursAnyCase "sp_" s).
  { assert (Hst := test_stacked_iff s).
    assert (Hlc : RegExp.test lineCommentPattern s = true <-> occurs "--" s)
      by apply test_exact_iff.
    assert (Hbc : RegExp.test blockCommentPattern s = true <-> occurs "/*" s)
      by apply test_exact_iff.
    assert (Hxp : RegExp.test xpPattern s = true <-> occursAnyCase "xp_" s)
      by apply test_anycase_iff.
    assert (Hsp : RegExp.test spPattern s = true <-> occursAnyCase "sp_" s)
      by apply test_anycase_iff.
    unfold DANGEROUS_PATTERNS. cbn [filter].
    destruct (RegExp.test stackedPattern s),
      (RegExp.test lineCommentPattern s),
      (RegExp.test blockCommentPattern s),
      (RegExp.test xpPattern s), (RegExp.test spPattern s);
      cbn [map]; split;
      try (intros H; discriminate H);
      try (intros [H1 [H2 [H3 [H4 H5]]]]; exfalso;
           first [ apply H2, Hlc; reflexivity
                 | apply H3, Hbc; reflexivity
                 | apply H4, Hxp; reflexivity
                 | apply H5, Hsp; reflexivity
                 | destruct (proj1 Hst eq_refl) as [k [Hk Hs]];
                   exact (H1 k Hk Hs) ]).
    - intros _. repeat split.
      + intros k Hk Hs.
        assert (E : false = true) by (apply Hst; now exists k).
        discriminate E.
      + intros H. apply Hlc in H. discriminate H.
      + intros H. apply Hbc in H. discriminate H.
      + intros H. apply Hxp in H. discriminate H.
      + intros H. apply Hsp in H. discriminate H.
    - reflexivity. }
  assert (Hsemi :
            semicolonPart s = [] <->
            countChar ";" s = 0%nat
            \/ (countChar ";" s = 1%nat /\ endsWith (trim s) ";" = true)).
  { unfold semicolonPart.
    destruct (Nat.ltb_spec 1 (countChar ";" s)) as [Hlt | Hle].
    - split; [discriminate | lia].
    - destruct (Nat.eqb_spec (countChar ";" s) 1) as [Heq | Hne]; cbn.
      + destruct (endsWith (trim s) ";"); cbn; split; auto;
          try discriminate. intros [H | [_ H]]; [lia | discriminate H].
      + split; [intros _; left; lia | reflexivity]. }
  rewrite <- Hsel, <- Hkw, <- Hsemi.
  split.
  - intros H. apply app_eq_nil in H as [H1 H].
    apply app_eq_nil in H as [H2 H]. apply app_eq_nil in H as [H3 H4].
    apply Hpat in H3. tauto.
  - intros [H1 [H2 [H3 [H4 [H5 [H6 [H7 H8]]]]]]].
    rewrite H1, H2, H8. rewrite (proj2 Hpat); [reflexivity|]. tauto.
Qed.

(* ===================================================================== *)
(** ** Strings: trimming, suffixes and counting *)
(* ===================================================================== *)

Section TrimFacts.

Lemma allWhite_app (a b : string) :
  allWhite (a ++ b) = allWhite a && allWhite b.
Proof.
  induction a as [|c a IH]; [reflexivity|]. simpl.
  now rewrite IH, andb_assoc.
Qed.

Lemma countChar_app (c : ascii) (a b : string) :
  countChar c (a ++ b) = (countChar c a + countChar c b)%nat.
Proof.
  induction a as [|d a IH]; [reflexivity|]. simpl. rewrite IH. lia.
Qed.

Lemma allWhite_no_semicolon (ws : string) :
  allWhite ws = true -> countChar ";" ws = 0%nat.
Proof.
  induction ws as [|c ws IH]; [reflexivity|]. cbn [allWhite countChar].
  intros H. apply andb_true_iff in H as [Hc Hw]. rewrite (IH Hw).
  destruct (Ascii.eqb_spec ";"%char c) as [<- | _];
    [discriminate Hc | reflexivity].
Qed.

Lemma trimStart_split (s : string) :
  exists lead, s = lead ++ trimStart s /\ allWhite lead = true.
Proof.
  induction s as [|c s [lead [IH Hw]]]; [now exists ""|]. simpl.
  destruct (isWhiteSpace c) eqn:E.
  - exists (String c lead). simpl. rewrite E, Hw. split; [now f_equal|auto].
  - now exists "".
Qed.

Lemma trimEnd_split (s : string) :
  exists trail, s = trimEnd s ++ trail /\ allWhite trail = true.
Proof.
  induction s as [|c s [trail [IH Hw]]]; [now exists ""|]. simpl.
  destruct (trimEnd s) as [|d t] eqn:E.
  - destruct (isWhiteSpace c) eqn:Ec.
    + exists (String c trail). simpl in *. rewrite Ec, Hw.
      split; [now f_equal | reflexivity].
    + exists trail. simpl in *. split; [now f_equal | exact Hw].
  - exists trail. simpl in *. split; [now f_equal | exact Hw].
Qed.

(** The text between the blanks [trim] removes. *)
Lemma trim_split (s : string) :
  exists lead trail,
    s = lead ++ trim s ++ trail
    /\ allWhite lead = true /\ allWhite trail = true.
Proof.
  destruct (trimStart_split s) as [lead [Hs Hl]].
  destruct (trimEnd_split (trimStart s)) as [trail [Ht Hr]].
  exists lead, trail. unfold trim. rewrite <- Ht. auto.
Qed.

Lemma trimEnd_white (ws : string) : allWhite ws = true -> trimEnd ws = "".
Proof.
  induction ws as [|c ws IH]; [reflexivity|]. simpl.
  intros H. apply andb_true_iff in H as [Hc Hw]. now rewrite (IH Hw), Hc.
Qed.

Lemma trimEnd_keeps (a : string) (c : ascii) (ws : string) :
  isWhiteSpace c = false -> allWhite ws = true ->
  trimEnd (a ++ String c ws) = a ++ String c "".
Proof.
  intros Hc Hw. induction a as [|d a IH]; simpl.
  - now rewrite (trimEnd_white ws Hw), Hc.
  - rewrite IH. destruct a; reflexivity.
Qed.

Lemma trimStart_keeps (a : string) (c : ascii) (rest : string) :
  isWhiteSpace c = false ->
  exists a', trimStart (a ++ String c rest) = a' ++ String c rest.
Proof.
  intros Hc. induction a as [|d a [a' IH]]; simpl.
  - rewrite Hc. now exists "".
  - destruct (isWhiteSpace d); [now exists a' | now exists (String d a)].
Qed.

Lemma endsWith_iff (s p : string) :
  endsWith s p = true <-> exists pre, s = pre ++ p.
Proof.
  induction s as [|c s IH]; cbn [endsWith].
  - rewrite orb_false_r, String.eqb_eq. split.
    + intros <-. now exists "".
    + intros [[|d pre] H]; [exact H | discriminate H].
  - rewrite orb_true_iff, String.eqb_eq, IH. split.
    + intros [<- | [pre ->]]; [now exists "" | now exists (String c pre)].
    + intros [[|d pre] H]; [now left | right].
      simpl in H. injection H as _ ->. now exists pre.
Qed.

(** Where a character occurs only once, the text splits around it in only
    one way. *)
Lemma split_at_unique (c : ascii) (a b a' b' : string) :
  countChar c (a ++ String c b) = 1%nat ->
  a ++ String c b = a' ++ String c b' ->
  a = a' /\ b = b'.
Proof.
  revert a'. induction a as [|d a IH]; intros a' Hcount Heq.
  - cbn [append countChar] in *. rewrite Ascii.eqb_refl in Hcount.
    destruct a' as [|d' a']; cbn [append] in Heq.
    + injection Heq as ->. auto.
    + injection Heq as <- ->. rewrite countChar_app in Hcount.
      cbn [countChar] in Hcount. rewrite Ascii.eqb_refl in Hcount. lia.
  - destruct a' as [|d' a']; cbn [append] in Heq.
    + injection Heq as -> Heq. cbn [append countChar] in Hcount.
      rewrite Ascii.eqb_refl, countChar_app in Hcount.
      cbn [countChar] in Hcount. rewrite Ascii.eqb_refl in Hcount. lia.
    + injection Heq as <- Heq. cbn [append countChar] in Hcount.
      destruct (Ascii.eqb c d).
      * rewrite countChar_app in Hcount. cbn [countChar] in Hcount.
        rewrite Ascii.eqb_refl in Hcount. lia.
      * destruct (IH a' Hcount Heq) as [-> ->]. auto.
Qed.

Lemma first_occurrence (c : ascii) (s : string) :
  (1 <= countChar c s)%nat ->
  exists pre rest, s = pre ++ String c rest /\ countChar c pre = 0%nat.
Proof.
  induction s as [|d s IH]; cbn [countChar]; [lia|].
  destruct (Ascii.eqb_spec c d) as [<- | Hne].
  - intros _. now exists "", s.
  - intros H. destruct (IH H) as [pre [rest [-> Hp]]].
    exists (String d pre), rest. split; [reflexivity|].
    cbn [countChar]. destruct (Ascii.eqb_spec c d); [contradiction | exact Hp].
Qed.

End TrimFacts.

Section SemicolonFacts.

Lemma semicolon_not_white : isWhiteSpace ";" = false.
Proof. reflexivity. Qed.

(** The semicolon check raises an issue exactly when something other than
    white space follows a semicolon. *)
Lemma semicolonPart_iff (s : string) :
  semicolonPart s <> [] <->
  exists pre rest, s = pre ++ String ";" rest /\ allWhite rest = false.
Proof.
  unfold semicolonPart. split.
  - intros H.
    destruct (Nat.ltb_spec 1 (countChar ";" s)) as [Hlt | Hle].
    + destruct (first_occurrence ";" s) as [pre [rest [Hs Hp]]]; [lia|].
      exists pre, rest. split; [exact Hs|].
      destruct (allWhite rest) eqn:Hw; [|reflexivity].
      rewrite Hs, countChar_app in Hlt. cbn [countChar] in Hlt.
      rewrite Ascii.eqb_refl, (allWhite_no_semicolon rest Hw) in Hlt. lia.
    + destruct (Nat.eqb_spec (countChar ";" s) 1) as [Heq | Hne];
        cbn [andb] in H; [|congruence].
      destruct (endsWith (trim s) ";") eqn:He; cbn [negb] in H;
        [congruence|].
      destruct (first_occurrence ";" s) as [pre [rest [Hs Hp]]]; [lia|].
      exists pre, rest. split; [exact Hs|].
      destruct (allWhite rest) eqn:Hw; [|reflexivity]. exfalso.
      destruct (trimStart_keeps pre ";" rest semicolon_not_white)
        as [pre' Hts].
      assert (Ht : trim s = pre' ++ ";").
      { unfold trim. rewrite Hs, Hts.
        now apply trimEnd_keeps. }
      assert (E : endsWith (trim s) ";" = true)
        by (apply endsWith_iff; now exists pre').
      congruence.
  - intros [pre [rest [Hs Hw]]].
    assert (Hc : (1 <= countChar ";" s)%nat).
    { rewrite Hs, countChar_app. cbn [countChar].
      rewrite Ascii.eqb_refl. lia. }
    destruct (Nat.ltb_spec 1 (countChar ";" s)) as [Hlt | Hle];
      [discriminate|].
    assert (Heq : countChar ";" s = 1%nat) by lia.
    rewrite Heq. cbn [Nat.eqb andb].
    destruct (endsWith (trim s) ";") eqn:He; cbn [negb]; [|discriminate].
    exfalso. apply endsWith_iff in He as [a Ha].
    destruct (trim_split s) as [lead [trail [Hsplit [_ Htrail]]]].
    rewrite Ha in Hsplit.
    assert (Hs' : s = (lead ++ a) ++ String ";" trail).
    { rewrite Hsplit. rewrite !append_assoc. reflexivity. }
    rewrite Hs in Heq.
    destruct (split_at_unique ";" pre rest (lead ++ a) trail Heq) as [_ E].
    { now rewrite <- Hs. }
    congruence.
Qed.

End SemicolonFacts.

Section SemicolonIssues.

Local Open Scope list_scope.

Lemma semicolonIssue_in (s x : string) :
  x = multipleIssue \/ x = middleIssue ->
  (In x (issues (checkQuerySafety s)) <-> In x (semicolonPart s)).
Proof.
  intros Hx. rewrite issues_checkQuerySafety, !in_app_iff. split.
  - intros [H | [H | [H | H]]]; [| | | exact H]; exfalso.
    + unfold selectPart in H.
      destruct (negb (startsWith (toUpperCase (trim s)) "SELECT"));
        [|destruct H].
      destruct H as [H | []].
      destruct Hx as [-> | ->]; discriminate H.
    + apply in_map_iff in H as [k [Hk _]].
      destruct Hx as [-> | ->]; discriminate Hk.
    + apply in_map_iff in H as [k [Hk _]].
      destruct Hx as [-> | ->]; discriminate Hk.
  - intros H. right. right. now right.
Qed.

Lemma semicolonPart_cases (s : string) :
  semicolonPart s <> [] <->
  In multipleIssue (semicolonPart s) \/ In middleIssue (semicolonPart s).
Proof.
  unfold semicolonPart.
  destruct (1 <? countChar ";" s)%nat.
  - split; [intros _; left; now left | discriminate].
  - destruct ((countChar ";" s =? 1)%nat && negb (endsWith (trim s) ";")).
    + split; [intros _; right; now left | discriminate].
    + split; [congruence | intros [[] | []]].
Qed.

Lemma wordChar_not_white (c : ascii) :
  isWordChar c = true -> isWhiteSpace c = false.
Proof.
  destruct c as [[] [] [] [] [] [] [] []]; cbv; congruence.
Qed.

End SemicolonIssues.

(** X9.  The semicolon check raises one of its two issues exactly when a
    semicolon is followed by something other than white space; a text
    whose only semicolon is followed by blanks alone gets neither. *)
Theorem semicolon_issue_iff :
  forall s : string,
    (In multipleIssue (issues (checkQuerySafety s))
     \/ In middleIssue (issues (checkQuerySafety s)))
    <-> exists pre rest,
          s = pre ++ String ";" rest /\ allWhite rest = false.
Proof.
  intros s.
  rewrite (semicolonIssue_in s multipleIssue) by now left.
  rewrite (semicolonIssue_in s middleIssue) by now right.
  rewrite <- semicolonPart_cases. apply semicolonPart_iff.
Qed.

(** X10.  A stacked statement is always rejected by the semicolon check,
    whichever destructive keyword starts it: a semicolon followed, after
    any white space, by a keyword of the destructive list (also GRANT,
    REVOKE, EXEC and EXECUTE, which the stacked-statement pattern leaves
    out) raises a semicolon issue, and the verdict is unsafe. *)
Theorem stacked_statement_always_rejected :
  forall s keyword : string,
    In keyword DESTRUCTIVE_KEYWORDS ->
    semicolonThen keyword s ->
    safe (checkQuerySafety s) = false
    /\ (In multipleIssue (issues (checkQuerySafety s))
        \/ In middleIssue (issues (checkQuerySafety s))).
Proof.
  intros s keyword Hin [pre [ws [mid [post [Hs [Hws Hmid]]]]]].
  destruct (destructive_keyword_shape keyword Hin) as [Hne Hw].
  assert (Hmw : allWordChars mid = true)
    by now rewrite (allWordChars_upper _ _ Hmid).
  assert (Hmne : mid <> "") by exact (upper_nonempty _ _ Hmid Hne).
  assert (Hissue : In multipleIssue (issues (checkQuerySafety s))
                   \/ In middleIssue (issues (checkQuerySafety s))).
  { rewrite (semicolonIssue_in s multipleIssue) by now left.
    rewrite (semicolonIssue_in s middleIssue) by now right.
    apply semicolonPart_cases, semicolonPart_iff.
    exists pre, (ws ++ mid ++ post). split; [exact Hs|].
    rewrite !allWhite_app.
    destruct mid as [|m mid]; [congruence|]. cbn [allWordChars] in Hmw.
    apply andb_true_iff in Hmw as [Hm _]. cbn [allWhite].
    rewrite (wordChar_not_white m Hm). cbn.
    now rewrite andb_false_r. }
  split; [|exact Hissue].
  destruct Hissue as [H | H]; exact (unsafe_of_issue _ _ H).
Qed.

(** X10, on the text the stacked-statement pattern misses. *)
Lemma stacked_statement_always_rejected_witness :
  safe (checkQuerySafety "SELECT 1; GRANT ALL ON t TO u") = false
  /\ (In multipleIssue (issues (checkQuerySafety "SELECT 1; GRANT ALL ON t TO u"))
      \/ In middleIssue
           (issues (checkQuerySafety "SELECT 1; GRANT ALL ON t TO u"))).
Proof.
  apply (stacked_statement_always_rejected
           "SELECT 1; GRANT ALL ON t TO u" "GRANT").
  - simpl. tauto.
  - exists "SELECT 1", " ", "GRANT", " ALL ON t TO u". repeat split.
Defined.

(* ===================================================================== *)
(** ** The execution port: what reaches the database *)
(* ===================================================================== *)

Section LimitedQueryFacts.






End LimitedQueryFacts.



(* ===================================================================== *)
(** ** Cleaning the model's answer *)
(* ===================================================================== *)

Section FenceFacts.

Example extractSQL_fenced :
  extractSQL ("```sql" ++ String newline "SELECT 1"
              ++ String newline "```") = "SELECT 1".
Proof. reflexivity. Qed.

Lemma startsWith_fence (s : string) :
  startsWith s "```" = true <-> (3 <= leadTicks s)%nat.
Proof.
  destruct s as [|a [|b [|c rest]]]; cbn [startsWith leadTicks];
    unfold isTick; rewrite ?(Ascii.eqb_sym "`"%char);
    repeat match goal with
           | |- context [Ascii.eqb ?x "`"] => destruct (Ascii.eqb x "`")
           end; cbn; split; intros H; try discriminate H; try lia;
    try reflexivity; try (exfalso; lia); destruct rest; reflexivity.
Qed.

(** The two ways through [stripFence]. *)
Lemma stripFence_at_fence (rest : string) :
  stripFence ("```" ++ rest) = stripFence (afterOptionalNewline rest).
Proof.
  change ("```" ++ rest) with (String "`" (String "`" (String "`" rest))).
  cbn [stripFence]. unfold isTick. rewrite !Ascii.eqb_refl. cbn [andb].
  destruct rest as [|g rest']; [reflexivity|].
  cbn [afterOptionalNewline]. destruct (Ascii.eqb g newline); reflexivity.
Qed.

Lemma stripFence_elsewhere (a : string) (c : ascii) :
  startsWith (String c a) "```" = false ->
  stripFence (String c a) = String c (stripFence a).
Proof.
  destruct a as [|b [|d rest]]; try reflexivity.
  cbn [startsWith].
  replace (startsWith rest "") with true by (destruct rest; reflexivity).
  rewrite andb_true_r, andb_assoc, !(Ascii.eqb_sym "`"%char). intros H.
  cbn [stripFence]. unfold isTick. now rewrite H.
Qed.

Lemma stripSqlFence_elsewhere (a : string) (c : ascii) :
  startsWith (String c a) "```" = false ->
  stripSqlFence (String c a) = String c (stripSqlFence a).
Proof.
  destruct a as [|b [|d [|e [|f [|g rest]]]]]; try reflexivity.
  cbn [startsWith].
  replace (startsWith (String e (String f (String g rest))) "") with true
    by reflexivity.
  rewrite andb_true_r, andb_assoc, !(Ascii.eqb_sym "`"%char). intros H.
  cbn [stripSqlFence]. unfold isTick. now rewrite H.
Qed.

Lemma fence_start (s : string) :
  startsWith s "```" = true -> exists rest, s = "```" ++ rest.
Proof. apply startsWith_iff. Qed.

Lemma leadTicks_stripFence (s : string) :
  (leadTicks s <= 2)%nat -> (leadTicks (stripFence s) <= leadTicks s)%nat.
Proof.
  induction s as [|c a IH]; [reflexivity|]. intros Hle.
  assert (Hnf : startsWith (String c a) "```" = false).
  { destruct (startsWith (String c a) "```") eqn:E; [|reflexivity].
    apply startsWith_fence in E. lia. }
  rewrite (stripFence_elsewhere a c Hnf). cbn [leadTicks] in *.
  destruct (isTick c); [|lia].
  assert (leadTicks (stripFence a) <= leadTicks a)%nat by (apply IH; lia).
  lia.
Qed.

Lemma afterOptionalNewline_length (rest : string) :
  (String.length (afterOptionalNewline rest) <= String.length rest)%nat.
Proof.
  destruct rest as [|g rest']; [reflexivity|].
  cbn [afterOptionalNewline]. destruct (Ascii.eqb g newline);
    cbn [String.length]; lia.
Qed.

(** After the second replacement no fence is left. *)
Lemma stripFence_no_fence (s : string) :
  includes (stripFence s) "```" = false.
Proof.
  assert (H : forall n s, (String.length s <= n)%nat ->
                          includes (stripFence s) "```" = false).
  { clear s. induction n as [|n IH]; intros s Hlen.
    - destruct s; [reflexivity | cbn in Hlen; lia].
    - destruct s as [|c a]; [reflexivity|].
      destruct (startsWith (String c a) "```") eqn:E.
      + destruct (fence_start _ E) as [rest Hs]. rewrite Hs.
        rewrite stripFence_at_fence. apply IH.
        pose proof (afterOptionalNewline_length rest).
        rewrite Hs in Hlen. cbn in Hlen. lia.
      + rewrite (stripFence_elsewhere a c E). cbn [includes].
        rewrite (IH a) by (cbn in Hlen; lia). rewrite orb_false_r.
        destruct (startsWith (String c (stripFence a)) "```") eqn:E';
          [|reflexivity].
        apply startsWith_fence in E'. cbn [leadTicks] in E'.
        assert (Hs : (leadTicks (String c a) <= 2)%nat).
        { destruct (Nat.le_gt_cases (leadTicks (String c a)) 2) as [H|H];
            [exact H|].
          assert (E2 : startsWith (String c a) "```" = true)
            by (apply startsWith_fence; lia).
          congruence. }
        cbn [leadTicks] in Hs. destruct (isTick c); [|lia].
        assert (leadTicks (stripFence a) <= leadTicks a)%nat
          by (apply leadTicks_stripFence; lia).
        lia. }
  exact (H (String.length s) s (le_n _)).
Qed.

(** A text without a fence goes through both replacements unchanged. *)
Lemma no_fence_unchanged (s : string) :
  includes s "```" = false -> stripSqlFence s = s /\ stripFence s = s.
Proof.
  induction s as [|c a IH]; [split; reflexivity|].
  cbn [includes]. intros H. apply orb_false_iff in H as [Hs Ha].
  destruct (IH Ha) as [IH1 IH2].
  rewrite (stripSqlFence_elsewhere a c Hs), (stripFence_elsewhere a c Hs).
  now rewrite IH1, IH2.
Qed.

Lemma trimEnd_idempotent (s : string) : trimEnd (trimEnd s) = trimEnd s.
Proof.
  induction s as [|c s IH]; [reflexivity|]. cbn [trimEnd].
  destruct (trimEnd s) as [|d t] eqn:E.
  - destruct (isWhiteSpace c) eqn:Ec; [reflexivity|].
    cbn [trimEnd]. now rewrite Ec.
  - cbn [trimEnd] in *. now rewrite IH.
Qed.

Lemma trimStart_head (s : string) :
  trimStart s = ""
  \/ exists c t, trimStart s = String c t /\ isWhiteSpace c = false.
Proof.
  induction s as [|c s IH]; [now left|]. cbn [trimStart].
  destruct (isWhiteSpace c) eqn:E; [exact IH|]. right. now exists c, s.
Qed.

Lemma trimEnd_head (c : ascii) (t : string) :
  isWhiteSpace c = false -> exists u, trimEnd (String c t) = String c u.
Proof.
  intros Hc. cbn [trimEnd]. destruct (trimEnd t) as [|d u].
  - rewrite Hc. now exists "".
  - now exists (String d u).
Qed.

Lemma trim_idempotent (s : string) : trim (trim s) = trim s.
Proof.
  unfold trim.
  destruct (trimStart_head s) as [-> | [c [t [-> Hc]]]]; [reflexivity|].
  destruct (trimEnd_head c t Hc) as [u Hu].
  replace (trimStart (trimEnd (String c t))) with (trimEnd (String c t)).
  - apply trimEnd_idempotent.
  - rewrite Hu. cbn [trimStart]. now rewrite Hc.
Qed.

Lemma includes_trim (s p : string) :
  includes (trim s) p = true -> includes s p = true.
Proof.
  rewrite !includes_iff. intros [pre [post H]].
  destruct (trim_split s) as [lead [trail [Hs _]]].
  exists (lead ++ pre), (post ++ trail).
  rewrite Hs, H, !append_assoc. reflexivity.
Qed.

Lemma dropFinalSemicolon_split (s : string) :
  exists tail, s = dropFinalSemicolon s ++ tail.
Proof.
  induction s as [|c s [tail IH]]; [now exists ""|].
  cbn [dropFinalSemicolon]. destruct s as [|d t].
  - destruct (Ascii.eqb c ";"); [now exists (String c "") | now exists ""].
  - exists tail. cbn [append]. now rewrite <- IH.
Qed.

Lemma includes_dropFinalSemicolon (s p : string) :
  includes (dropFinalSemicolon s) p = true -> includes s p = true.
Proof.
  destruct (dropFinalSemicolon_split s) as [tail Hs].
  intros H. rewrite Hs. now apply includes_app_l.
Qed.

End FenceFacts.

(** X12.  No code fence survives the cleaning: neither the result of
    [extractSQL] nor the result of [cleanSQL] contains three backticks in
    a row, whatever the model answered (removing a fence never brings
    the backticks around it together into a new one). *)
Theorem cleaned_answer_has_no_code_fence :
  forall text : string,
    includes (extractSQL text) "```" = false
    /\ includes (cleanSQL text) "```" = false.
Proof.
  intros text. unfold extractSQL, cleanSQL. cbv zeta.
  pose proof (stripFence_no_fence (stripSqlFence (trim text))) as H.
  split.
  - destruct (includes (trim (stripFence (stripSqlFence (trim text)))) "```")
      eqn:E; [|reflexivity].
    apply includes_trim in E. congruence.
  - destruct (includes
                (trim (dropFinalSemicolon
                         (stripFence (stripSqlFence (trim text))))) "```")
      eqn:E; [|reflexivity].
    apply includes_trim, includes_dropFinalSemicolon in E. congruence.
Qed.

(** X13.  [extractSQL] is idempotent and its result is trimmed; on an
    answer without any fence it only trims, and [cleanSQL] then trims,
    drops one final semicolon and trims again. *)
Theorem extractSQL_idempotent :
  forall text : string,
    extractSQL (extractSQL text) = extractSQL text
    /\ trim (extractSQL text) = extractSQL text
    /\ (includes text "```" = false ->
        extractSQL text = trim text
        /\ cleanSQL text = trim (dropFinalSemicolon (trim text))).
Proof.
  intros text.
  assert (Hplain : forall t,
             includes t "```" = false ->
             extractSQL t = trim t
             /\ cleanSQL t = trim (dropFinalSemicolon (trim t))).
  { intros t Ht. unfold extractSQL, cleanSQL. cbv zeta.
    assert (Htrim : includes (trim t) "```" = false).
    { destruct (includes (trim t) "```") eqn:E; [|reflexivity].
      apply includes_trim in E. congruence. }
    destruct (no_fence_unchanged (trim t) Htrim) as [H1 H2].
    rewrite H1, H2, trim_idempotent. split; reflexivity. }
  assert (Htrimmed : trim (extractSQL text) = extractSQL text)
    by (unfold extractSQL; cbv zeta; apply trim_idempotent).
  split; [|split; [exact Htrimmed | exact (Hplain text)]].
  assert (Hno : includes (extractSQL text) "```" = false).
  { destruct (includes (extractSQL text) "```") eqn:E; [|reflexivity].
    unfold extractSQL in E. cbv zeta in E. apply includes_trim in E.
    rewrite stripFence_no_fence in E. discriminate E. }
  destruct (Hplain (extractSQL text) Hno) as [-> _]. exact Htrimmed.
Qed.

(** X13, on an answer without a fence. *)
Lemma extractSQL_idempotent_witness :
  extractSQL "  SELECT 1;  " = "SELECT 1;"
  /\ cleanSQL "  SELECT 1;  " = "SELECT 1".
Proof.
  destruct (extractSQL_idempotent "  SELECT 1;  ") as [_ [_ H]].
  destruct (H eq_refl) as [-> ->]. split; reflexivity.
Defined.

(* ===================================================================== *)
(** ** Calling the model *)
(* ===================================================================== *)

Section SafeGenerate.

Variable model : nat -> string -> LlmReply.
Variable prompt : string.

Lemma safeGenerate_calls (retries : nat) :
  forall i,
    (S i <= snd (safeGenerate model i prompt retries) <= S (i + retries))%nat.
Proof.
  induction retries as [|r IH]; intros i; cbn [safeGenerate];
    destruct (model i prompt); cbn [snd]; try lia.
  specialize (IH (S i)). lia.
Qed.

Lemma safeGenerate_first_text (k : nat) :
  forall i retries text,
    (k <= retries)%nat ->
    (forall j, (j < k)%nat -> exists m, model (i + j) prompt = LlmThrows m) ->
    model (i + k) prompt = LlmText text ->
    safeGenerate model i prompt retries = (LlmText text, S (i + k)).
Proof.
  induction k as [|k IH]; intros i retries text Hk Hfail Hok.
  - rewrite Nat.add_0_r in *. destruct retries; cbn [safeGenerate];
      now rewrite Hok.
  - destruct retries as [|r]; [lia|]. cbn [safeGenerate].
    destruct (Hfail 0%nat) as [m Hm]; [lia|]. rewrite Nat.add_0_r in Hm.
    rewrite Hm. rewrite (IH (S i) r text).
    + f_equal. lia.
    + lia.
    + intros j Hj. destruct (Hfail (S j)) as [m' Hm']; [lia|].
      exists m'. now rewrite <- Hm', Nat.add_succ_r.
    + now rewrite <- Hok, Nat.add_succ_r.
Qed.

Lemma safeGenerate_all_throw (retries : nat) :
  forall i (messages : nat -> string),
    (forall j, (j <= retries)%nat ->
               model (i + j) prompt = LlmThrows (messages j)) ->
    safeGenerate model i prompt retries
    = (LlmThrows (messages retries), S (i + retries)).
Proof.
  induction retries as [|r IH]; intros i messages Hfail; cbn [safeGenerate].
  - rewrite <- (Nat.add_0_r i) at 1. rewrite (Hfail 0%nat) by lia.
    now rewrite Nat.add_0_r.
  - rewrite <- (Nat.add_0_r i) at 1. rewrite (Hfail 0%nat) by lia.
    rewrite (IH (S i) (fun j => messages (S j))).
    + f_equal. lia.
    + intros j Hj. rewrite <- (Hfail (S j)) by lia.
      now rewrite Nat.add_succ_r.
Qed.

End SafeGenerate.

(** X14.  [safeGenerate] calls the model at least once and at most
    [retries + 1] times.  It returns the first text the model gives,
    right after the call that gave it; when all [retries + 1] calls throw,
    it throws the error of the last call, not of the first. *)
Theorem safeGenerate_retries :
  forall (model : nat -> string -> LlmReply) (prompt : string)
         (retries : nat),
    (1 <= snd (safeGenerate model 0 prompt retries) <= retries + 1)%nat
    /\ (forall k text,
           (k <= retries)%nat ->
           (forall j, (j < k)%nat ->
                      exists m, model j prompt = LlmThrows m) ->
           model k prompt = LlmText text ->
           safeGenerate model 0 prompt retries = (LlmText text, S k))
    /\ (forall messages : nat -> string,
           (forall j, (j <= retries)%nat ->
                      model j prompt = LlmThrows (messages j)) ->
           safeGenerate model 0 prompt retries
           = (LlmThrows (messages retries), S retries)).
Proof.
  intros model prompt retries. split; [|split].
  - pose proof (safeGenerate_calls model prompt retries 0). cbn in H. lia.
  - intros k text Hk Hfail Hok.
    exact (safeGenerate_first_text model prompt k 0 retries text Hk Hfail Hok).
  - intros messages Hfail.
    exact (safeGenerate_all_throw model prompt retries 0 messages Hfail).
Qed.

(** X14, with the default of two retries: a model that drops the first two
    requests is asked three times; one that drops all three makes the
    last error the reported one. *)
Lemma safeGenerate_retries_witness :
  safeGenerate
    (fun i _ => match i with
                | 0 | 1 => LlmThrows "dropped"
                | _ => LlmText "SELECT 1"
                end) 0 "prompt" 2
  = (LlmText "SELECT 1", 3%nat)
  /\ safeGenerate
       (fun i _ => match i with
                   | 0 => LlmThrows "first"
                   | 1 => LlmThrows "second"
                   | _ => LlmThrows "third"
                   end) 0 "prompt" 2
     = (LlmThrows "third", 3%nat).
Proof.
  split.
  - destruct (safeGenerate_retries
                (fun i _ => match i with
                            | 0 | 1 => LlmThrows "dropped"
                            | _ => LlmText "SELECT 1"
                            end) "prompt" 2) as [_ [H _]].
    apply (H 2%nat "SELECT 1"); [lia | | reflexivity].
    intros [|[|j]] Hj; [now exists "dropped" | now exists "dropped" | lia].
  - destruct (safeGenerate_retries
                (fun i _ => match i with
                            | 0 => LlmThrows "first"
                            | 1 => LlmThrows "second"
                            | _ => LlmThrows "third"
                            end) "prompt" 2) as [_ [_ H]].
    apply (H (fun j => match j with
                       | 0 => "first"
                       | 1 => "second"
                       | _ => "third"
                       end)).
    intros [|[|[|j]]] Hj; reflexivity.
Defined.

(* ===================================================================== *)
(** ** The prompt *)
(* ===================================================================== *)

Section PromptFacts.

Lemma occurs_refl (p : string) : occurs p p.
Proof.
  exists "", "". cbn. induction p as [|c p IH]; cbn; [reflexivity|].
  now rewrite <- IH.
Qed.

Lemma occurs_app_l (p a b : string) : occurs p a -> occurs p (a ++ b).
Proof.
  intros [pre [post ->]]. exists pre, (post ++ b).
  now rewrite !append_assoc.
Qed.

Lemma occurs_app_r (p a b : string) : occurs p b -> occurs p (a ++ b).
Proof.
  intros [pre [post ->]]. exists (a ++ pre), post.
  now rewrite !append_assoc.
Qed.

Lemma occurs_trans (p q s : string) : occurs p q -> occurs q s -> occurs p s.
Proof.
  intros [pre [post ->]] [pre' [post' ->]].
  exists (pre' ++ pre), (post ++ post'). now rewrite !append_assoc.
Qed.

Lemma occurs_concatAll (x : string) (l : list string) :
  In x l -> occurs x (concatAll l).
Proof.
  induction l as [|y l IH]; [intros []|]. intros [-> | Hin]; cbn.
  - apply occurs_app_l, occurs_refl.
  - apply occurs_app_r. auto.
Qed.

End PromptFacts.

(** X15.  The schema given to the model leaves nothing out: for every
    table of the schema its block occurs in [formatSchemaForPrompt], the
    block starts with the table's name and, for every column of the
    table, contains the column's line with its name, type, nullability
    and (when it has one) default; and the prompt of [generateQuery]
    contains that schema text and the question. *)
Theorem schema_prompt_lists_every_column :
  forall (schema : Schema) (table : string) (columns : list Column)
         (col : Column) (question : string) (p f : option string),
    In (table, columns) schema ->
    In col columns ->
    occurs (tableBlock (table, columns)) (formatSchemaForPrompt schema)
    /\ (exists lines,
           tableBlock (table, columns)
           = "Table: " ++ table ++ nl ++ "Columns:" ++ nl ++ lines ++ nl
           /\ occurs (columnLine col) lines)
    /\ (exists rest,
           columnLine col
           = "  - " ++ col_column col ++ " (" ++ col_type col ++ ")"
             ++ (if col_nullable col then " NULL" else " NOT NULL") ++ rest)
    /\ occurs (formatSchemaForPrompt schema)
         (generationPrompt question schema p f)
    /\ occurs ("User Question: " ++ question ++ nl)
         (generationPrompt question schema p f).
Proof.
  intros schema table columns col question p f Ht Hc.
  split; [|split; [|split]].
  - unfold formatSchemaForPrompt.
    apply occurs_app_r, occurs_app_r, occurs_app_r, occurs_concatAll.
    exact (in_map tableBlock _ _ Ht).
  - exists (concatAll (map columnLine columns)). split.
    + reflexivity.
    + apply occurs_concatAll. exact (in_map columnLine _ _ Hc).
  - eexists. reflexivity.
  - assert (Hbase : occurs (formatSchemaForPrompt schema)
                      (basePrompt question schema)
                    /\ occurs ("User Question: " ++ question ++ nl)
                         (basePrompt question schema)).
    { unfold basePrompt. split.
      - apply occurs_app_r, occurs_app_r, occurs_app_r, occurs_app_l,
          occurs_refl.
      - do 21 apply occurs_app_r. apply occurs_refl. }
    unfold generationPrompt. cbv zeta.
    destruct Hbase as [Hschema Hquestion].
    destruct (truthy p && truthy f); split;
      solve [assumption | apply occurs_app_l; assumption].
Qed.

(** X15, on the example schema. *)
Lemma schema_prompt_lists_every_column_witness :
  occurs ("  - name (text) NULL" ++ nl)
    (generationPrompt "How many users?" demoSchema None None).
Proof.
  destruct (schema_prompt_lists_every_column demoSchema "users"
              [mkColumn "id" "integer" false None;
               mkColumn "name" "text" true None]
              (mkColumn "name" "text" true None) "How many users?" None None)
    as [Hblock [[lines [Hb Hl]] [_ [Hprompt _]]]].
  - now left.
  - right. now left.
  - eapply occurs_trans; [|exact Hprompt].
    eapply occurs_trans; [|exact Hblock].
    rewrite Hb.
    apply (occurs_app_r _ "Table: "), (occurs_app_r _ "users"),
      (occurs_app_r _ nl), (occurs_app_r _ "Columns:"), (occurs_app_r _ nl),
      (occurs_app_l _ lines nl).
    exact Hl.
Defined.

(* ===================================================================== *)
(** ** An empty answer and the next prompt *)
(* ===================================================================== *)

Section AnsweredInTurn.

Variable w : World.
Variable question : string.
Variable schema : Schema.

Local Open Scope list_scope.

Lemma answeredInTurn_snoc (calls : list Call) (p f : option string) :
  answeredInTurn w question schema calls ->
  answeredInTurn w question schema
    (calls
     ++ [CallGenerateQuery question schema p f
           (generateQuery w (List.length calls) question schema p f)]).
Proof.
  intros H i c Hi.
  destruct (Nat.lt_ge_cases i (List.length calls)) as [Hlt | Hge].
  - rewrite nth_error_app1 in Hi by exact Hlt. exact (H i c Hi).
  - rewrite nth_error_app2 in Hi by exact Hge.
    destruct (i - List.length calls)%nat as [|k] eqn:E; cbn in Hi.
    + injection Hi as <-. replace i with (List.length calls) by lia.
      now exists p, f.
    + now destruct k.
Qed.

Lemma refinementLoop_answeredInTurn (maxRetries : Z) (fuel : nat)
      (v0 : Vars) (st0 : St.t) (ex : LoopExit) (st' : St.t) :
  answeredInTurn w question schema (generationCalls (St.calls st0)) ->
  refinementLoop w question maxRetries fuel schema v0 st0 = Some (ex, st') ->
  answeredInTurn w question schema (generationCalls (St.calls st')).
Proof.
  apply (refinementLoop_rule w question maxRetries schema
           (fun _ st =>
              answeredInTurn w question schema
                (generationCalls (St.calls st)))
           (fun _ st' =>
              answeredInTurn w question schema
                (generationCalls (St.calls st')))).
  - intros v st HP _.
    destruct (loopBody_cases w question schema v st)
      as [[error [r [_ [-> _]]]]
         | [query [raw [st1 [_ [-> [[_ ->] | [_ ->]]]]]]]];
      cbn [St.calls St.push St.record];
      rewrite generationCalls_app;
      cbn [generationCalls filter isGeneration];
      apply answeredInTurn_snoc, HP.
  - intros v st HP _. exact HP.
Qed.

(** In a chain of generation calls, the call after one that produced
    [query] receives [query] and the joined issues of its verdict. *)
Lemma feedbackChain_next (calls : list Call) :
  forall (p0 f0 : option string) (i : nat) (q : string) (s : Schema)
         (p f : option string) (query raw : string) (c : Call),
    feedbackChain p0 f0 calls ->
    nth_error calls i = Some (CallGenerateQuery q s p f (GenOk query raw)) ->
    nth_error calls (S i) = Some c ->
    exists q' s' result,
      c = CallGenerateQuery q' s' (Some query)
            (Some (join "; " (issues (checkQuerySafety query)))) result.
Proof.
  induction calls as [|c0 calls IH];
    intros p0 f0 i q s p f query raw c Hchain Hi Hnext.
  - destruct i; discriminate Hi.
  - destruct c0 as [|q0 s0 p1 f1 result0| | |]; try contradiction.
    apply feedbackChain_cons in Hchain as [_ [_ [-> | Hrej]]].
    + destruct i; discriminate Hnext.
    + destruct Hrej as [query0 [raw0 [-> [_ Hrest]]]].
      destruct i as [|i]; cbn [nth_error] in Hi, Hnext.
      * injection Hi as _ _ _ _ <- _.
        destruct calls as [|c1 calls]; [discriminate Hnext|].
        injection Hnext as ->.
        destruct c as [|q' s' p' f' result'| | |]; try contradiction.
        apply feedbackChain_cons in Hrest as [-> [-> _]].
        now exists q', s', result'.
      * exact (IH _ _ _ _ _ _ _ _ _ _ Hrest Hi Hnext).
Qed.

End AnsweredInTurn.

Section AgentAnsweredInTurn.

Variable w : World.
Variable question : string.
Variable options : Options.

(** The generation calls of a run: one question, one schema, the model
    asked in turn, and the feedback discipline between the calls. *)
Lemma sqlQueryAgent_generationCalls (r : AgentResult.t) (st : St.t)
      (schema : Schema) :
  sqlQueryAgent w question options = Some (r, st) ->
  extractSchema w = inr schema ->
  answeredInTurn w question schema (generationCalls (St.calls st))
  /\ feedbackChain None None (generationCalls (St.calls st)).
Proof.
  intros Hrun Hschema.
  destruct (sqlQueryAgent_cases w question options)
    as [[message [Hthrew _]] | [schema' [ex [st1 [Hschema' [Hloop Heq]]]]]].
  - rewrite Hschema in Hthrew. discriminate Hthrew.
  - rewrite Hschema in Hschema'. injection Hschema' as <-.
    pose proof (afterLoop_generationCalls w question options ex st1) as Hgen.
    rewrite Hrun in Heq. injection Heq as Heq. rewrite <- Heq in Hgen.
    cbn [snd] in Hgen. rewrite Hgen. split.
    + eapply refinementLoop_answeredInTurn; [|exact Hloop].
      intros i c Hi. destruct i; discriminate Hi.
    + eapply refinementLoop_feedback; [|exact Hloop].
      intros q s result. cbn. auto.
Qed.

End AgentAnsweredInTurn.

(** X16.  An empty answer is not reported back to the model.  When a
    generation call of a run over [generateQuery] of llmNodes.js produced
    the empty query (the model answered with blanks or an empty code
    block) and the budget allows another call, that call is made with the
    empty text as previous attempt and the statement-type issue as
    feedback; since the empty text is falsy the correction context is left
    out, so the model is sent the prompt of a first call again and the
    call's result is what the model answers to that prompt. *)
Theorem empty_attempt_repeats_the_prompt :
  forall (llm : nat -> string -> LlmReply) (base : World)
         (question : string) (options : Options)
         (r : AgentResult.t) (st : St.t)
         (i : nat) (q : string) (s : Schema) (p f : option string)
         (raw : string),
    sqlQueryAgent (llmWorld llm base) question options = Some (r, st) ->
    nth_error (generationCalls (St.calls st)) i
    = Some (CallGenerateQuery q s p f (GenOk "" raw)) ->
    (Z.of_nat (S i) < orDefault (opt_maxRetries options) 3)%Z ->
    nth_error (generationCalls (St.calls st)) (S i)
    = Some (CallGenerateQuery q s (Some "") (Some selectIssue)
              (generateQueryNode (llm (S i)) q s None None))
    /\ generationPrompt q s (Some "") (Some selectIssue)
       = generationPrompt q s None None.
Proof.
  intros llm base question options r st i q s p0 f0 raw0 Hrun Hi Hroom.
  split; [|reflexivity].
  destruct (sqlQueryAgent_outcome (llmWorld llm base) question options)
    as [r' [st' [Hrun' Hout]]].
  rewrite Hrun in Hrun'. injection Hrun' as <- <-.
  assert (Hnext : exists c,
             nth_error (generationCalls (St.calls st)) (S i) = Some c
             /\ exists schema,
                  extractSchema (llmWorld llm base) = inr schema).
  { assert (Hlast : forall (gens : list Call) (c : Call),
               generationCalls (St.calls st) = (gens ++ [c])%list ->
               (i < List.length gens)%nat ->
               exists c', nth_error (generationCalls (St.calls st)) (S i)
                          = Some c').
    { intros gens c Heq Hlt.
      destruct (nth_error (generationCalls (St.calls st)) (S i)) as [c'|]
        eqn:E; [now exists c'|].
      apply nth_error_None in E. rewrite Heq, length_app in E.
      cbn [List.length] in E. lia. }
    assert (Hpos : forall (gens : list Call) (c : Call),
               generationCalls (St.calls st) = (gens ++ [c])%list ->
               (i < List.length gens)%nat
               \/ c = CallGenerateQuery q s p0 f0 (GenOk "" raw0)
                  /\ i = List.length gens).
    { intros gens c Heq. rewrite Heq in Hi.
      destruct (Nat.lt_ge_cases i (List.length gens)) as [Hlt | Hge];
        [now left | right].
      rewrite nth_error_app2 in Hi by exact Hge.
      destruct (i - List.length gens)%nat as [|k] eqn:E; cbn in Hi.
      - injection Hi as ->. split; [reflexivity | lia].
      - now destruct k. }
    run_outcome Hout; try (cbn in Hi; destruct i; discriminate Hi);
      destruct (Hpos _ _ Hgen) as [Hlt | [Hc Hlen']];
      try (destruct (Hlast _ _ Hgen Hlt) as [c' Hc']; exists c';
           split; [exact Hc' | now exists schema]);
      try discriminate Hc;
      injection Hc as _ _ _ _ -> _;
      try (vm_compute in Hsafe; discriminate Hsafe).
    exfalso. lia. }
  destruct Hnext as [c [Hc [schema Hschema]]].
  destruct (sqlQueryAgent_generationCalls (llmWorld llm base) question
              options r st schema Hrun Hschema) as [Hturn Hchain].
  destruct (feedbackChain_next _ _ _ _ _ _ _ _ _ _ _ Hchain Hi Hc)
    as [q' [s' [result ->]]].
  destruct (Hturn i _ Hi) as [p1 [f1 H1]]. injection H1 as -> -> _ _ _.
  destruct (Hturn (S i) _ Hc) as [p2 [f2 H2]].
  injection H2 as -> -> <- <- ->.
  rewrite Hc. reflexivity.
Qed.

(** X16, with a model whose first answer is an empty code block. *)
Lemma empty_attempt_repeats_the_prompt_witness :
  exists r st,
    sqlQueryAgent (llmWorld emptyFirstModel demoWorld) "How many users?"
      (mkOptions None None None) = Some (r, st)
    /\ nth_error (generationCalls (St.calls st)) 1
       = Some (CallGenerateQuery "How many users?" demoSchema (Some "")
                 (Some selectIssue) (GenOk "SELECT 1" "SELECT 1")).
Proof.
  destruct (sqlQueryAgent_outcome (llmWorld emptyFirstModel demoWorld)
              "How many users?" (mkOptions None None None))
    as [r [st [Hrun _]]].
  exists r, st. split; [exact Hrun|].
  destruct (empty_attempt_repeats_the_prompt emptyFirstModel demoWorld
              "How many users?" (mkOptions None None None) r st 0
              "How many users?" demoSchema None None
              ("```sql" ++ nl ++ "```") Hrun) as [H _].
  - vm_compute in Hrun. injection Hrun as _ <-. reflexivity.
  - cbn. lia.
  - rewrite H. reflexivity.
Defined.

(* ===================================================================== *)
(** ** The schema object *)
(* ===================================================================== *)

Section SchemaObject.

Local Open Scope list_scope.

Lemma schemaLookup_set (key key' : string) (columns : list Column)
      (schema : Schema) :
  schemaLookup key' (schemaSet key columns schema)
  = if String.eqb key key' then Some columns else schemaLookup key' schema.
Proof.
  induction schema as [|[k old] rest IH]; cbn [schemaSet schemaLookup].
  - reflexivity.
  - destruct (String.eqb k key) eqn:E; cbn [schemaLookup].
    + apply String.eqb_eq in E. subst k.
      destruct (String.eqb key key'); reflexivity.
    + destruct (String.eqb k key') eqn:E'; [|exact IH].
      apply String.eqb_eq in E'. subst k. now rewrite String.eqb_sym, E.
Qed.

Lemma schemaLookup_None (key : string) (schema : Schema) :
  schemaLookup key schema = None <-> ~ In key (map fst schema).
Proof.
  induction schema as [|[k old] rest IH]; cbn [schemaLookup map fst In].
  - tauto.
  - destruct (String.eqb_spec k key) as [-> | Hne].
    + split; [discriminate | tauto].
    + rewrite IH. tauto.
Qed.

Lemma schemaSet_keys (key : string) (columns : list Column)
      (schema : Schema) :
  map fst (schemaSet key columns schema)
  = match schemaLookup key schema with
    | Some _ => map fst schema
    | None => map fst schema ++ [key]
    end.
Proof.
  induction schema as [|[k old] rest IH];
    cbn [schemaSet schemaLookup map fst app]; [reflexivity|].
  destruct (String.eqb k key); cbn [map fst]; [reflexivity|].
  rewrite IH. now destruct (schemaLookup key rest).
Qed.

Lemma columnsOf_snoc (table : string) (rows : list SchemaRow)
      (row : SchemaRow) :
  columnsOf table (rows ++ [row])
  = columnsOf table rows
    ++ (if String.eqb (table_name row) table then [columnOfRow row] else []).
Proof.
  unfold columnsOf. rewrite filter_app, map_app. cbn [filter].
  now destruct (String.eqb (table_name row) table).
Qed.

Lemma groupRow_groups (schema : Schema) (seen : list SchemaRow)
      (row : SchemaRow) :
  groups schema seen ->
  inheritsKey (table_name row) = false ->
  exists schema',
    groupRow schema row = inr schema' /\ groups schema' (seen ++ [row]).
Proof.
  intros [Hnodup Hlookup] Hown. unfold groupRow, schemaGet. cbv zeta.
  assert (Hnew : forall old schema0,
             (forall table,
                 schemaLookup table schema0
                 = if String.eqb (table_name row) table then Some old
                   else schemaLookup table schema) ->
             old = columnsOf (table_name row) seen ->
             NoDup (map fst schema0) ->
             groups (schemaSet (table_name row) (old ++ [columnOfRow row])
                       schema0) (seen ++ [row])).
  { intros old schema0 H0 Hold Hnd. split.
    - rewrite schemaSet_keys, H0, String.eqb_refl. exact Hnd.
    - intros table. rewrite schemaLookup_set, columnsOf_snoc.
      destruct (String.eqb_spec (table_name row) table) as [<- | Hne].
      + rewrite <- Hold. now destruct old.
      + rewrite H0. destruct (String.eqb_spec (table_name row) table);
          [contradiction|].
        rewrite Hlookup, app_nil_r. reflexivity. }
  destruct (schemaLookup (table_name row) schema) as [old|] eqn:E.
  - rewrite E. eexists. split; [reflexivity|].
    apply Hnew; [| |exact Hnodup].
    + intros table.
      destruct (String.eqb_spec (table_name row) table) as [<- | _];
        [exact E | reflexivity].
    + rewrite Hlookup in E.
      destruct (columnsOf (table_name row) seen); [discriminate E|].
      now injection E as <-.
  - rewrite Hown, schemaLookup_set, String.eqb_refl.
    eexists. split; [reflexivity|].
    apply Hnew.
    + intros table. apply schemaLookup_set.
    + rewrite Hlookup in E.
      now destruct (columnsOf (table_name row) seen).
    + rewrite schemaSet_keys, E. apply NoDup_app.
      * exact Hnodup.
      * repeat constructor. intros [].
      * intros key Hin [<- | []]. now apply schemaLookup_None in E.
Qed.

Lemma groupRows_groups (rows : list SchemaRow) :
  forall (schema : Schema) (seen : list SchemaRow),
    groups schema seen ->
    Forall (fun row => inheritsKey (table_name row) = false) rows ->
    exists schema',
      groupRows rows schema = inr schema' /\ groups schema' (seen ++ rows).
Proof.
  induction rows as [|row rows IH]; intros schema seen Hg Hown;
    cbn [groupRows].
  - exists schema. now rewrite app_nil_r.
  - inversion Hown as [|? ? Hrow Hrest]; subst.
    destruct (groupRow_groups schema seen row Hg Hrow) as [schema1 [-> Hg1]].
    destruct (IH schema1 (seen ++ [row]) Hg1 Hrest) as [schema' [-> Hg']].
    exists schema'. split; [reflexivity|].
    now rewrite <- app_assoc in Hg'.
Qed.

(** The callback throws on a row whose table has an inherited name. *)
Lemma groupRow_inherited (schema : Schema) (row : SchemaRow) :
  ~ In (table_name row) (map fst schema) ->
  inheritsKey (table_name row) = true ->
  groupRow schema row = inl pushIsNotAFunction.
Proof.
  intros Hfresh Hinh. apply schemaLookup_None in Hfresh.
  unfold groupRow, schemaGet. cbv zeta. rewrite Hfresh, Hinh.
  cbv iota. now rewrite Hfresh.
Qed.

Lemma groupRow_message (schema : Schema) (row : SchemaRow)
      (message : string) :
  groupRow schema row = inl message -> message = pushIsNotAFunction.
Proof.
  unfold groupRow. cbv zeta.
  destruct (schemaGet (table_name row)
              match schemaGet (table_name row) schema with
              | SlotUndefined => schemaSet (table_name row) [] schema
              | _ => schema
              end); intros H; try discriminate H; now injection H as <-.
Qed.

Lemma groupRow_keys (schema schema' : Schema) (row : SchemaRow) :
  groupRow schema row = inr schema' ->
  forall key,
    In key (map fst schema') ->
    In key (map fst schema)
    \/ key = table_name row /\ inheritsKey key = false.
Proof.
  unfold groupRow, schemaGet. cbv zeta.
  destruct (schemaLookup (table_name row) schema) as [old|] eqn:E.
  - cbv iota. rewrite ?E. intros H key. injection H as <-.
    rewrite schemaSet_keys, E. now left.
  - destruct (inheritsKey (table_name row)) eqn:Hinh; cbv iota.
    + rewrite ?E, ?Hinh. discriminate.
    + rewrite schemaLookup_set, String.eqb_refl. intros H key.
      injection H as <-.
      rewrite schemaSet_keys, schemaLookup_set, String.eqb_refl,
        schemaSet_keys, E.
      intros Hin. apply in_app_or in Hin as [Hin | [<- | []]];
        [now left | right; split; [reflexivity | exact Hinh]].
Qed.

Lemma groupRows_inherited (rows : list SchemaRow) :
  forall (schema : Schema) (row : SchemaRow),
    (forall key, In key (map fst schema) -> inheritsKey key = false) ->
    In row rows ->
    inheritsKey (table_name row) = true ->
    groupRows rows schema = inl pushIsNotAFunction.
Proof.
  induction rows as [|row0 rows IH]; intros schema row Hkeys Hin Hinh;
    [destruct Hin|].
  cbn [groupRows].
  destruct (groupRow schema row0) as [message | schema1] eqn:E.
  - now rewrite (groupRow_message schema row0 message E).
  - destruct Hin as [-> | Hin].
    + exfalso. destruct (schemaLookup (table_name row) schema) eqn:El.
      * assert (Hk : In (table_name row) (map fst schema)).
        { destruct (in_dec string_dec (table_name row) (map fst schema))
            as [Hk | Hk]; [exact Hk|].
          apply schemaLookup_None in Hk. congruence. }
        apply Hkeys in Hk. congruence.
      * apply schemaLookup_None in El.
        rewrite (groupRow_inherited schema row El Hinh) in E. discriminate E.
    + apply (IH schema1 row); [|exact Hin | exact Hinh].
      intros key Hk.
      destruct (groupRow_keys schema schema1 row0 E key Hk) as [H | [_ H]];
        [now apply Hkeys | exact H].
Qed.

End SchemaObject.

(** X17.  [extractSchema] groups the columns by table.  When no table
    bears the name of a property that objects inherit, it returns a schema
    object in which every table of the rows is one property, and the
    property of a table holds exactly the columns of that table's rows, in
    the order of the rows, with [nullable] true exactly for "YES"; a name
    that is no table of the rows is not a property. *)
Theorem extractSchema_groups_columns :
  forall rows : list SchemaRow,
    Forall (fun row => inheritsKey (table_name row) = false) rows ->
    exists schema : Schema,
      extractSchemaNode (inr rows) = inr schema
      /\ NoDup (map fst schema)
      /\ (forall table columns,
             schemaLookup table schema = Some columns <->
             columns <> []
             /\ columns
                = map columnOfRow
                    (filter (fun row => String.eqb (table_name row) table)
                       rows))
      /\ (forall row,
             In row rows ->
             exists columns,
               schemaLookup (table_name row) schema = Some columns
               /\ In {| col_column := column_name row;
                        col_type := data_type row;
                        col_nullable := String.eqb (is_nullable row) "YES";
                        col_default := column_default row |} columns).
Proof.
  intros rows Hown.
  destruct (groupRows_groups rows [] [] ) as [schema [Hrun [Hnodup Hlookup]]];
    [split; [constructor | reflexivity] | exact Hown |].
  cbn [app] in Hlookup.
  exists schema. split; [exact Hrun|]. split; [exact Hnodup|]. split.
  - intros table columns. rewrite Hlookup. fold (columnsOf table rows).
    destruct (columnsOf table rows) as [|c cs]; split.
    + discriminate.
    + intros [Hne ->]. now destruct Hne.
    + intros H. injection H as <-. split; [discriminate | reflexivity].
    + intros [_ ->]. reflexivity.
  - intros row Hin. rewrite Hlookup.
    assert (Hc : In (columnOfRow row) (columnsOf (table_name row) rows)).
    { unfold columnsOf. apply in_map, filter_In.
      split; [exact Hin | apply String.eqb_refl]. }
    destruct (columnsOf (table_name row) rows) as [|c cs]; [destruct Hc|].
    eexists. split; [reflexivity | exact Hc].
Qed.

(** X17, on the rows of the example schema. *)
Lemma extractSchema_groups_columns_witness :
  exists schema,
    extractSchemaNode (inr demoRows) = inr schema
    /\ schemaLookup "users" schema
       = Some [mkColumn "id" "integer" false None;
               mkColumn "name" "text" true None].
Proof.
  destruct (extractSchema_groups_columns demoRows)
    as [schema [Hrun [_ [Hlookup _]]]].
  - repeat constructor.
  - exists schema. split; [exact Hrun|]. apply Hlookup.
    split; [discriminate | reflexivity].
Defined.

(** X18.  A table named like a property that objects inherit (for one,
    [constructor]) breaks the run: grouping throws at its first row,
    [extractSchema] throws the error on, and the agent answers the
    unexpected-error failure with the type error as details, having called
    neither the model nor the database for a query. *)
Theorem inherited_table_name_breaks_the_run :
  forall (base : World) (question : string) (options : Options)
         (rows : list SchemaRow) (row : SchemaRow),
    In row rows ->
    inheritsKey (table_name row) = true ->
    extractSchemaNode (inr rows) = inl pushIsNotAFunction
    /\ exists (r : AgentResult.t) (st : St.t),
         sqlQueryAgent (dbWorld (inr rows) base) question options
         = Some (r, st)
         /\ AgentResult.success r = false
         /\ AgentResult.error r = Some unexpectedError
         /\ AgentResult.details r = Some (DetailText pushIsNotAFunction)
         /\ St.calls st = [CallExtractSchema].
Proof.
  intros base question options rows row Hin Hinh.
  assert (Hthrows : extractSchemaNode (inr rows) = inl pushIsNotAFunction).
  { apply (groupRows_inherited rows [] row); [intros key [] | exact Hin
                                              | exact Hinh]. }
  split; [exact Hthrows|].
  destruct (sqlQueryAgent_cases (dbWorld (inr rows) base) question options)
    as [[message [Hschema ->]] | [schema [ex [st1 [Hschema _]]]]];
    cbn [extractSchema dbWorld] in Hschema; rewrite Hthrows in Hschema;
    [|discriminate Hschema].
  injection Hschema as <-.
  eexists. eexists. split; [reflexivity|]. repeat split.
Qed.

(** X18, with a table named [constructor]. *)
Lemma inherited_table_name_breaks_the_run_witness :
  exists r st,
    sqlQueryAgent (dbWorld (inr constructorRows) demoWorld)
      "How many users?" (mkOptions None None None) = Some (r, st)
    /\ AgentResult.error r = Some unexpectedError.
Proof.
  destruct (inherited_table_name_breaks_the_run demoWorld "How many users?"
              (mkOptions None None None) constructorRows
              (mkSchemaRow "constructor" "id" "integer" "NO" None))
    as [_ [r [st [Hrun [_ [Herr _]]]]]].
  - now left.
  - reflexivity.
  - exists r, st. split; [exact Hrun | exact Herr].
Defined.

(* ===================================================================== *)
(** ** The server *)
(* ===================================================================== *)


